(** * gorilla/i18n/linebreak: the line breaking scanner

    A shallow embedding of [linebreak/linebreak.go] (the pair table, the
    default class resolver and the forward scanner), of the class constants
    that [linebreak/maketables.go] generates, and of the [getActions] and
    [breakToInts] helpers of the package's scanner test. *)

From Stdlib Require Import String.
From Stdlib Require Import ZArith List Bool Lia Arith.
Import ListNotations.

Open Scope Z_scope.

(** ** Data model *)

(** A Go [rune] is an [int32]; no arithmetic is done on it here. *)
Definition rune := Z.

(** [type BreakAction int] with its six [iota] constants. *)
Inductive BreakAction : Type :=
| BreakDirect
| BreakIndirect
| BreakCombiningIndirect
| BreakCombiningProhibited
| BreakProhibited
| BreakMandatory.

Definition BreakAction_int (a : BreakAction) : Z :=
  match a with
  | BreakDirect => 0
  | BreakIndirect => 1
  | BreakCombiningIndirect => 2
  | BreakCombiningProhibited => 3
  | BreakProhibited => 4
  | BreakMandatory => 5
  end.

(** Pair table shortcuts ([in] is reserved in Rocq, hence [in_]). *)
Definition di := BreakDirect.
Definition in_ := BreakIndirect.
Definition ci := BreakCombiningIndirect.
Definition cp := BreakCombiningProhibited.
Definition pr := BreakProhibited.
Definition ex := BreakMandatory.

(** The line breaking classes, in the order of the [classes] list of
    [maketables.go]; [printClasses] numbers them with [iota] in that
    order, the first [pairTableSize = 29] being the paired ones. *)
Inductive BreakClass : Type :=
| ClassOP (* Open Punctuation *)
| ClassCL (* Close Punctuation *)
| ClassCP (* Close Parenthesis *)
| ClassQU (* Quotation *)
| ClassGL (* Non-breaking ("Glue") *)
| ClassNS (* Nonstarter *)
| ClassEX (* Exclamation/Interrogation *)
| ClassSY (* Symbols Allowing Break After *)
| ClassIS (* Infix Numeric Separator *)
| ClassPR (* Prefix Numeric *)
| ClassPO (* Postfix Numeric *)
| ClassNU (* Numeric *)
| ClassAL (* Alphabetic *)
| ClassHL (* Hebrew Letter *)
| ClassID (* Ideographic *)
| ClassIN (* Inseparable *)
| ClassHY (* Hyphen *)
| ClassBA (* Break After *)
| ClassBB (* Break Before *)
| ClassB2 (* Break Opportunity Before and After *)
| ClassZW (* Zero Width Space *)
| ClassCM (* Combining Mark *)
| ClassWJ (* Word Joiner *)
| ClassH2 (* Hangul LV Syllable *)
| ClassH3 (* Hangul LVT Syllable *)
| ClassJL (* Hangul L Jamo *)
| ClassJV (* Hangul V Jamo *)
| ClassJT (* Hangul T Jamo *)
| ClassRI (* Regional Indicator *)
(* Resolved outside of the pair table (> 28). *)
| ClassBK (* Mandatory Break *)
| ClassCR (* Carriage Return *)
| ClassLF (* Line Feed *)
| ClassNL (* Next Line *)
| ClassSG (* Surrogate *)
| ClassSP (* Space *)
| ClassCB (* Contingent Break Opportunity *)
| ClassAI (* Ambiguous (Alphabetic or Ideographic) *)
| ClassCJ (* Conditional Japanese Starter *)
| ClassSA (* Complex Context Dependent (South East Asian) *)
| ClassXX (* Unknown *).

(** [int(c)]: the [iota] value of a class constant. *)
Definition BreakClass_int (c : BreakClass) : Z :=
  match c with
  | ClassOP => 0 | ClassCL => 1 | ClassCP => 2 | ClassQU => 3
  | ClassGL => 4 | ClassNS => 5 | ClassEX => 6 | ClassSY => 7
  | ClassIS => 8 | ClassPR => 9 | ClassPO => 10 | ClassNU => 11
  | ClassAL => 12 | ClassHL => 13 | ClassID => 14 | ClassIN => 15
  | ClassHY => 16 | ClassBA => 17 | ClassBB => 18 | ClassB2 => 19
  | ClassZW => 20 | ClassCM => 21 | ClassWJ => 22 | ClassH2 => 23
  | ClassH3 => 24 | ClassJL => 25 | ClassJV => 26 | ClassJT => 27
  | ClassRI => 28 | ClassBK => 29 | ClassCR => 30 | ClassLF => 31
  | ClassNL => 32 | ClassSG => 33 | ClassSP => 34 | ClassCB => 35
  | ClassAI => 36 | ClassCJ => 37 | ClassSA => 38 | ClassXX => 39
  end.

(** [a == b] on classes is the comparison of their integer values. *)
Definition class_eqb (a b : BreakClass) : bool :=
  BreakClass_int a =? BreakClass_int b.

Definition pairTableSize : Z := 29.

(** ** Pair table *)

(** [type PairTable [][]BreakAction]: a slice of rows. *)
Definition PairTable := list (list BreakAction).

(** [len(x)] as a Go [int]. *)
Definition len {A : Type} (l : list A) : Z := Z.of_nat (length l).

(** [t[i]] for an index already known to satisfy [0 <= i < len(t)];
    the default is never reached under that guard. *)
Definition index {A : Type} (d : A) (l : list A) (i : Z) : A :=
  nth (Z.to_nat i) l d.

(** [func (t PairTable) Action(before, after BreakClass) BreakAction] *)
Definition Action (t : PairTable) (before after : BreakClass) : BreakAction :=
  if (BreakClass_int before <? len t)
     && (BreakClass_int after <? len (index [] t (BreakClass_int before)))
  then index BreakProhibited (index [] t (BreakClass_int before))
             (BreakClass_int after)
  else BreakProhibited.

(** [pairTable] is the example pair table of UAX #14, rows indexed by the
    class before and columns by the class after. *)
Definition pairTable : PairTable :=
  (* after:
     OP  CL  CP  QU  GL  NS  EX  SY  IS  PR  PO  NU  AL  HL  ID  IN  HY  BA
     BB  B2  ZW  CM  WJ  H2  H3  JL  JV  JT  RI *)
  [
    [pr; pr; pr; pr; pr; pr; pr; pr; pr; pr; pr; pr; pr; pr; pr; pr; pr; pr; pr; pr; pr; cp; pr; pr; pr; pr; pr; pr; pr]; (* OP *)
    [di; pr; pr; in_; in_; pr; pr; pr; pr; in_; in_; di; di; di; di; di; in_; in_; di; di; pr; ci; pr; di; di; di; di; di; di]; (* CL *)
    [di; pr; pr; in_; in_; pr; pr; pr; pr; in_; in_; in_; in_; in_; di; di; in_; in_; di; di; pr; ci; pr; di; di; di; di; di; di]; (* CP *)
    [pr; pr; pr; in_; in_; in_; pr; pr; pr; in_; in_; in_; in_; in_; in_; in_; in_; in_; in_; in_; pr; ci; pr; in_; in_; in_; in_; in_; in_]; (* QU *)
    [in_; pr; pr; in_; in_; in_; pr; pr; pr; in_; in_; in_; in_; in_; in_; in_; in_; in_; in_; in_; pr; ci; pr; in_; in_; in_; in_; in_; in_]; (* GL *)
    [di; pr; pr; in_; in_; in_; pr; pr; pr; di; di; di; di; di; di; di; in_; in_; di; di; pr; ci; pr; di; di; di; di; di; di]; (* NS *)
    [di; pr; pr; in_; in_; in_; pr; pr; pr; di; di; di; di; di; di; di; in_; in_; di; di; pr; ci; pr; di; di; di; di; di; di]; (* EX *)
    [di; pr; pr; in_; in_; in_; pr; pr; pr; di; di; in_; di; di; di; di; in_; in_; di; di; pr; ci; pr; di; di; di; di; di; di]; (* SY *)
    [di; pr; pr; in_; in_; in_; pr; pr; pr; di; di; in_; in_; in_; di; di; in_; in_; di; di; pr; ci; pr; di; di; di; di; di; di]; (* IS *)
    [in_; pr; pr; in_; in_; in_; pr; pr; pr; di; di; in_; in_; in_; in_; di; in_; in_; di; di; pr; ci; pr; in_; in_; in_; in_; in_; di]; (* PR *)
    [in_; pr; pr; in_; in_; in_; pr; pr; pr; di; di; in_; in_; in_; di; di; in_; in_; di; di; pr; ci; pr; di; di; di; di; di; di]; (* PO *)
    [in_; pr; pr; in_; in_; in_; pr; pr; pr; in_; in_; in_; in_; in_; di; in_; in_; in_; di; di; pr; ci; pr; di; di; di; di; di; di]; (* NU *)
    [in_; pr; pr; in_; in_; in_; pr; pr; pr; di; di; in_; in_; in_; di; in_; in_; in_; di; di; pr; ci; pr; di; di; di; di; di; di]; (* AL *)
    [in_; pr; pr; in_; in_; in_; pr; pr; pr; di; di; in_; in_; in_; di; in_; in_; in_; di; di; pr; ci; pr; di; di; di; di; di; di]; (* HL *)
    [di; pr; pr; in_; in_; in_; pr; pr; pr; di; in_; di; di; di; di; in_; in_; in_; di; di; pr; ci; pr; di; di; di; di; di; di]; (* ID *)
    [di; pr; pr; in_; in_; in_; pr; pr; pr; di; di; di; di; di; di; in_; in_; in_; di; di; pr; ci; pr; di; di; di; di; di; di]; (* IN *)
    [di; pr; pr; in_; di; in_; pr; pr; pr; di; di; in_; di; di; di; di; in_; in_; di; di; pr; ci; pr; di; di; di; di; di; di]; (* HY *)
    [di; pr; pr; in_; di; in_; pr; pr; pr; di; di; di; di; di; di; di; in_; in_; di; di; pr; ci; pr; di; di; di; di; di; di]; (* BA *)
    [in_; pr; pr; in_; in_; in_; pr; pr; pr; in_; in_; in_; in_; in_; in_; in_; in_; in_; in_; in_; pr; ci; pr; in_; in_; in_; in_; in_; in_]; (* BB *)
    [di; pr; pr; in_; in_; in_; pr; pr; pr; di; di; di; di; di; di; di; in_; in_; di; pr; pr; ci; pr; di; di; di; di; di; di]; (* B2 *)
    [di; di; di; di; di; di; di; di; di; di; di; di; di; di; di; di; di; di; di; di; pr; di; di; di; di; di; di; di; di]; (* ZW *)
    [in_; pr; pr; in_; in_; in_; pr; pr; pr; di; di; in_; in_; in_; di; in_; in_; in_; di; di; pr; ci; pr; di; di; di; di; di; di]; (* CM *)
    [in_; pr; pr; in_; in_; in_; pr; pr; pr; in_; in_; in_; in_; in_; in_; in_; in_; in_; in_; in_; pr; ci; pr; in_; in_; in_; in_; in_; in_]; (* WJ *)
    [di; pr; pr; in_; in_; in_; pr; pr; pr; di; in_; di; di; di; di; in_; in_; in_; di; di; pr; ci; pr; di; di; di; in_; in_; di]; (* H2 *)
    [di; pr; pr; in_; in_; in_; pr; pr; pr; di; in_; di; di; di; di; in_; in_; in_; di; di; pr; ci; pr; di; di; di; di; in_; di]; (* H3 *)
    [di; pr; pr; in_; in_; in_; pr; pr; pr; di; in_; di; di; di; di; in_; in_; in_; di; di; pr; ci; pr; in_; in_; in_; in_; di; di]; (* JL *)
    [di; pr; pr; in_; in_; in_; pr; pr; pr; di; in_; di; di; di; di; in_; in_; in_; di; di; pr; ci; pr; di; di; di; in_; in_; di]; (* JV *)
    [di; pr; pr; in_; in_; in_; pr; pr; pr; di; in_; di; di; di; di; in_; in_; in_; di; di; pr; ci; pr; di; di; di; di; in_; di]; (* JT *)
    [di; pr; pr; in_; in_; in_; pr; pr; pr; di; di; di; di; di; di; di; in_; in_; di; di; pr; ci; pr; di; di; di; di; di; in_] (* RI *)
  ].

(** ** Class resolver *)

(** [type ClassResolver func(rune) BreakClass] *)
Definition ClassResolver := rune -> BreakClass.

(** [classResolver] is the default resolver.  The generated [Class]
    function (the per-class range tables printed by [maketables.go]) and
    the standard library predicates [unicode.Is(unicode.Mn, r)] and
    [unicode.Is(unicode.Mc, r)] are taken as parameters. *)
Definition classResolver (Class : rune -> BreakClass)
    (isMn isMc : rune -> bool) (r : rune) : BreakClass :=
  let cls := Class r in
  (* LB1: Resolve AI, CB, CJ, SA, SG, and XX into other classes. *)
  match cls with
  | ClassAI | ClassSG | ClassXX => ClassAL
  | ClassCJ => ClassNS
  | ClassSA => if isMn r || isMc r then ClassCM else ClassAL
  | ClassCB => ClassID
  | _ => cls
  end.

(** ** Scanner *)

(** A Go [error] value, identified by its message; [nil] is [None]. *)
Definition error := String.string.
Definition io_EOF : error := "EOF"%string.

(** [type Scanner struct].  [pos] counts the runes consumed so far: it
    starts at 0 and only ever grows by one, up to [len(runes)]. *)
Record Scanner : Type := mkScanner {
  Resolver : ClassResolver;   (* returns a line breaking class for a rune *)
  Table : PairTable;          (* returns an action for adjacent classes *)
  runes : list rune;          (* input *)
  pos : nat;                  (* position of the input when moving forward *)
  prevClass : BreakClass;     (* previous rune class when moving forward *)
  err : option error          (* possible error; freezes the scanner *)
}.

Definition set_pos (s : Scanner) (p : nat) : Scanner :=
  mkScanner (Resolver s) (Table s) (runes s) p (prevClass s) (err s).
Definition set_prevClass (s : Scanner) (c : BreakClass) : Scanner :=
  mkScanner (Resolver s) (Table s) (runes s) (pos s) c (err s).
Definition set_err (s : Scanner) (e : option error) : Scanner :=
  mkScanner (Resolver s) (Table s) (runes s) (pos s) (prevClass s) e.

(** A scanner as a struct literal leaves it: the zero value for [pos],
    [prevClass] (0, that is [ClassOP]) and [err]. *)
Definition newScannerWith (R : ClassResolver) (T : PairTable)
    (r : list rune) : Scanner :=
  mkScanner R T r 0 ClassOP None.

(** [func NewScanner(r []rune) *Scanner], over the parameters of
    [classResolver]. *)
Definition NewScanner (Class : rune -> BreakClass) (isMn isMc : rune -> bool)
    (r : list rune) : Scanner :=
  newScannerWith (classResolver Class isMn isMc) pairTable r.

(** [func (s *Scanner) nextClass() (cls BreakClass, err error)]: the
    results and the scanner after the call. *)
Definition nextClass (s : Scanner) : BreakClass * option error * Scanner :=
  match err s with
  | Some e => (ClassOP, Some e, s)
  | None =>
    if (length (runes s) <=? pos s)%nat then
      (ClassOP, Some io_EOF, set_err s (Some io_EOF))
    else
      let sot := (pos s =? 0)%nat in
      let cls := Resolver s (nth (pos s) (runes s) 0) in
      let s := set_pos s (pos s + 1) in
      let cls :=
        match cls with
        | ClassNL => ClassBK
        | ClassSP => if sot then ClassWJ else cls
        | ClassLF => if sot then ClassBK else cls
        | _ => cls
        end in
      (cls, None, s)
  end.

(** The named results [(pos int, action BreakAction, err error)]. *)
Record Result : Type := mkResult {
  r_pos : nat;
  r_action : BreakAction;
  r_err : option error
}.

(** The refinement of the pair table action at the end of [Next]: the
    action reported and whether [prevClass] is updated to [cls]. *)
Definition resolve (prev : BreakClass) (action : BreakAction)
    : BreakAction * bool :=
  match action with
  | BreakIndirect =>
    (* resolve indirect break *)
    (if class_eqb prev ClassSP then BreakIndirect else BreakProhibited, true)
  | BreakCombiningIndirect =>
    (* resolve combining mark break *)
    if class_eqb prev ClassSP then (BreakCombiningIndirect, true)
    else (BreakProhibited, false)
  | BreakCombiningProhibited =>
    (BreakProhibited, negb (class_eqb prev ClassSP))
  | _ => (action, true)
  end.

(** [func (s *Scanner) Next() (pos int, action BreakAction, err error)].
    A bare [return] yields the named results as they stand; before any
    assignment they hold their zero values, 0 for [pos] and [BreakDirect]
    for [action]. *)
Definition Next (s : Scanner) : Result * Scanner :=
  if (pos s =? 0)%nat then
    (* Read start of text and set prevClass. *)
    let '(cls, e, s) := nextClass s in
    match e with
    | Some _ => (mkResult 0 BreakMandatory e, s)
    | None => (mkResult 0 BreakProhibited None, set_prevClass s cls)
    end
  else
    let p := pos s in
    let '(cls, e, s) := nextClass s in
    match e with
    | Some _ => (mkResult p BreakMandatory e, s)
    | None =>
      if negb (negb (class_eqb (prevClass s) ClassBK)
               && (negb (class_eqb (prevClass s) ClassCR)
                   || class_eqb cls ClassLF))
      then (mkResult p BreakDirect None, s)
      else
        match cls with
        | ClassBK | ClassLF =>
          (mkResult p BreakProhibited None, set_prevClass s ClassBK)
        | ClassCR =>
          (mkResult p BreakProhibited None, set_prevClass s ClassCR)
        | ClassSP =>
          (* do not update s.prevClass *)
          (mkResult p BreakProhibited None, s)
        | _ =>
          let '(action, save) :=
            resolve (prevClass s) (Action (Table s) (prevClass s) cls) in
          (mkResult p action None,
           if save then set_prevClass s cls else s)
        end
    end.

(** The scanner after [n] calls of [Next], and the result of the call
    number [n] (counting from 0). *)
Fixpoint after (n : nat) (s : Scanner) : Scanner :=
  match n with
  | O => s
  | S n => after n (snd (Next s))
  end.

Definition nth_call (n : nat) (s : Scanner) : Result :=
  fst (Next (after n s)).

(** The scanner test's [getActions] loop: call [Next] until it reports an
    error, collecting the actions; the last position is returned too.
    [fuel] bounds the number of calls. *)
Fixpoint getActions_loop (fuel : nat) (s : Scanner)
    (actions : list BreakAction) : option (list BreakAction * nat) :=
  match fuel with
  | O => None
  | S fuel =>
    let '(r, s) := Next s in
    let actions := actions ++ [r_action r] in
    match r_err r with
    | Some _ => Some (actions, r_pos r)
    | None => getActions_loop fuel s actions
    end
  end.

Definition getActions (fuel : nat) (s : Scanner)
    : option (list BreakAction * nat) :=
  getActions_loop fuel s [].

(** The scanner test's [breakToInts]: 1 where a break occurs. *)
Definition breakToInts (breaks : list BreakAction) : list Z :=
  map (fun v =>
         match v with
         | BreakDirect | BreakIndirect | BreakCombiningIndirect
         | BreakMandatory => 1
         | _ => 0
         end) breaks.

(** The classes that LineBreak.txt of Unicode 6.2.0 gives the few code
    points used in the examples below, standing in for the generated
    [Class] tables there; any other code point is answered [ClassXX], as
    [Class] does for a rune that is in none of its tables. *)
Definition exampleClass (r : rune) : BreakClass :=
  if r =? 0x0A then ClassLF
  else if r =? 0x0D then ClassCR
  else if r =? 0x20 then ClassSP
  else if r =? 0x28 then ClassOP
  else if r =? 0x85 then ClassNL
  else if r =? 0x0301 then ClassCM
  else if r =? 0x200B then ClassZW
  else if (0x61 <=? r) && (r <=? 0x7A) then ClassAL
  else ClassXX.

(** U+0301 is the only nonspacing mark among them, and none is a spacing
    combining mark. *)
Definition exampleMn (r : rune) : bool := r =? 0x0301.
Definition exampleMc (r : rune) : bool := false.

Definition exampleScanner (r : list rune) : Scanner :=
  NewScanner exampleClass exampleMn exampleMc r.

(** ** Auxiliary definitions *)

(** The only error the scanner ever holds is [io.EOF], and it holds it
    only with the input exhausted. *)
Definition eof_only (s : Scanner) : Prop :=
  err s = None \/
  (err s = Some io_EOF /\ (length (runes s) <= pos s)%nat).

(** Case analysis on everything [Next] branches on. *)
Ltac next_cases :=
  repeat match goal with
         | |- context [match ?x with _ => _ end] => destruct x eqn:?
         end.

(** The class of an integer value, the inverse of [BreakClass_int]. *)
Definition class_of_int (z : Z) : BreakClass :=
  match z with
  | 0 => ClassOP | 1 => ClassCL | 2 => ClassCP | 3 => ClassQU
  | 4 => ClassGL | 5 => ClassNS | 6 => ClassEX | 7 => ClassSY
  | 8 => ClassIS | 9 => ClassPR | 10 => ClassPO | 11 => ClassNU
  | 12 => ClassAL | 13 => ClassHL | 14 => ClassID | 15 => ClassIN
  | 16 => ClassHY | 17 => ClassBA | 18 => ClassBB | 19 => ClassB2
  | 20 => ClassZW | 21 => ClassCM | 22 => ClassWJ | 23 => ClassH2
  | 24 => ClassH3 | 25 => ClassJL | 26 => ClassJV | 27 => ClassJT
  | 28 => ClassRI | 29 => ClassBK | 30 => ClassCR | 31 => ClassLF
  | 32 => ClassNL | 33 => ClassSG | 34 => ClassSP | 35 => ClassCB
  | 36 => ClassAI | 37 => ClassCJ | 38 => ClassSA | _ => ClassXX
  end.

(** ** The scanner as a fold over classes *)

(** The class [nextClass] reports for a rune read at start of text, and
    for a rune read at any later position, from the class the resolver
    gives it. *)
Definition sot_class (c : BreakClass) : BreakClass :=
  match c with
  | ClassNL => ClassBK
  | ClassSP => ClassWJ
  | ClassLF => ClassBK
  | _ => c
  end.

Definition later_class (c : BreakClass) : BreakClass :=
  match c with
  | ClassNL => ClassBK
  | _ => c
  end.

(** What a call of [Next] past the first one decides from the class
    before and the class just read: the action reported and the class
    before it leaves. *)
Definition transition (T : PairTable) (prev cls : BreakClass)
    : BreakAction * BreakClass :=
  if negb (negb (class_eqb prev ClassBK)
           && (negb (class_eqb prev ClassCR) || class_eqb cls ClassLF))
  then (BreakDirect, prev)
  else
    match cls with
    | ClassBK | ClassLF => (BreakProhibited, ClassBK)
    | ClassCR => (BreakProhibited, ClassCR)
    | ClassSP => (BreakProhibited, prev)
    | _ =>
      let '(action, save) := resolve prev (Action T prev cls) in
      (action, if save then cls else prev)
    end.

(** [transition] run over a list of classes. *)
Fixpoint scan (T : PairTable) (prev : BreakClass) (classes : list BreakClass)
    : list BreakAction * BreakClass :=
  match classes with
  | [] => ([], prev)
  | cls :: classes =>
    let '(action, prev) := transition T prev cls in
    let '(actions, prev) := scan T prev classes in
    (action :: actions, prev)
  end.

(** The scanner test's [equalIntSlice]: the loop [for k, v := range a]
    comparing [b[k]] with [v], entered only with [len(a) == len(b)]. *)
Fixpoint equalIntSlice_loop (a : list Z) (k : nat) (b : list Z) : bool :=
  match a with
  | [] => true
  | v :: a => if negb (nth k b 0 =? v) then false
              else equalIntSlice_loop a (S k) b
  end.

Definition equalIntSlice (a b : list Z) : bool :=
  if negb (len a =? len b) then false else equalIntSlice_loop a 0 b.

(** A pair table none of whose entries is [BreakMandatory]. *)
Definition no_mandatory_entry (T : PairTable) : bool :=
  forallb (forallb (fun a => negb (BreakAction_int a =? 5))) T.

(** The classes resolved in the pair table. *)
Definition paired (c : BreakClass) : Prop := BreakClass_int c < pairTableSize.

(** The classes that can stand as the class before of the default
    scanner. *)
Definition prev_ok (c : BreakClass) : Prop :=
  paired c \/ c = ClassBK \/ c = ClassCR.

(** The classes the default scanner reads: paired, or one of those [Next]
    handles before it looks at the pair table. *)
Definition read_ok (c : BreakClass) : Prop :=
  paired c \/ c = ClassBK \/ c = ClassCR \/ c = ClassLF \/ c = ClassSP.

(** * linebreak/maketables.go: folding the code point ranges

    The pure helpers of the table generator.  [uint32] values are
    integers with the wrap-around of their arithmetic written out. *)

Module Maketables.

Definition uint32 (z : Z) : Z := z mod 2 ^ 32.

(** [type codePoint struct { lo, hi uint32; class string }] *)
Record codePoint : Type := mkCodePoint {
  lo : Z;
  hi : Z;
  class : string
}.

(** [unicode.Range32]: [struct { Lo, Hi, Stride uint32 }]. *)
Record Range32 : Type := mkRange32 {
  Lo : Z;
  Hi : Z;
  Stride : Z
}.

(** The zero value of [unicode.Range32], which fills the slots of the
    slice made by [make([]unicode.Range32, 0, len(r))]. *)
Definition zeroRange32 : Range32 := mkRange32 0 0 0.

(** [unicode.MaxLatin1], the code point U+00FF. *)
Definition MaxLatin1 : Z := 0xFF.

(** [s[i] = x], for [i < len(s)]. *)
Fixpoint update {A : Type} (s : list A) (i : nat) (x : A) : list A :=
  match s, i with
  | [], _ => []
  | _ :: s, O => x :: s
  | y :: s, S i => y :: update s i x
  end.

(** The body of the loop of [foldAdjacent], on the slice [s] and the
    count [j], for the code point [r[i]].  The conversions
    [uint32(r[i].lo)] and [uint32(r[i].hi)] are of [uint32] values and
    change nothing; [s[0 : j+1]] takes one more slot of the backing
    array. *)
Definition foldAdjacent_body (st : list Range32 * nat) (ri : codePoint)
    : list Range32 * nat :=
  let '(s, j) := st in
  if (0 <? j)%nat
     && (lo ri =? uint32 (Hi (nth (j - 1) s zeroRange32) + 1))
  then
    let last := nth (j - 1) s zeroRange32 in
    (update s (j - 1) (mkRange32 (Lo last) (hi ri) (Stride last)), j)
  else
    let s := firstn (j + 1) (s ++ [zeroRange32]) in
    (update s j (mkRange32 (lo ri) (hi ri) 1), (j + 1)%nat).

(** [func foldAdjacent(r []codePoint) []unicode.Range32] *)
Definition foldAdjacent (r : list codePoint) : list Range32 :=
  fst (fold_left foldAdjacent_body r ([], 0%nat)).

(** The loop of [findLatinOffset], from the index [i]; it makes at most
    [len(ranges)] rounds, which [fuel] counts. *)
Fixpoint findLatinOffset_loop (fuel : nat) (ranges : list Range32) (i : nat)
    : nat :=
  match fuel with
  | O => i
  | S fuel =>
    if (i <? length ranges)%nat
       && (Hi (nth i ranges zeroRange32) <=? MaxLatin1)
    then findLatinOffset_loop fuel ranges (S i)
    else i
  end.

(** [func findLatinOffset(ranges []unicode.Range32) int] *)
Definition findLatinOffset (ranges : list Range32) : nat :=
  findLatinOffset_loop (length ranges) ranges 0.

(** The code points a list of [codePoint] entries, and a list of ranges
    of stride 1, stand for. *)
Definition in_codePoints (r : list codePoint) (c : Z) : Prop :=
  exists p, In p r /\ lo p <= c <= hi p.

Definition in_ranges (s : list Range32) (c : Z) : Prop :=
  exists g, In g s /\ Lo g <= c <= Hi g.

(** An entry as LineBreak.txt gives it: a non-empty range that ends
    before the last [uint32]. *)
Definition well_formed (p : codePoint) : Prop :=
  0 <= lo p /\ lo p <= hi p /\ hi p < 2 ^ 32 - 1.

(** The slice of [foldAdjacent] kept with the last range first. *)
Definition fold_rev (acc : list Range32) (ri : codePoint) : list Range32 :=
  match acc with
  | last :: front =>
    if lo ri =? uint32 (Hi last + 1)
    then mkRange32 (Lo last) (hi ri) (Stride last) :: front
    else mkRange32 (lo ri) (hi ri) 1 :: acc
  | [] => [mkRange32 (lo ri) (hi ri) 1]
  end.

(** A range as [foldAdjacent] makes it of such entries. *)
Definition range_ok (g : Range32) : Prop :=
  0 <= Lo g /\ Lo g <= Hi g /\ Hi g < 2 ^ 32 - 1.

(** On the slice read backwards: each range is not the continuation of
    the one that follows it in the list. *)
Fixpoint folded_rev (acc : list Range32) : Prop :=
  match acc with
  | b :: ((a :: _) as acc') => Lo b <> uint32 (Hi a + 1) /\ folded_rev acc'
  | _ => True
  end.

End Maketables.

(** * gettext: the catalog and the MO reader and writer

    [gettext/catalog.go] and the MO file code.  A [[]byte] is [None] when
    nil and its contents otherwise; a Go [string] is its sequence of
    bytes; a message held through a pointer is held by value, no two
    holders of a message being modelled. *)

From Stdlib Require Orders Mergesort Permutation Sorted Zbitwise.

Module Gettext.

#[local] Abbreviation byte := Byte.byte.
Definition gostring := list byte.
Definition slice := option (list byte).

(** [len(b)] and the bytes of a possibly nil slice. *)
Definition contents (b : slice) : list byte :=
  match b with
  | Some l => l
  | None => []
  end.

(** The bytes of a Go string literal. *)
Definition lit (s : string) : gostring := list_byte_of_string s.

(** Error values: the two of package [io] the code meets, and the calls
    of [errors.New] and [fmt.Errorf] that make the others, kept with
    their format and arguments. *)
Inductive error : Type :=
| io_EOF
| io_ErrUnexpectedEOF
| errors_New (text : string)
| fmt_Errorf (format : string) (args : list gostring).

Definition is_EOF (e : option error) : bool :=
  match e with
  | Some io_EOF => true
  | _ => false
  end.

(** [type MessageMeta struct] *)
Record MessageMeta : Type := mkMessageMeta {
  TranslatorComments : list (list byte);
  ExtractedComments : list (list byte);
  References : list (list byte);
  Flags : list (list byte);
  PrevCtxt : slice;
  PrevId : slice;
  PrevIdPlural : slice
}.

(** [type Message struct] *)
Record Message : Type := mkMessage {
  Ctxt : slice;                  (* msgctxt: message context, if any *)
  Id : slice;                    (* msgid: untranslated singular string *)
  IdPlural : slice;              (* msgid_plural *)
  Str : slice;                   (* msgstr: translated singular string *)
  StrPlural : list (list byte);  (* msgstr[n]: translated plural strings *)
  Meta : option MessageMeta      (* message comments from PO file *)
}.

Definition set_Str (m : Message) (s : slice) : Message :=
  mkMessage (Ctxt m) (Id m) (IdPlural m) s (StrPlural m) (Meta m).

(** Separators for msgctxt, msgid, msgstr and plural equivalents. *)
Definition nulBytes : list byte := [Byte.x00].
Definition eotBytes : list byte := [Byte.x04].

(** [textproto.MIMEHeader], a [map[string][]string]: its entries, in the
    order in which a [range] over it visits them. *)
Definition MIMEHeader := list (gostring * list gostring).

(** [func headerToBytes(header textproto.MIMEHeader) []byte].  The buffer
    gives back a nil slice when nothing was written to it. *)
Definition headerToBytes (header : option MIMEHeader) : slice :=
  match header with
  | Some h =>
    let b :=
      flat_map (fun kv =>
                  flat_map (fun value =>
                              fst kv ++ lit ": " ++ value ++ [Byte.x0a])
                    (snd kv)) h in
    match b with
    | [] => None
    | _ => Some b
    end
  | None => None
  end.

(** Go strings compare byte by byte. *)
Fixpoint string_leb (a b : gostring) : bool :=
  match a, b with
  | [], _ => true
  | _ :: _, [] => false
  | x :: a, y :: b =>
    if (Byte.to_N x <? Byte.to_N y)%N then true
    else if (Byte.to_N y <? Byte.to_N x)%N then false
    else string_leb a b
  end.

Definition string_eqb (a b : gostring) : bool :=
  if list_eq_dec Byte.byte_eq_dec a b then true else false.

(** [sort.Strings]: the keys in increasing order. *)
Module StringOrder <: Orders.TotalLeBool.

Definition t := gostring.

Definition leb := string_leb.

Lemma leb_total (a b : t) : leb a b = true \/ leb b a = true.
Proof.
  revert b. induction a as [| x a IH]; intros [| y b]; simpl; auto.
  destruct (N.ltb_spec (Byte.to_N x) (Byte.to_N y)); auto.
  destruct (N.ltb_spec (Byte.to_N y) (Byte.to_N x)); auto.
Qed.

End StringOrder.

Module StringSort := Mergesort.Sort StringOrder.

Definition sort_Strings (a : list gostring) : list gostring :=
  StringSort.sort a.

(** A [map[string]*Message]: the assignments made, the last one first. *)
Definition msgmap := list (gostring * Message).

Fixpoint map_get (m : msgmap) (key : gostring) : option Message :=
  match m with
  | [] => None
  | (k, v) :: m => if string_eqb k key then Some v else map_get m key
  end.

Definition map_set (m : msgmap) (key : gostring) (v : Message) : msgmap :=
  (key, v) :: m.

(** [type Catalog struct] *)
Record Catalog : Type := mkCatalog {
  Header : option MIMEHeader;
  msgs : msgmap;
  keys : list gostring
}.

(** [func NewCatalog() *Catalog] *)
Definition NewCatalog : Catalog := mkCatalog None [] [].

(** [func (c *Catalog) key(ctxt, id []byte) (string, error)] *)
Definition key (ctxt id : slice) : gostring * option error :=
  match id with
  | None => ([], Some (fmt_Errorf "Invalid msgid." []))
  | Some id =>
    match ctxt with
    | None => (id, None)
    | Some ctxt => (ctxt ++ [Byte.x04] ++ id, None)
    end
  end.

Section Catalog.

(** [textproto]'s [ReadMIMEHeader] on the bytes of a header, and
    [fmt.Sprintf] on the values passed to [Singular], are the library's. *)
Variable ReadMIMEHeader : list byte -> MIMEHeader * option error.
Variable arg : Type.
Variable Sprintf : gostring -> list arg -> gostring.

(** [func bytesToHeader(header []byte) textproto.MIMEHeader] *)
Definition bytesToHeader (header : slice) : MIMEHeader :=
  let '(h, err) := ReadMIMEHeader (contents header) in
  if is_EOF err then h else [].

(** [func (c *Catalog) Singular(key string, args ...interface{}) string] *)
Definition Singular (c : Catalog) (key : gostring) (args : list arg)
    : gostring :=
  match map_get (msgs c) key with
  | Some msg =>
    match Str msg with
    | Some text =>
      match args with
      | [] => text
      | _ => Sprintf text args
      end
    | None => key
    end
  | None => key
  end.

(** [func (c *Catalog) setMessage(msg *Message) error]: the error and
    the catalog after the call. *)
Definition setMessage (c : Catalog) (msg : Message)
    : option error * Catalog :=
  let '(k, err) := key (Ctxt msg) (Id msg) in
  match err with
  | Some _ => (err, c)
  | None =>
    match map_get (msgs c) k with
    | Some _ =>
      (Some (fmt_Errorf "Message key already exists: %q." [k]), c)
    | None =>
      if (len k =? 0) then
        match Header c with
        | Some _ => (Some (fmt_Errorf "Catalog header already exists." []), c)
        | None =>
          (None,
           mkCatalog (Some (bytesToHeader (Str msg)))
             (map_set (msgs c) k msg) (keys c ++ [k]))
        end
      else
        (None, mkCatalog (Header c) (map_set (msgs c) k msg) (keys c ++ [k]))
    end
  end.

End Catalog.

(** [type catalogIterator struct]; the catalog it points to is carried
    along. *)
Record catalogIterator : Type := mkCatalogIterator {
  ctg : Catalog;
  pos : Z
}.

(** [func (c *Catalog) Iter() Iterator], which sorts the keys of the
    catalog. *)
Definition Iter (c : Catalog) : catalogIterator :=
  mkCatalogIterator (mkCatalog (Header c) (msgs c) (sort_Strings (keys c))) 0.

(** [func (i *catalogIterator) Size() int] *)
Definition catalogIterator_Size (i : catalogIterator) : Z :=
  len (keys (ctg i)).

(** The outcome of a call that may stop on a nil pointer. *)
Inductive outcome (A : Type) : Type :=
| Returns (a : A)
| Panics.
Arguments Returns {A} a.
Arguments Panics {A}.

(** [func (i *catalogIterator) Next()], returning a message pointer and
    an error.  The message of the empty key gets the header written to
    its [Str], in the catalog too, which holds the same message. *)
Definition catalogIterator_Next (i : catalogIterator)
    : outcome (option Message * option error * catalogIterator) :=
  if pos i <? len (keys (ctg i)) then
    let key := nth (Z.to_nat (pos i)) (keys (ctg i)) [] in
    let msg := map_get (msgs (ctg i)) key in
    if len key =? 0 then
      match msg with
      | None => Panics
      | Some m =>
        let m := set_Str m (headerToBytes (Header (ctg i))) in
        Returns (Some m, None,
                 mkCatalogIterator
                   (mkCatalog (Header (ctg i)) (map_set (msgs (ctg i)) key m)
                      (keys (ctg i)))
                   (pos i + 1))
      end
    else Returns (msg, None, mkCatalogIterator (ctg i) (pos i + 1))
  else Returns (None, Some io_EOF, i).

(** The message an iterator over a catalog gives for a key: the one
    stored, with the header as its [Str] under the empty key. *)
Definition yielded (m : msgmap) (h : option MIMEHeader) (key : gostring)
    : option Message :=
  match map_get m key with
  | Some msg =>
    Some (if len key =? 0 then set_Str msg (headerToBytes h) else msg)
  | None => None
  end.

(** A catalog whose keys are those of its messages, each once. *)
Definition consistent (c : Catalog) : Prop :=
  NoDup (keys c) /\ forall k, In k (keys c) <-> map_get (msgs c) k <> None.

(** ** Calls that may panic *)

Definition bind {A B : Type} (x : outcome A) (f : A -> outcome B)
    : outcome B :=
  match x with
  | Returns a => f a
  | Panics => Panics
  end.

Notation "x <- c ;; k" := (bind c (fun x => k))
  (at level 61, c at next level, right associativity).
Notation "' p <- c ;; k" := (bind c (fun x => let p := x in k))
  (at level 61, p pattern, c at next level, right associativity).

(** [type Iterator interface]: [Size] and [Next], each with the
    iterator after the call. *)
Class Iterator (I : Type) : Type := {
  Size : I -> Z * I;
  Next : I -> outcome (option Message * option error * I)
}.

#[export] Instance catalogIterator_Iterator : Iterator catalogIterator := {
  Size := fun i => (catalogIterator_Size i, i);
  Next := catalogIterator_Next
}.

(** ** Integers of fixed width *)

Definition uint16 (z : Z) : Z := z mod 2 ^ 16.
Definition uint32 (z : Z) : Z := z mod 2 ^ 32.
Definition int64 (z : Z) : Z := (z + 2 ^ 63) mod 2 ^ 64 - 2 ^ 63.

Definition byte_value (b : byte) : Z := Z.of_N (Byte.to_N b).

Definition byte_of (z : Z) : byte :=
  match Byte.of_N (Z.to_N (z mod 256)) with
  | Some b => b
  | None => Byte.x00
  end.

(** [binary.ByteOrder], with its two values. *)
Inductive ByteOrder : Type :=
| LittleEndian
| BigEndian.

(** [order.Uint16(b)], [order.Uint32(b)] and [order.PutUint32(b, v)]. *)
Definition Uint16 (order : ByteOrder) (b : list byte) : Z :=
  let b0 := byte_value (nth 0 b Byte.x00) in
  let b1 := byte_value (nth 1 b Byte.x00) in
  match order with
  | LittleEndian => Z.lor b0 (Z.shiftl b1 8)
  | BigEndian => Z.lor b1 (Z.shiftl b0 8)
  end.

Definition Uint32 (order : ByteOrder) (b : list byte) : Z :=
  let b0 := byte_value (nth 0 b Byte.x00) in
  let b1 := byte_value (nth 1 b Byte.x00) in
  let b2 := byte_value (nth 2 b Byte.x00) in
  let b3 := byte_value (nth 3 b Byte.x00) in
  match order with
  | LittleEndian =>
    Z.lor (Z.lor (Z.lor b0 (Z.shiftl b1 8)) (Z.shiftl b2 16)) (Z.shiftl b3 24)
  | BigEndian =>
    Z.lor (Z.lor (Z.lor b3 (Z.shiftl b2 8)) (Z.shiftl b1 16)) (Z.shiftl b0 24)
  end.

Definition PutUint16 (order : ByteOrder) (v : Z) : list byte :=
  match order with
  | LittleEndian => [byte_of v; byte_of (Z.shiftr v 8)]
  | BigEndian => [byte_of (Z.shiftr v 8); byte_of v]
  end.

Definition PutUint32 (order : ByteOrder) (v : Z) : list byte :=
  match order with
  | LittleEndian =>
    [byte_of v; byte_of (Z.shiftr v 8); byte_of (Z.shiftr v 16);
     byte_of (Z.shiftr v 24)]
  | BigEndian =>
    [byte_of (Z.shiftr v 24); byte_of (Z.shiftr v 16);
     byte_of (Z.shiftr v 8); byte_of v]
  end.

(** Magic byte order identifiers. *)
Definition bigEndian : Z := 0xde120495.
Definition littleEndian : Z := 0x950412de.

Record moRevision : Type := mkRevision {
  Major : Z;
  Minor : Z
}.

Record moHeader : Type := mkHeader {
  MsgCount : Z;
  IdTableOffset : Z;
  StrTableOffset : Z;
  HashSize : Z;
  HashOffset : Z
}.

Record moPosition : Type := mkPosition {
  p_Size : Z;
  p_Offset : Z
}.

Definition zeroHeader : moHeader := mkHeader 0 0 0 0 0.

(** ** Package [bytes] *)

Fixpoint HasPrefix (s prefix : list byte) : bool :=
  match prefix, s with
  | [], _ => true
  | _ :: _, [] => false
  | p :: prefix, x :: s => Byte.eqb x p && HasPrefix s prefix
  end.

(** [bytes.Index(s, sep)]: the index of the first instance of [sep] in
    [s], or -1. *)
Fixpoint Index_from (i : Z) (s sep : list byte) : Z :=
  if HasPrefix s sep then i
  else
    match s with
    | [] => -1
    | _ :: s => Index_from (i + 1) s sep
    end.

Definition Index (s sep : list byte) : Z := Index_from 0 s sep.

(** [bytes.Split(s, sep)] for a separator that is not empty; [fuel]
    bounds the number of separators found. *)
Fixpoint Split_loop (fuel : nat) (s sep : list byte) : list (list byte) :=
  match fuel with
  | O => [s]
  | S fuel =>
    let m := Index s sep in
    if m <? 0 then [s]
    else firstn (Z.to_nat m) s
         :: Split_loop fuel (skipn (Z.to_nat m + length sep) s) sep
  end.

Definition Split (s sep : list byte) : list (list byte) :=
  Split_loop (length s) s sep.

(** [bytes.Join(s, sep)] *)
Fixpoint Join (s : list (list byte)) (sep : list byte) : list byte :=
  match s with
  | [] => []
  | [x] => x
  | x :: s => x ++ sep ++ Join s sep
  end.

(** ** Reading a MO file *)

(** [io.ReadSeeker], as the reader uses it: [Seek], and [io.ReadFull]
    for a buffer of a given size, greater than 0; each with the
    stream after the call. *)
Class ReadSeeker (RS : Type) : Type := {
  Seek : RS -> Z -> Z -> Z * option error * RS;
  ReadFull : RS -> Z -> list byte * option error * RS
}.

(** The bytes [binary.Read] gets for a value of [n] bytes: it reads them
    with [io.ReadFull], which does not call the reader for no bytes. *)
Definition readBytes {RS : Type} `{ReadSeeker RS} (rs : RS) (n : Z)
    : list byte * option error * RS :=
  if n =? 0 then ([], None, rs) else ReadFull rs n.

(** [type moReader struct] *)
Record moReader (RS : Type) : Type := mkReader {
  reader : RS;                  (* stream reader *)
  order : option ByteOrder;     (* byte order of the stream *)
  offset : Z;                   (* relative offset of the stream *)
  header : option moHeader;     (* parsed catalog header *)
  r_pos : Z;                    (* iterator position *)
  r_err : option error          (* iterator error *)
}.
Arguments mkReader {RS}.
Arguments reader {RS}.
Arguments order {RS}.
Arguments offset {RS}.
Arguments header {RS}.
Arguments r_pos {RS}.
Arguments r_err {RS}.

Section Reader.

Context {RS : Type} `{ReadSeeker RS}.

(** [func ReadMo(r io.ReadSeeker) Iterator] *)
Definition ReadMo (r : RS) : moReader RS :=
  mkReader r None 0 None 0 None.

(** [func (r *moReader) seek(offset int64) error] *)
Definition seek (r : moReader RS) (off : Z) : option error * moReader RS :=
  let '(_, err, rs) := Seek (reader r) (int64 (off - offset r)) 1 in
  match err with
  | Some _ =>
    (err, mkReader rs (order r) (offset r) (header r) (r_pos r) (r_err r))
  | None =>
    (None, mkReader rs (order r) off (header r) (r_pos r) (r_err r))
  end.

(** [func (r *moReader) readHeader() (moHeader, error)] *)
Definition readHeader (r : moReader RS) : moHeader * option error * moReader RS :=
  let h := zeroHeader in
  let '(err, r) := seek r 0 in
  match err with
  | Some _ => (h, err, r)
  | None =>
    (* byte 0: byte order. *)
    let '(b, err, rs) := readBytes (reader r) 4 in
    let r := mkReader rs (order r) (offset r) (header r) (r_pos r) (r_err r) in
    match err with
    | Some _ => (h, err, r)
    | None =>
      let magic := Uint32 LittleEndian b in
      let chosen :=
        if magic =? bigEndian then Some BigEndian
        else if magic =? littleEndian then Some LittleEndian
        else None in
      match chosen with
      | None =>
        (h, Some (errors_New "Unable to identify the byte order."), r)
      | Some o =>
        let r :=
          mkReader (reader r) (Some o) (offset r) (header r) (r_pos r)
            (r_err r) in
        (* byte 4: major revision number. *)
        (* byte 6: minor revision number (ignored). *)
        let '(b, err, rs) := readBytes (reader r) 4 in
        let r :=
          mkReader rs (order r) (offset r) (header r) (r_pos r) (r_err r) in
        match err with
        | Some _ => (h, err, r)
        | None =>
          let revision :=
            mkRevision (Uint16 o (firstn 2 b)) (Uint16 o (skipn 2 b)) in
          if negb (Major revision =? 0) && negb (Major revision =? 1) then
            (h, Some (errors_New "Unexpected major revision number."), r)
          else
            let '(b, err, rs) := readBytes (reader r) 20 in
            let r :=
              mkReader rs (order r) (offset r) (header r) (r_pos r)
                (r_err r) in
            match err with
            | Some _ => (h, err, r)
            | None =>
              let h :=
                mkHeader (Uint32 o (firstn 4 b))
                  (Uint32 o (firstn 4 (skipn 4 b)))
                  (Uint32 o (firstn 4 (skipn 8 b)))
                  (Uint32 o (firstn 4 (skipn 12 b)))
                  (Uint32 o (firstn 4 (skipn 16 b))) in
              (* Increment offset by the amount we have read. *)
              let r :=
                mkReader (reader r) (order r) (int64 (offset r + 28))
                  (header r) (r_pos r) (r_err r) in
              (h, None, r)
            end
        end
      end
    end
  end.

(** [func (r *moReader) init()] *)
Definition init (r : moReader RS) : moReader RS :=
  match header r with
  | None =>
    let '(h, err, r) := readHeader r in
    match err with
    | Some _ =>
      mkReader (reader r) (order r) (offset r) (Some zeroHeader) (r_pos r) err
    | None =>
      mkReader (reader r) (order r) (offset r) (Some h) (r_pos r) (r_err r)
    end
  | Some _ => r
  end.

(** [r.header.MsgCount] and the like, behind the pointer. *)
Definition header_of (r : moReader RS) : moHeader :=
  match header r with
  | Some h => h
  | None => zeroHeader
  end.

(** [func (r *moReader) Size() int] *)
Definition moReader_Size (r : moReader RS) : Z * moReader RS :=
  let r := init r in
  (MsgCount (header_of r), r).

(** [func (r *moReader) readMessage(tableOffset uint32) ([]byte, error)];
    decoding the position with a nil byte order panics. *)
Definition readMessage (r : moReader RS) (tableOffset : Z)
    : outcome (slice * option error * moReader RS) :=
  (* Get message length and position. *)
  let '(err, r) := seek r tableOffset in
  match err with
  | Some _ => Returns (None, err, r)
  | None =>
    let '(b, err, rs) := readBytes (reader r) 8 in
    let r := mkReader rs (order r) (offset r) (header r) (r_pos r) (r_err r) in
    match err with
    | Some _ => Returns (None, err, r)
    | None =>
      match order r with
      | None => Panics
      | Some o =>
        let pos :=
          mkPosition (Uint32 o (firstn 4 b)) (Uint32 o (skipn 4 b)) in
        (* Increment offset by the amount we have read. *)
        let r :=
          mkReader (reader r) (order r) (int64 (offset r + 8)) (header r)
            (r_pos r) (r_err r) in
        (* Get the message itself. *)
        let '(err, r) := seek r (p_Offset pos) in
        match err with
        | Some _ => Returns (None, err, r)
        | None =>
          let '(bytes, err, rs) := readBytes (reader r) (p_Size pos) in
          let r :=
            mkReader rs (order r) (offset r) (header r) (r_pos r) (r_err r) in
          match err with
          | Some _ => Returns (None, err, r)
          | None =>
            (* Increment offset by the amount we have read. *)
            let r :=
              mkReader (reader r) (order r)
                (int64 (offset r + p_Size pos)) (header r) (r_pos r)
                (r_err r) in
            Returns (Some bytes, None, r)
          end
        end
      end
    end
  end.

Definition set_r_err (r : moReader RS) (e : option error) : moReader RS :=
  mkReader (reader r) (order r) (offset r) (header r) (r_pos r) e.

(** The message [Next] makes of the msgid and msgstr read. *)
Definition decodeMessage (id str : list byte) : Message :=
  (* Is this a context message? *)
  let '(ctxt, id) :=
    let idx := Index id eotBytes in
    if negb (idx =? -1)
    then (Some (firstn (Z.to_nat idx) id), skipn (Z.to_nat (idx + 1)) id)
    else (None, id) in
  (* Is this a plural message? *)
  let idx := Index id nulBytes in
  if negb (idx =? -1)
  then mkMessage ctxt (Some (firstn (Z.to_nat idx) id))
         (Some (skipn (Z.to_nat (idx + 1)) id)) None (Split str nulBytes) None
  else mkMessage ctxt (Some id) None (Some str) [] None.

(** [func (r *moReader) Next()], returning a message pointer and an
    error. *)
Definition moReader_Next (r : moReader RS)
    : outcome (option Message * option error * moReader RS) :=
  let r := init r in
  match r_err r with
  | Some _ => Returns (None, r_err r, r)
  | None =>
    if MsgCount (header_of r) <=? r_pos r then
      Returns (None, Some io_EOF, set_r_err r (Some io_EOF))
    else
      (* Read msgid and msgstr. *)
      '(id, err, r) <-
        readMessage r (uint32 (IdTableOffset (header_of r) + r_pos r * 8)) ;;
      match err with
      | Some _ => Returns (None, err, set_r_err r err)
      | None =>
        '(str, err, r) <-
          readMessage r
            (uint32 (StrTableOffset (header_of r) + r_pos r * 8)) ;;
        match err with
        | Some _ => Returns (None, err, set_r_err r err)
        | None =>
          let msg := decodeMessage (contents id) (contents str) in
          Returns (Some msg, None,
                   mkReader (reader r) (order r) (offset r) (header r)
                     (uint32 (r_pos r + 1)) (r_err r))
        end
      end
  end.

#[export] Instance moReader_Iterator : Iterator (moReader RS) := {
  Size := moReader_Size;
  Next := moReader_Next
}.

End Reader.

(** A caller's loop over an iterator: up to [n] calls of [Next], until
    one reports an error; the messages got, that error if any, and the
    iterator left. *)
Fixpoint collect {I : Type} `{Iterator I} (n : nat) (it : I)
    : outcome (list (option Message) * option error * I) :=
  match n with
  | O => Returns ([], None, it)
  | S n =>
    '(msg, err, it) <- Next it ;;
    match err with
    | Some _ => Returns ([], err, it)
    | None =>
      '(rest, err, it) <- collect n it ;;
      Returns (msg :: rest, err, it)
    end
  end.

(** ** Reading a MO file into a catalog *)

Section CatalogReadMo.

Variable ReadMIMEHeader : list byte -> MIMEHeader * option error.

(** The loop of [Catalog.ReadMo], for [n] more rounds.  The error of
    [setMessage] is dropped, as in the source; a nil message that comes
    without an error makes [setMessage] panic. *)
Fixpoint Catalog_ReadMo_loop {I : Type} `{Iterator I} (n : nat) (iter : I)
    (c : Catalog) : outcome (option error * Catalog * I) :=
  match n with
  | O => Returns (None, c, iter)
  | S n =>
    '(msg, err, iter) <- Next iter ;;
    match err with
    | Some _ => Returns (err, c, iter)
    | None =>
      match msg with
      | None => Panics
      | Some msg =>
        let '(_, c) := setMessage ReadMIMEHeader c msg in
        Catalog_ReadMo_loop n iter c
      end
    end
  end.

(** [func (c *Catalog) ReadMo(r io.ReadSeeker) error] *)
Definition Catalog_ReadMo {RS : Type} `{ReadSeeker RS} (c : Catalog) (r : RS)
    : outcome (option error * Catalog * moReader RS) :=
  let iter := ReadMo r in
  let '(size, iter) := Size iter in
  Catalog_ReadMo_loop (Z.to_nat size) iter c.

End CatalogReadMo.

(** ** Writing a MO file *)

(** [io.WriteSeeker]: [Seek] and [Write], each with the stream after the
    call. *)
Class WriteSeeker (WS : Type) : Type := {
  wSeek : WS -> Z -> Z -> Z * option error * WS;
  Write : WS -> list byte -> Z * option error * WS
}.

(** [type moWriter struct] *)
Record moWriter (WS I : Type) : Type := mkWriter {
  writer : WS;     (* stream writer *)
  iter : I;        (* messages to write *)
  w_offset : Z     (* relative offset of the stream *)
}.
Arguments mkWriter {WS I}.
Arguments writer {WS I}.
Arguments iter {WS I}.
Arguments w_offset {WS I}.

Section Writer.

Context {WS I : Type} `{WriteSeeker WS} `{Iterator I}.

(** [binary.Write(w.writer, binary.LittleEndian, data)] for the bytes
    [data] encodes to: one call of [Write], of which the error is kept. *)
Definition writeBytes (w : moWriter WS I) (b : list byte)
    : option error * moWriter WS I :=
  let '(_, err, ws) := Write (writer w) b in
  (err, mkWriter ws (iter w) (w_offset w)).

(** [func (w *moWriter) seek(offset int64) error] *)
Definition w_seek (w : moWriter WS I) (off : Z)
    : option error * moWriter WS I :=
  let '(_, err, ws) := wSeek (writer w) (int64 (off - w_offset w)) 1 in
  match err with
  | Some _ => (err, mkWriter ws (iter w) (w_offset w))
  | None => (None, mkWriter ws (iter w) off)
  end.

Definition add_offset (w : moWriter WS I) (n : Z) : moWriter WS I :=
  mkWriter (writer w) (iter w) (int64 (w_offset w + n)).

(** The bytes of a [moHeader] and of a [moPosition], little endian. *)
Definition headerBytes (h : moHeader) : list byte :=
  PutUint32 LittleEndian (MsgCount h)
  ++ PutUint32 LittleEndian (IdTableOffset h)
  ++ PutUint32 LittleEndian (StrTableOffset h)
  ++ PutUint32 LittleEndian (HashSize h)
  ++ PutUint32 LittleEndian (HashOffset h).

Definition positionBytes (p : moPosition) : list byte :=
  PutUint32 LittleEndian (p_Size p) ++ PutUint32 LittleEndian (p_Offset p).

(** [func (w *moWriter) writeHeader(header moHeader) error] *)
Definition writeHeader (w : moWriter WS I) (h : moHeader)
    : option error * moWriter WS I :=
  let '(err, w) := w_seek w 0 in
  match err with
  | Some _ => (err, w)
  | None =>
    (* byte 0: magic number. *)
    let '(err, w) := writeBytes w (PutUint32 LittleEndian littleEndian) in
    match err with
    | Some _ => (err, w)
    | None =>
      (* byte 4: major+minor revision number. *)
      let '(err, w) :=
        writeBytes w (PutUint16 LittleEndian 0 ++ PutUint16 LittleEndian 0) in
      match err with
      | Some _ => (err, w)
      | None =>
        (* bytes 8-24: header values. *)
        let '(err, w) := writeBytes w (headerBytes h) in
        match err with
        | Some _ => (err, w)
        | None =>
          (* Increment offset by the amount we have written. *)
          (None, add_offset w 28)
        end
      end
    end
  end.

(** [func (w *moWriter) writeMessage(tableOffset, msgOffset uint32,
    bytes []byte) error] *)
Definition writeMessage (w : moWriter WS I) (tableOffset msgOffset : Z)
    (bytes : list byte) : option error * moWriter WS I :=
  (* Write message length and position. *)
  let '(err, w) := w_seek w tableOffset in
  match err with
  | Some _ => (err, w)
  | None =>
    let pos := mkPosition (uint32 (len bytes)) msgOffset in
    let '(err, w) := writeBytes w (positionBytes pos) in
    match err with
    | Some _ => (err, w)
    | None =>
      (* Increment offset by the amount we have written. *)
      let w := add_offset w 8 in
      (* Write the message itself. *)
      let '(err, w) := w_seek w msgOffset in
      match err with
      | Some _ => (err, w)
      | None =>
        let bytes := bytes ++ nulBytes in
        let '(err, w) := writeBytes w bytes in
        match err with
        | Some _ => (err, w)
        | None =>
          (* Increment offset by the amount we have written. *)
          (None, add_offset w (len bytes))
        end
      end
    end
  end.

(** The msgid and the msgstr [writeAll] writes for a message: the
    contents of [b] at the two calls of [writeMessage].  ([append] on
    [msg.Ctxt] may also write past the end of that slice, into the array
    it shares; in a message as [Next] makes it, the bytes there are the
    ones written.) *)
Definition msgidBytes (msg : Message) : list byte :=
  let b := contents (Id msg) in
  let b :=
    match Ctxt msg with
    | Some ctxt => ctxt ++ eotBytes ++ b
    | None => b
    end in
  match IdPlural msg with
  | Some plural => b ++ nulBytes ++ plural
  | None => b
  end.

Definition msgstrBytes (msg : Message) : list byte :=
  match IdPlural msg with
  | None => contents (Str msg)
  | Some _ => Join (StrPlural msg) nulBytes
  end.

(** The loop of [writeAll], for [n] more messages from number [i] on,
    the next string going to [offset]; a nil message that comes without
    an error panics. *)
Fixpoint writeAll_loop (n : nat) (w : moWriter WS I) (h : moHeader)
    (i offset : Z) : outcome (option error * moWriter WS I) :=
  match n with
  | O => Returns (None, w)
  | S n =>
    '(msg, err, it) <- Next (iter w) ;;
    let w := mkWriter (writer w) it (w_offset w) in
    match err with
    | Some _ => Returns (err, w)
    | None =>
      match msg with
      | None => Panics
      | Some msg =>
        (* Write msgid. *)
        let b := msgidBytes msg in
        let '(err, w) :=
          writeMessage w (uint32 (IdTableOffset h + i * 8)) offset b in
        match err with
        | Some _ => Returns (err, w)
        | None =>
          (* +1 for the NUL char separator. *)
          let offset := uint32 (offset + uint32 (len b + 1)) in
          (* Write msgstr. *)
          let b := msgstrBytes msg in
          let '(err, w) :=
            writeMessage w (uint32 (StrTableOffset h + i * 8)) offset b in
          match err with
          | Some _ => Returns (err, w)
          | None =>
            let offset := uint32 (offset + uint32 (len b + 1)) in
            writeAll_loop n w h (uint32 (i + 1)) offset
          end
        end
      end
    end
  end.

(** [func (w *moWriter) writeAll() error] *)
Definition writeAll (w : moWriter WS I)
    : outcome (option error * moWriter WS I) :=
  let '(size, it) := Size (iter w) in
  let w := mkWriter (writer w) it (w_offset w) in
  let msgCount := uint32 size in
  (* Write header. *)
  let h := mkHeader msgCount 28 (uint32 (msgCount * 8 + 28)) 0 0 in
  let '(err, w) := writeHeader w h in
  match err with
  | Some _ => Returns (err, w)
  | None =>
    let offset := uint32 (msgCount * 16 + 28) in
    writeAll_loop (Z.to_nat msgCount) w h 0 offset
  end.

(** [func WriteMo(w io.WriteSeeker, iter Iterator) error] *)
Definition WriteMo (ws : WS) (it : I)
    : outcome (option error * moWriter WS I) :=
  writeAll (mkWriter ws it 0).

End Writer.

(** ** A file in memory

    The stream the tests read from and write to: a [bytes.Reader] over
    the data when read, and when written a file, which a write past its
    end extends with zero bytes.  [Seek] refuses a negative position and
    a [whence] other than 0, 1 and 2. *)

Record memFile : Type := mkMem {
  data : list byte;
  cursor : Z
}.

Definition mem_Seek (m : memFile) (off whence : Z)
    : Z * option error * memFile :=
  let abs :=
    if whence =? 0 then Some off
    else if whence =? 1 then Some (cursor m + off)
    else if whence =? 2 then Some (len (data m) + off)
    else None in
  match abs with
  | None => (0, Some (errors_New "Seek: invalid whence"), m)
  | Some abs =>
    if abs <? 0 then (0, Some (errors_New "Seek: negative position"), m)
    else (abs, None, mkMem (data m) abs)
  end.

(** [io.ReadFull] on the file, for [n > 0] bytes: [io.EOF] when no byte
    is left, [io.ErrUnexpectedEOF] when fewer than [n] are. *)
Definition mem_ReadFull (m : memFile) (n : Z)
    : list byte * option error * memFile :=
  let left := len (data m) - cursor m in
  if left <=? 0 then ([], Some io_EOF, m)
  else if left <? n then
    (skipn (Z.to_nat (cursor m)) (data m), Some io_ErrUnexpectedEOF,
     mkMem (data m) (len (data m)))
  else
    (firstn (Z.to_nat n) (skipn (Z.to_nat (cursor m)) (data m)), None,
     mkMem (data m) (cursor m + n)).

(** The data with [b] written at [off]. *)
Definition put (d : list byte) (off : Z) (b : list byte) : list byte :=
  let o := Z.to_nat off in
  firstn o (d ++ repeat Byte.x00 (o - length d))
  ++ b ++ skipn (o + length b) d.

Definition mem_Write (m : memFile) (b : list byte)
    : Z * option error * memFile :=
  (len b, None, mkMem (put (data m) (cursor m) b) (cursor m + len b)).

#[export] Instance memFile_ReadSeeker : ReadSeeker memFile := {
  Seek := mem_Seek;
  ReadFull := mem_ReadFull
}.

#[export] Instance memFile_WriteSeeker : WriteSeeker memFile := {
  wSeek := mem_Seek;
  Write := mem_Write
}.

(** The data [d] holds the bytes [b] at [off]. *)
Definition holds (d : list byte) (off : Z) (b : list byte) : Prop :=
  0 <= off /\ off + len b <= len d
  /\ forall j, (j < length b)%nat ->
       nth (Z.to_nat off + j) d Byte.x00 = nth j b Byte.x00.

(** The size of the msgid and msgstr of the messages in a MO file, each
    with its NUL. *)
Fixpoint strings_size (ms : list Message) : Z :=
  match ms with
  | [] => 0
  | m :: ms =>
    len (msgidBytes m) + 1 + (len (msgstrBytes m) + 1) + strings_size ms
  end.

(** The data holds, for the messages [ms] numbered from [i] in a file of
    [n] messages, the table entries and the strings, the first string at
    [off]. *)
Fixpoint laid_out (d : list byte) (n i off : Z) (ms : list Message) : Prop :=
  match ms with
  | [] => True
  | m :: ms =>
    let id := msgidBytes m in
    let str := msgstrBytes m in
    let off' := off + len id + 1 in
    holds d (28 + i * 8) (positionBytes (mkPosition (len id) off))
    /\ holds d off id
    /\ holds d (n * 8 + 28 + i * 8)
         (positionBytes (mkPosition (len str) off'))
    /\ holds d off' str
    /\ laid_out d n (i + 1) (off' + len str + 1) ms
  end.

(** A region that the writing of the messages from number [i] on, the
    next string going to [off], leaves alone. *)
Definition settled (n i off o k : Z) : Prop :=
  o + k <= 28 + i * 8
  \/ (n * 8 + 28 <= o /\ o + k <= n * 8 + 28 + i * 8)
  \/ (n * 16 + 28 <= o /\ o + k <= off).

(** The bytes at the start of a MO file. *)
Definition fileHeader (h : moHeader) : list byte :=
  PutUint32 LittleEndian littleEndian
  ++ (PutUint16 LittleEndian 0 ++ PutUint16 LittleEndian 0)
  ++ headerBytes h.

(** The offset the writer keeps is the position of the file. *)
Definition synced {I : Type} (w : moWriter memFile I) : Prop :=
  cursor (writer w) = w_offset w /\ 0 <= w_offset w < 2 ^ 33.

(** The stream stands where the reader believes it to. *)
Definition synced_r (r : moReader memFile) : Prop :=
  cursor (reader r) = offset r /\ 0 <= offset r < 2 ^ 33.

(** ** A small catalog for the examples *)

Definition exampleMessages : list Message :=
  [mkMessage None (Some (lit "mullusk")) None (Some (lit "bacon")) [] None;
   mkMessage (Some (lit "menu")) (Some (lit "Open")) None
     (Some (lit "Abrir")) [] None;
   mkMessage None (Some (lit "There is %s file"))
     (Some (lit "There are %s files")) None
     [lit "Hay %s fichero"; lit "Hay %s ficheros"] None].

Definition exampleReadMIMEHeader (b : list byte) : MIMEHeader * option error :=
  ([], Some io_EOF).

Definition exampleCatalog : Catalog :=
  fold_left (fun c m => snd (setMessage exampleReadMIMEHeader c m))
    exampleMessages NewCatalog.

(** The MO file [WriteMo] makes of it. *)
Definition exampleMo : list byte :=
  Eval vm_compute in
    match WriteMo (mkMem [] 0) (Iter exampleCatalog) with
    | Returns (_, w) => data (writer w)
    | Panics => []
    end.

End Gettext.

(** ** Classes and their integer values *)

Lemma class_of_int_BreakClass_int (c : BreakClass) :
  class_of_int (BreakClass_int c) = c.
Proof. destruct c; reflexivity. Qed.

Lemma BreakClass_int_inj (a b : BreakClass) :
  BreakClass_int a = BreakClass_int b -> a = b.
Proof.
  intros H.
  rewrite <- (class_of_int_BreakClass_int a), <- (class_of_int_BreakClass_int b).
  now rewrite H.
Qed.

Lemma BreakClass_int_range (c : BreakClass) : 0 <= BreakClass_int c <= 39.
Proof. destruct c; simpl; lia. Qed.

Lemma class_eqb_spec (a b : BreakClass) : reflect (a = b) (class_eqb a b).
Proof.
  unfold class_eqb.
  destruct (Z.eqb_spec (BreakClass_int a) (BreakClass_int b)) as [E | N].
  - left. now apply BreakClass_int_inj.
  - right. intros ->. now apply N.
Qed.

Lemma class_eqb_refl (a : BreakClass) : class_eqb a a = true.
Proof. unfold class_eqb. apply Z.eqb_refl. Qed.

Lemma class_eqb_neq (a b : BreakClass) : a <> b -> class_eqb a b = false.
Proof. intros N. now destruct (class_eqb_spec a b). Qed.

(** ** The pair table lookup *)

Lemma index_nth_error {A : Type} (d : A) (l : list A) (i : Z) (x : A) :
  0 <= i -> nth_error l (Z.to_nat i) = Some x -> index d l i = x /\ i < len l.
Proof.
  intros Hi H. unfold index, len. split.
  - now apply nth_error_nth.
  - assert (Z.to_nat i < length l)%nat by (apply nth_error_Some; congruence).
    lia.
Qed.

Lemma nth_error_in_range {A : Type} (l : list A) (i : Z) :
  0 <= i -> i < len l -> exists x, nth_error l (Z.to_nat i) = Some x.
Proof.
  intros Hi H. unfold len in H.
  destruct (nth_error l (Z.to_nat i)) as [x |] eqn:E; [now exists x |].
  apply nth_error_None in E. lia.
Qed.


(** The default table has [pairTableSize] rows of [pairTableSize]
    entries: a class resolved outside of it gets [BreakProhibited]. *)
Lemma pairTable_excluded (before after : BreakClass) :
  pairTableSize <= BreakClass_int before \/
  pairTableSize <= BreakClass_int after ->
  Action pairTable before after = BreakProhibited.
Proof.
  intros H. destruct before, after; try reflexivity;
    exfalso; unfold pairTableSize in H; simpl in H; lia.
Qed.

(** ** The default class resolver *)

Section DefaultResolver.

Variable Class : rune -> BreakClass.
Variables isMn isMc : rune -> bool.

(** C9. The default resolver applies the generic LB1 resolution to the
    raw class of a code point: AI, SG and XX become AL; CJ becomes NS; SA
    becomes CM for a nonspacing (Mn) or spacing combining (Mc) mark and AL
    otherwise; CB becomes ID; any other class is returned as it is. *)
Theorem classResolver_LB1 (r : rune) :
  (Class r = ClassAI \/ Class r = ClassSG \/ Class r = ClassXX ->
   classResolver Class isMn isMc r = ClassAL)
  /\ (Class r = ClassCJ -> classResolver Class isMn isMc r = ClassNS)
  /\ (Class r = ClassSA ->
      (isMn r = true \/ isMc r = true ->
       classResolver Class isMn isMc r = ClassCM)
      /\ (isMn r = false /\ isMc r = false ->
          classResolver Class isMn isMc r = ClassAL))
  /\ (Class r = ClassCB -> classResolver Class isMn isMc r = ClassID)
  /\ (Class r <> ClassAI -> Class r <> ClassSG -> Class r <> ClassXX ->
      Class r <> ClassCJ -> Class r <> ClassSA -> Class r <> ClassCB ->
      classResolver Class isMn isMc r = Class r).
Proof.
  unfold classResolver. split; [| split; [| split; [| split]]].
  - intros [H | [H | H]]; now rewrite H.
  - intros H. now rewrite H.
  - intros H. rewrite H. split.
    + intros [Hm | Hm]; rewrite Hm; [reflexivity | now rewrite orb_true_r].
    + intros [Hn Hc]. now rewrite Hn, Hc.
  - intros H. now rewrite H.
  - intros; destruct (Class r); congruence.
Qed.

End DefaultResolver.

(** ** One call of [nextClass] *)

Lemma nextClass_frozen (s : Scanner) (e : error) :
  err s = Some e -> nextClass s = (ClassOP, Some e, s).
Proof. intros H. unfold nextClass. now rewrite H. Qed.

Lemma nextClass_exhausted (s : Scanner) :
  err s = None -> (length (runes s) <= pos s)%nat ->
  nextClass s = (ClassOP, Some io_EOF, set_err s (Some io_EOF)).
Proof.
  intros H Hp. unfold nextClass. rewrite H.
  apply Nat.leb_le in Hp. now rewrite Hp.
Qed.

(** Where a rune is left, [nextClass] reports no error, consumes the
    rune and touches nothing else. *)
Lemma nextClass_read (s : Scanner) :
  err s = None -> (pos s < length (runes s))%nat ->
  exists cls, nextClass s = (cls, None, set_pos s (pos s + 1)).
Proof.
  intros H Hp. unfold nextClass. rewrite H.
  apply Nat.leb_gt in Hp. rewrite Hp. eexists. reflexivity.
Qed.

(** Past start of text only NL is rewritten. *)
Lemma nextClass_later (s : Scanner) :
  err s = None -> (pos s < length (runes s))%nat -> pos s <> 0%nat ->
  nextClass s =
    (match Resolver s (nth (pos s) (runes s) 0) with
     | ClassNL => ClassBK
     | c => c
     end, None, set_pos s (pos s + 1)).
Proof.
  intros H Hp H0. unfold nextClass. rewrite H.
  apply Nat.leb_gt in Hp. rewrite Hp.
  apply Nat.eqb_neq in H0. rewrite H0.
  now destruct (Resolver s (nth (pos s) (runes s) 0)).
Qed.

(** C10. Where a rune is left to read: a rune of class SP read at start
    of text is reported as WJ, and the first call of [Next] records WJ as
    the class before; a rune of class SP read at any later position keeps
    the class SP; a rune of class NL is reported as BK at every position. *)
Theorem nextClass_start_of_text (s : Scanner) :
  err s = None -> (pos s < length (runes s))%nat ->
  (Resolver s (nth (pos s) (runes s) 0) = ClassSP ->
   (pos s = 0%nat ->
    fst (fst (nextClass s)) = ClassWJ /\ prevClass (snd (Next s)) = ClassWJ)
   /\ (pos s <> 0%nat -> fst (fst (nextClass s)) = ClassSP))
  /\ (Resolver s (nth (pos s) (runes s) 0) = ClassNL ->
      fst (fst (nextClass s)) = ClassBK).
Proof.
  intros H Hp. split.
  - intros Hsp. split.
    + intros H0. unfold Next, nextClass. rewrite H.
      apply Nat.leb_gt in Hp. rewrite Hp, Hsp, H0. simpl. auto.
    + intros H0. rewrite (nextClass_later s H Hp H0), Hsp. reflexivity.
  - intros Hnl. unfold nextClass. rewrite H.
    apply Nat.leb_gt in Hp. rewrite Hp, Hnl. reflexivity.
Qed.

Lemma nextClass_start_of_text_witness :
  (fst (fst (nextClass (exampleScanner [0x20; 0x61]))) = ClassWJ
   /\ prevClass (snd (Next (exampleScanner [0x20; 0x61]))) = ClassWJ)
  /\ fst (fst (nextClass (after 1 (exampleScanner [0x61; 0x20])))) = ClassSP
  /\ fst (fst (nextClass (after 1 (exampleScanner [0x61; 0x85])))) = ClassBK.
Proof.
  split; [| split].
  - apply (nextClass_start_of_text (exampleScanner [0x20; 0x61]));
      [reflexivity | simpl; lia | reflexivity | reflexivity].
  - apply (nextClass_start_of_text (after 1 (exampleScanner [0x61; 0x20])));
      [reflexivity | simpl; lia | reflexivity | simpl; lia].
  - apply (nextClass_start_of_text (after 1 (exampleScanner [0x61; 0x85])));
      [reflexivity | simpl; lia | reflexivity].
Defined.

(** ** One call of [Next] *)

(** [Next] never touches the configuration or the input. *)
Lemma Next_frame (s : Scanner) :
  Resolver (snd (Next s)) = Resolver s
  /\ Table (snd (Next s)) = Table s
  /\ runes (snd (Next s)) = runes s.
Proof.
  unfold Next, nextClass.
  destruct (pos s =? 0)%nat, (err s), (length (runes s) <=? pos s)%nat;
    simpl; auto; next_cases; simpl; auto.
Qed.

(** With the error set, [Next] repeats it and leaves the scanner alone. *)
Lemma Next_frozen_state (s : Scanner) (e : error) :
  err s = Some e -> Next s = (mkResult (pos s) BreakMandatory (Some e), s).
Proof.
  intros H. unfold Next. rewrite (nextClass_frozen s e H).
  destruct (pos s =? 0)%nat eqn:E; [| reflexivity].
  apply Nat.eqb_eq in E. now rewrite E.
Qed.

(** At the end of the input, [Next] sets the error to [io.EOF]. *)
Lemma Next_exhausted (s : Scanner) :
  err s = None -> (length (runes s) <= pos s)%nat ->
  Next s = (mkResult (pos s) BreakMandatory (Some io_EOF),
            set_err s (Some io_EOF)).
Proof.
  intros H Hp. unfold Next. rewrite (nextClass_exhausted s H Hp).
  destruct (pos s =? 0)%nat eqn:E; [| reflexivity].
  apply Nat.eqb_eq in E. now rewrite E.
Qed.

(** Where a rune is left, [Next] reports no error and consumes it. *)
Lemma Next_read (s : Scanner) :
  err s = None -> (pos s < length (runes s))%nat ->
  r_err (fst (Next s)) = None
  /\ r_pos (fst (Next s)) = pos s
  /\ pos (snd (Next s)) = S (pos s)
  /\ err (snd (Next s)) = None.
Proof.
  intros H Hp. unfold Next.
  destruct (nextClass_read s H Hp) as [cls ->].
  destruct (pos s =? 0)%nat eqn:E.
  - apply Nat.eqb_eq in E. simpl. rewrite E, H. auto.
  - next_cases; simpl; rewrite ?H, ?Nat.add_1_r; auto.
Qed.

Lemma Next_error_iff (s : Scanner) :
  r_err (fst (Next s)) <> None <->
  err s <> None \/ (length (runes s) <= pos s)%nat.
Proof.
  destruct (err s) as [e |] eqn:H.
  - rewrite (Next_frozen_state s e H). simpl. split; [left |]; congruence.
  - destruct (Nat.le_gt_cases (length (runes s)) (pos s)) as [Hp | Hp].
    + rewrite (Next_exhausted s H Hp). simpl. split; [now right | congruence].
    + destruct (Next_read s H Hp) as [-> _]. split; [congruence |].
      intros [N | N]; [congruence | lia].
Qed.

(** A call that reports an error reports [BreakMandatory] at the current
    position, and leaves a scanner on which [Next] does the same again. *)
Lemma Next_error (s : Scanner) :
  r_err (fst (Next s)) <> None ->
  fst (Next s) = mkResult (pos s) BreakMandatory (r_err (fst (Next s)))
  /\ Next (snd (Next s)) = Next s.
Proof.
  intros N. apply Next_error_iff in N.
  destruct (err s) as [e |] eqn:H.
  - rewrite (Next_frozen_state s e H). simpl. split; [reflexivity |].
    apply (Next_frozen_state s e H).
  - destruct N as [N | Hp]; [congruence |].
    rewrite (Next_exhausted s H Hp). simpl. split; [reflexivity |].
    apply (Next_frozen_state (set_err s (Some io_EOF)) io_EOF). reflexivity.
Qed.

Lemma after_S (n : nat) (s : Scanner) :
  after (S n) s = snd (Next (after n s)).
Proof.
  revert s. induction n as [| n IH]; intros s; [reflexivity |].
  change (after (S (S n)) s) with (after (S n) (snd (Next s))).
  now rewrite IH.
Qed.

Lemma after_fixed (s : Scanner) (k : nat) :
  snd (Next s) = s -> after k s = s.
Proof.
  intros H. induction k as [| k IH]; [reflexivity |].
  simpl. now rewrite H.
Qed.

(** C7. Termination is idempotent.  When a call of [Next] reports an
    error, it reports the position reached and [BreakMandatory] with it,
    and every later call, however many calls were made in between,
    returns the same triple and leaves the scanner as that call left
    it. *)
Theorem Next_idempotent_at_end (s : Scanner) (k : nat) :
  r_err (fst (Next s)) <> None ->
  fst (Next s) = mkResult (pos s) BreakMandatory (r_err (fst (Next s)))
  /\ after k (snd (Next s)) = snd (Next s)
  /\ Next (after k (snd (Next s))) = Next s.
Proof.
  intros N. destruct (Next_error s N) as [Hres Hfix].
  assert (Hk : after k (snd (Next s)) = snd (Next s))
    by (apply after_fixed; now rewrite Hfix).
  repeat split; [exact Hres | exact Hk | now rewrite Hk].
Qed.

Lemma Next_idempotent_at_end_witness :
  fst (Next (after 2 (exampleScanner [0x61; 0x62])))
  = mkResult 2 BreakMandatory (Some io_EOF)
  /\ after 5 (after 3 (exampleScanner [0x61; 0x62]))
     = after 3 (exampleScanner [0x61; 0x62])
  /\ Next (after 5 (after 3 (exampleScanner [0x61; 0x62])))
     = Next (after 2 (exampleScanner [0x61; 0x62])).
Proof.
  apply (Next_idempotent_at_end (after 2 (exampleScanner [0x61; 0x62])) 5).
  simpl. discriminate.
Defined.

(** C2, as the code has it.  On a call that is not the first and finds a
    rune to read, when the class before is BK, or is CR and the rune's
    class is not LF, [Next] returns by a bare [return] before any action
    is assigned: the action reported is the zero value [BreakDirect], no
    error is reported, the rune is consumed, and the class before is left
    as it was. *)
Theorem Next_after_hard_break (s : Scanner) :
  pos s <> 0%nat -> err s = None -> (pos s < length (runes s))%nat ->
  prevClass s = ClassBK \/
  (prevClass s = ClassCR /\
   Resolver s (nth (pos s) (runes s) 0) <> ClassLF) ->
  Next s = (mkResult (pos s) BreakDirect None, set_pos s (pos s + 1))
  /\ prevClass (snd (Next s)) = prevClass s.
Proof.
  intros H0 H Hp Hprev.
  assert (E : Next s = (mkResult (pos s) BreakDirect None,
                        set_pos s (pos s + 1))).
  { unfold Next. rewrite (nextClass_later s H Hp H0).
    apply Nat.eqb_neq in H0. rewrite H0. cbn [prevClass set_pos].
    destruct Hprev as [-> | [-> Hlf]]; [reflexivity |].
    destruct (Resolver s (nth (pos s) (runes s) 0)); try reflexivity.
    congruence. }
  rewrite E. split; reflexivity.
Qed.

Lemma Next_after_hard_break_witness :
  Next (after 1 (exampleScanner [0x0A; 0x61]))
  = (mkResult 1 BreakDirect None,
     set_pos (after 1 (exampleScanner [0x0A; 0x61])) 2)
  /\ prevClass (snd (Next (after 1 (exampleScanner [0x0A; 0x61]))))
     = ClassBK.
Proof.
  apply (Next_after_hard_break (after 1 (exampleScanner [0x0A; 0x61])));
    [simpl; lia | reflexivity | simpl; lia | left; reflexivity].
Defined.

(** C2 fails as stated.  In the input LF, "a" the LF at start of text is
    recorded as BK; the call that reads "a" then reports [BreakDirect],
    not [BreakProhibited]. *)
Lemma Next_after_hard_break_not_prohibited :
  prevClass (after 1 (exampleScanner [0x0A; 0x61])) = ClassBK
  /\ r_action (nth_call 1 (exampleScanner [0x0A; 0x61])) = BreakDirect
  /\ r_action (nth_call 1 (exampleScanner [0x0A; 0x61])) <> BreakProhibited.
Proof. repeat split. discriminate. Qed.

(** ** Invariants of the scanner *)

(** The class before is never SP: at start of text SP is read as WJ, and
    later the SP case returns without recording it. *)
Lemma Next_prev_not_SP (s : Scanner) :
  prevClass s <> ClassSP -> prevClass (snd (Next s)) <> ClassSP.
Proof.
  intros H. unfold Next, nextClass.
  destruct (pos s =? 0)%nat, (err s), (length (runes s) <=? pos s)%nat;
    try exact H.
  - destruct (Resolver s (nth (pos s) (runes s) 0)); simpl; discriminate.
  - cbn [prevClass set_pos].
    destruct (negb (negb (class_eqb (prevClass s) ClassBK) && _));
      [exact H |].
    unfold resolve. rewrite (class_eqb_neq _ _ H).
    destruct (Resolver s (nth (pos s) (runes s) 0)); cbn -[Action];
      try discriminate; try exact H;
      match goal with
      | |- context [Action ?t ?b ?a] => destruct (Action t b a)
      end; simpl; try discriminate; exact H.
Qed.

(** With a class before other than SP, what [Next] reports is a direct
    break, no break, or a mandatory break. *)
Lemma Next_action_resolved (s : Scanner) :
  prevClass s <> ClassSP ->
  r_action (fst (Next s)) = BreakDirect
  \/ r_action (fst (Next s)) = BreakProhibited
  \/ r_action (fst (Next s)) = BreakMandatory.
Proof.
  intros H. unfold Next, nextClass.
  destruct (pos s =? 0)%nat, (err s), (length (runes s) <=? pos s)%nat;
    simpl; auto.
  destruct (negb (negb (class_eqb (prevClass s) ClassBK) && _));
    simpl; auto.
  unfold resolve. rewrite (class_eqb_neq _ _ H).
  destruct (Resolver s (nth (pos s) (runes s) 0)); cbn -[Action]; auto;
    match goal with
    | |- context [Action ?t ?b ?a] => destruct (Action t b a)
    end; simpl; auto.
Qed.

Lemma after_prev_not_SP (R : ClassResolver) (T : PairTable) (r : list rune)
    (n : nat) :
  prevClass (after n (newScannerWith R T r)) <> ClassSP.
Proof.
  induction n as [| n IH]; [discriminate |].
  rewrite after_S. now apply Next_prev_not_SP.
Qed.

(** C4. For every resolver, pair table and input, after any number of
    calls the class before is not SP, so no table lookup sees SP before;
    and every call of [Next] reports [BreakDirect], [BreakProhibited] or
    [BreakMandatory], never [BreakIndirect], [BreakCombiningIndirect] or
    [BreakCombiningProhibited]. *)
Theorem Next_never_indirect (R : ClassResolver) (T : PairTable)
    (r : list rune) (n : nat) :
  prevClass (after n (newScannerWith R T r)) <> ClassSP
  /\ (r_action (nth_call n (newScannerWith R T r)) = BreakDirect
      \/ r_action (nth_call n (newScannerWith R T r)) = BreakProhibited
      \/ r_action (nth_call n (newScannerWith R T r)) = BreakMandatory)
  /\ r_action (nth_call n (newScannerWith R T r)) <> BreakIndirect
  /\ r_action (nth_call n (newScannerWith R T r)) <> BreakCombiningIndirect
  /\ r_action (nth_call n (newScannerWith R T r))
     <> BreakCombiningProhibited.
Proof.
  pose proof (after_prev_not_SP R T r n) as H.
  pose proof (Next_action_resolved _ H) as Hact.
  unfold nth_call.
  split; [exact H | split; [exact Hact |]].
  repeat split; intros E; rewrite E in Hact;
    destruct Hact as [A | [A | A]]; discriminate.
Qed.

(** While runes are left the scanner has consumed one per call, carries no
    error and still holds its configuration and input. *)
Lemma after_reading (R : ClassResolver) (T : PairTable) (r : list rune)
    (n : nat) :
  (n <= length r)%nat ->
  pos (after n (newScannerWith R T r)) = n
  /\ err (after n (newScannerWith R T r)) = None
  /\ runes (after n (newScannerWith R T r)) = r
  /\ Resolver (after n (newScannerWith R T r)) = R
  /\ Table (after n (newScannerWith R T r)) = T.
Proof.
  induction n as [| n IH]; intros Hn; [simpl; auto |].
  destruct IH as (Hp & He & Hr & HR & HT); [lia |].
  rewrite after_S.
  destruct (Next_frame (after n (newScannerWith R T r))) as (FR & FT & Fr).
  destruct (Next_read (after n (newScannerWith R T r)) He)
    as (_ & _ & Hp' & He'); [rewrite Hp, Hr; lia |].
  rewrite Hp', He', FR, FT, Fr, Hp. auto.
Qed.

Lemma Next_eof_only (s : Scanner) : eof_only s -> eof_only (snd (Next s)).
Proof.
  intros [H | [H Hp]].
  - destruct (Nat.le_gt_cases (length (runes s)) (pos s)) as [Hp | Hp].
    + rewrite (Next_exhausted s H Hp). right. simpl. auto.
    + destruct (Next_read s H Hp) as (_ & _ & _ & He). now left.
  - rewrite (Next_frozen_state s io_EOF H). right. simpl. auto.
Qed.

Lemma after_eof_only (R : ClassResolver) (T : PairTable) (r : list rune)
    (n : nat) :
  eof_only (after n (newScannerWith R T r)).
Proof.
  induction n as [| n IH]; [now left |].
  rewrite after_S. now apply Next_eof_only.
Qed.

(** [getActions] returns once it has read the runes that are left, with
    one action for each of them and [BreakMandatory] at the end. *)
Lemma getActions_loop_total (fuel : nat) :
  forall (s : Scanner) (actions : list BreakAction),
    err s = None -> (pos s <= length (runes s))%nat ->
    (length (runes s) - pos s < fuel)%nat ->
    exists acts,
      getActions_loop fuel s actions
      = Some (actions ++ acts ++ [BreakMandatory], length (runes s))
      /\ length acts = (length (runes s) - pos s)%nat.
Proof.
  induction fuel as [| fuel IH]; intros s actions He Hle Hfuel; [lia |].
  simpl. destruct (Next s) as [res s'] eqn:E.
  destruct (Nat.eq_dec (pos s) (length (runes s))) as [Hend | Hmore].
  - rewrite (Next_exhausted s He) in E by lia.
    injection E as <- <-. simpl. exists []. rewrite Hend, Nat.sub_diag. auto.
  - destruct (Next_read s He) as (Hre & _ & Hp' & He'); [lia |].
    destruct (Next_frame s) as (_ & _ & Hr').
    rewrite E in Hre, Hp', He', Hr'. simpl in Hre, Hp', He', Hr'.
    rewrite Hre.
    destruct (IH s' (actions ++ [r_action res]) He') as (acts & Hget & Hlen);
      [rewrite Hp', Hr'; lia | rewrite Hp', Hr'; lia |].
    exists (r_action res :: acts). rewrite Hget, Hr', <- app_assoc.
    split; [reflexivity |].
    simpl. rewrite Hlen, Hp', Hr'. lia.
Qed.

(** C6. After any number of calls on any input, [Next] reports an error
    exactly when the input is exhausted; the error is then [io.EOF] and
    nothing else, and the action reported with it is [BreakMandatory].
    [getActions] returns after one call more than there are runes, and
    the last action it collected is [BreakMandatory]. *)
Theorem Next_error_is_EOF (R : ClassResolver) (T : PairTable)
    (r : list rune) (n : nat) :
  (r_err (nth_call n (newScannerWith R T r)) <> None <->
   (length r <= pos (after n (newScannerWith R T r)))%nat)
  /\ (r_err (nth_call n (newScannerWith R T r)) = None
      \/ r_err (nth_call n (newScannerWith R T r)) = Some io_EOF)
  /\ (r_err (nth_call n (newScannerWith R T r)) = Some io_EOF ->
      r_action (nth_call n (newScannerWith R T r)) = BreakMandatory)
  /\ exists actions,
       getActions (S (length r)) (newScannerWith R T r)
       = Some (actions, length r)
       /\ length actions = S (length r)
       /\ last actions BreakDirect = BreakMandatory.
Proof.
  unfold nth_call. set (s := after n (newScannerWith R T r)).
  assert (Hr : runes s = r).
  { unfold s. clear s. induction n as [| n IH]; [reflexivity |].
    rewrite after_S. now rewrite (proj2 (proj2 (Next_frame _))). }
  pose proof (after_eof_only R T r n) as Hinv. fold s in Hinv.
  split; [| split; [| split]].
  - rewrite Next_error_iff, Hr.
    destruct Hinv as [H | [H Hp]]; rewrite H; [| rewrite Hr in Hp].
    + split; [intros [N | N]; [congruence | exact N] | now right].
    + split; [intros _; exact Hp | intros _; left; congruence].
  - destruct Hinv as [H | [H Hp]].
    + destruct (Nat.le_gt_cases (length (runes s)) (pos s)) as [Hp | Hp].
      * rewrite (Next_exhausted s H Hp). now right.
      * destruct (Next_read s H Hp) as [-> _]. now left.
    + rewrite (Next_frozen_state s io_EOF H). now right.
  - intros E.
    assert (N : r_err (fst (Next s)) <> None) by congruence.
    destruct (Next_error s N) as [-> _]. reflexivity.
  - destruct (getActions_loop_total (S (length r)) (newScannerWith R T r) [])
      as (acts & Hget & Hlen); [reflexivity | simpl; lia | simpl; lia |].
    simpl in Hget, Hlen. exists (acts ++ [BreakMandatory]).
    split; [exact Hget | split].
    + rewrite length_app, Hlen. simpl. lia.
    + apply last_last.
Qed.

(** ** Combining marks (LB9) *)

(** One combining mark, read past start of text, leaves the class before
    as it is when the table says [BreakCombiningIndirect] for the pair, or
    when the class before is BK or CR. *)
Lemma Next_CM_keeps_before (s : Scanner) :
  pos s <> 0%nat -> err s = None -> (pos s < length (runes s))%nat ->
  Resolver s (nth (pos s) (runes s) 0) = ClassCM ->
  prevClass s <> ClassSP ->
  Action (Table s) (prevClass s) ClassCM = BreakCombiningIndirect
  \/ prevClass s = ClassBK \/ prevClass s = ClassCR ->
  prevClass (snd (Next s)) = prevClass s.
Proof.
  intros H0 He Hp Hcm Hsp Hx.
  unfold Next. rewrite (nextClass_later s He Hp H0), Hcm.
  apply Nat.eqb_neq in H0. rewrite H0. cbn [prevClass set_pos Table].
  destruct (negb (negb (class_eqb (prevClass s) ClassBK) && _)) eqn:G;
    [reflexivity |].
  destruct Hx as [Hci | [Hbk | Hcr]].
  - rewrite Hci. unfold resolve. now rewrite (class_eqb_neq _ _ Hsp).
  - rewrite Hbk in G. discriminate.
  - rewrite Hcr in G. discriminate.
Qed.

(** In the default table the entry for a combining mark after a paired
    class is [BreakCombiningIndirect], except after OP and after ZW. *)
Lemma pairTable_CM_column (X : BreakClass) :
  BreakClass_int X < pairTableSize -> X <> ClassOP -> X <> ClassZW ->
  Action pairTable X ClassCM = BreakCombiningIndirect.
Proof.
  intros Hx Hop Hzw. destruct X; try reflexivity; try congruence;
    unfold pairTableSize in Hx; simpl in Hx; lia.
Qed.




(** After OP the default table gives [BreakCombiningProhibited] for CM,
    and [Next] then records the mark as well, the class before not being
    SP: in the input "(", U+0301, "a" the class before used for "a" is
    CM. *)
Lemma LB9_after_OP :
  prevClass (after 1 (exampleScanner [0x28; 0x0301; 0x61])) = ClassOP
  /\ Action pairTable ClassOP ClassCM = BreakCombiningProhibited
  /\ prevClass (after 2 (exampleScanner [0x28; 0x0301; 0x61])) = ClassCM.
Proof. repeat split. Qed.

(** ** The default scanner on the sample texts *)

Section DefaultScanner.

Variable Class : rune -> BreakClass.
Variables isMn isMc : rune -> bool.

(** C1 at the input "a b", on the code.  With the three runes classified
    AL, SP, AL the default scanner reports [BreakProhibited] for the "b"
    after the space, where space transparency asks for [BreakIndirect]:
    the SP case of [Next] leaves the class before at AL, so the test for
    SP made when the table says [BreakIndirect] fails. *)
Theorem a_space_b_actions :
  Class 0x61 = ClassAL -> Class 0x20 = ClassSP -> Class 0x62 = ClassAL ->
  getActions 4 (NewScanner Class isMn isMc [0x61; 0x20; 0x62])
  = Some ([BreakProhibited; BreakProhibited; BreakProhibited;
           BreakMandatory], 3%nat)
  /\ Action pairTable ClassAL ClassAL = BreakIndirect.
Proof.
  intros Ha Hsp Hb. split; [| reflexivity].
  unfold getActions, NewScanner, newScannerWith.
  cbn -[Action pairTable]. unfold classResolver.
  rewrite Ha. cbn -[Action pairTable]. rewrite Hsp.
  cbn -[Action pairTable]. rewrite Hb. reflexivity.
Qed.


End DefaultScanner.

Lemma a_space_b_actions_witness :
  getActions 4 (exampleScanner [0x61; 0x20; 0x62])
  = Some ([BreakProhibited; BreakProhibited; BreakProhibited;
           BreakMandatory], 3%nat)
  /\ Action pairTable ClassAL ClassAL = BreakIndirect.
Proof.
  apply (a_space_b_actions exampleClass exampleMn exampleMc); reflexivity.
Defined.


(** ** The scanner as a fold over classes *)

Lemma set_prevClass_same (s : Scanner) : set_prevClass s (prevClass s) = s.
Proof. now destruct s. Qed.

(** A call of [Next] past the first one, with a rune to read, is one
    [transition]. *)
Lemma Next_transition (s : Scanner) :
  pos s <> 0%nat -> err s = None -> (pos s < length (runes s))%nat ->
  Next s =
    (mkResult (pos s)
       (fst (transition (Table s) (prevClass s)
               (later_class (Resolver s (nth (pos s) (runes s) 0)))))
       None,
     set_prevClass (set_pos s (pos s + 1))
       (snd (transition (Table s) (prevClass s)
               (later_class (Resolver s (nth (pos s) (runes s) 0)))))).
Proof.
  intros H0 He Hp.
  assert (E : nextClass s
              = (later_class (Resolver s (nth (pos s) (runes s) 0)), None,
                 set_pos s (pos s + 1)))
    by (rewrite (nextClass_later s He Hp H0);
        now destruct (Resolver s (nth (pos s) (runes s) 0))).
  unfold Next. rewrite E.
  apply Nat.eqb_neq in H0. rewrite H0.
  set (cls := later_class (Resolver s (nth (pos s) (runes s) 0))).
  set (s1 := set_pos s (pos s + 1)).
  change (prevClass s) with (prevClass s1). change (Table s) with (Table s1).
  unfold transition.
  destruct (negb (negb (class_eqb (prevClass s1) ClassBK) && _)).
  - cbn [fst snd]. now rewrite set_prevClass_same.
  - destruct cls; cbn [fst snd]; try reflexivity;
      try (now rewrite set_prevClass_same);
      destruct (resolve (prevClass s1) _) as [a [|]]; cbn [fst snd];
      try reflexivity; now rewrite set_prevClass_same.
Qed.

Lemma skipn_nth {A : Type} (d : A) (l : list A) (n : nat) :
  (n < length l)%nat -> skipn n l = nth n l d :: skipn (S n) l.
Proof.
  revert n. induction l as [| x l IH]; intros n Hn; [simpl in Hn; lia |].
  destruct n as [| n]; [reflexivity |].
  simpl in Hn. change (skipn n l = nth n l d :: skipn (S n) l).
  apply IH. lia.
Qed.

(** The first call on a non-empty input: no break before the first rune,
    whose class is recorded. *)
Lemma Next_first (R : ClassResolver) (T : PairTable) (r0 : rune)
    (rest : list rune) :
  Next (newScannerWith R T (r0 :: rest))
  = (mkResult 0 BreakProhibited None,
     mkScanner R T (r0 :: rest) 1 (sot_class (R r0)) None).
Proof.
  unfold Next, nextClass, newScannerWith. simpl.
  now destruct (R r0).
Qed.

(** From any call past the first one on, [getActions] collects what
    [scan] computes from the classes of the runes left, then the
    mandatory break at the end. *)
Lemma getActions_loop_scan (fuel : nat) :
  forall (s : Scanner) (actions : list BreakAction),
    pos s <> 0%nat -> err s = None -> (pos s <= length (runes s))%nat ->
    (length (runes s) - pos s < fuel)%nat ->
    getActions_loop fuel s actions
    = Some (actions
            ++ fst (scan (Table s) (prevClass s)
                      (map (fun r => later_class (Resolver s r))
                         (skipn (pos s) (runes s))))
            ++ [BreakMandatory], length (runes s)).
Proof.
  induction fuel as [| fuel IH]; intros s actions H0 He Hle Hfuel; [lia |].
  destruct (Nat.eq_dec (pos s) (length (runes s))) as [Hend | Hmore].
  - rewrite skipn_all2 by lia. cbn [getActions_loop map scan fst].
    rewrite (Next_exhausted s He) by lia. cbn [r_err r_action r_pos].
    now rewrite Hend.
  - assert (Hp : (pos s < length (runes s))%nat) by lia.
    rewrite (@skipn_nth rune 0 (runes s) (pos s) Hp).
    cbn [getActions_loop map scan].
    rewrite (Next_transition s H0 He Hp).
    cbn [r_err r_action].
    destruct (transition (Table s) (prevClass s)
                (later_class (Resolver s (nth (pos s) (runes s) 0))))
      as [a p] eqn:Etr.
    cbn [fst snd].
    rewrite IH; cbn [pos runes err Table Resolver prevClass set_pos
                       set_prevClass]; try lia; try assumption.
    rewrite Nat.add_1_r.
    destruct (scan (Table s) p _) as [acts q]. cbn [fst].
    now rewrite <- app_assoc.
Qed.

(** The loop of [getActions] on a fresh scanner, by [scan]. *)
Lemma getActions_loop_fresh (R : ClassResolver) (T : PairTable) (r0 : rune)
    (rest : list rune) :
  getActions_loop (S (S (length rest))) (newScannerWith R T (r0 :: rest)) []
  = Some (BreakProhibited
          :: fst (scan T (sot_class (R r0))
                    (map (fun r => later_class (R r)) rest))
          ++ [BreakMandatory], S (length rest)).
Proof.
  change (getActions_loop (S (S (length rest)))
            (newScannerWith R T (r0 :: rest)) [])
    with (let '(r, s) := Next (newScannerWith R T (r0 :: rest)) in
          match r_err r with
          | Some _ => Some ([] ++ [r_action r], r_pos r)
          | None => getActions_loop (S (length rest)) s ([] ++ [r_action r])
          end).
  rewrite Next_first. cbn [r_err r_action app].
  rewrite getActions_loop_scan; cbn [pos runes err];
    try (simpl length; lia); reflexivity.
Qed.

(** X1. The actions reported for a non-empty input are those of a fold:
    [BreakProhibited] for the first rune, then the [transition] of each
    later rune's class from the class before, then [BreakMandatory] at
    the end of the input. *)
Theorem getActions_is_scan (R : ClassResolver) (T : PairTable) (r0 : rune)
    (rest : list rune) :
  getActions (S (S (length rest))) (newScannerWith R T (r0 :: rest))
  = Some (BreakProhibited
          :: fst (scan T (sot_class (R r0))
                    (map (fun r => later_class (R r)) rest))
          ++ [BreakMandatory], S (length rest)).
Proof.
  unfold getActions. apply getActions_loop_fresh.
Qed.

(** ** Positions and the number of calls *)

Lemma after_state (R : ClassResolver) (T : PairTable) (r : list rune)
    (n : nat) :
  runes (after n (newScannerWith R T r)) = r
  /\ pos (after n (newScannerWith R T r)) = Nat.min n (length r)
  /\ ((n <= length r)%nat -> err (after n (newScannerWith R T r)) = None)
  /\ ((length r < n)%nat ->
      err (after n (newScannerWith R T r)) = Some io_EOF).
Proof.
  induction n as [| n (Hr & Hp & Hnone & Heof)].
  - simpl. repeat split; auto. intros H. lia.
  - rewrite after_S. set (s := after n (newScannerWith R T r)) in *.
    destruct (Next_frame s) as (_ & _ & Fr).
    split; [now rewrite Fr |].
    destruct (Nat.lt_trichotomy n (length r)) as [Hlt | [Heq | Hgt]].
    + destruct (Next_read s) as (_ & _ & Hp' & He');
        [apply Hnone; lia | rewrite Hp, Hr; lia |].
      rewrite Hp', He', Hp. repeat split; auto; intros; lia.
    + rewrite (Next_exhausted s) by (try apply Hnone; rewrite ?Hp, ?Hr; lia).
      cbn [pos err set_err snd fst r_pos r_err]. rewrite Hp.
      repeat split; auto; intros; lia.
    + rewrite (Next_frozen_state s io_EOF) by (apply Heof; lia).
      cbn [pos err snd]. rewrite Hp.
      split; [lia | split; [intros; lia | intros _; apply Heof; lia]].
Qed.

(** X2. The positions reported count the runes: call number [n] (from 0)
    reports position [n] and no error while [n] is less than the number
    of runes; every call from number [len(runes)] on reports the position
    [len(runes)] with an error.  So the calls that report no error are as
    many as the runes. *)
Theorem Next_positions (R : ClassResolver) (T : PairTable) (r : list rune)
    (n : nat) :
  r_pos (nth_call n (newScannerWith R T r)) = Nat.min n (length r)
  /\ (r_err (nth_call n (newScannerWith R T r)) = None <->
      (n < length r)%nat).
Proof.
  unfold nth_call.
  destruct (after_state R T r n) as (Hr & Hp & Hnone & Heof).
  set (s := after n (newScannerWith R T r)) in *.
  destruct (Nat.lt_trichotomy n (length r)) as [Hlt | [Heq | Hgt]].
  - destruct (Next_read s) as (He & Hpos & _);
      [apply Hnone; lia | rewrite Hp, Hr; lia |].
    rewrite He, Hpos, Hp. split; [reflexivity | tauto].
  - rewrite (Next_exhausted s) by (try apply Hnone; rewrite ?Hp, ?Hr; lia).
    cbn [pos err set_err snd fst r_pos r_err]. rewrite Hp. split; [reflexivity |].
    split; [discriminate | lia].
  - rewrite (Next_frozen_state s io_EOF) by (apply Heof; lia).
    cbn [pos err set_err snd fst r_pos r_err]. rewrite Hp. split; [reflexivity |].
    split; [discriminate | lia].
Qed.

(** ** Spaces *)

Lemma scan_app (T : PairTable) (prev : BreakClass) (a b : list BreakClass) :
  scan T prev (a ++ b)
  = (fst (scan T prev a) ++ fst (scan T (snd (scan T prev a)) b),
     snd (scan T (snd (scan T prev a)) b)).
Proof.
  revert prev. induction a as [| c a IH]; intros prev.
  - simpl. now destruct (scan T prev b).
  - simpl. destruct (transition T prev c) as [x p].
    rewrite IH. destruct (scan T p a) as [xs q]. simpl.
    now destruct (scan T q b).
Qed.

Lemma scan_length (T : PairTable) (prev : BreakClass)
    (classes : list BreakClass) :
  length (fst (scan T prev classes)) = length classes.
Proof.
  revert prev. induction classes as [| c cs IH]; intros prev; [reflexivity |].
  simpl. destruct (transition T prev c) as [a p].
  specialize (IH p). destruct (scan T p cs). simpl in *. now rewrite IH.
Qed.

(** A space past start of text never changes the class before; it is
    reported as no break, or as a direct break after BK or CR. *)
Lemma transition_SP (T : PairTable) (prev : BreakClass) :
  snd (transition T prev ClassSP) = prev
  /\ (fst (transition T prev ClassSP) = BreakProhibited
      \/ fst (transition T prev ClassSP) = BreakDirect).
Proof.
  unfold transition.
  destruct (negb (negb (class_eqb prev ClassBK) && _)); simpl; auto.
Qed.

(** X3. Spaces are transparent: taking a rune of class SP out of the
    input, anywhere but at its first position, takes the action reported
    for that rune ([BreakProhibited], or [BreakDirect] after BK or CR)
    out of the actions and leaves every other action as it was. *)
Theorem space_deletion (R : ClassResolver) (T : PairTable) (x0 sp : rune)
    (xs ys : list rune) :
  R sp = ClassSP ->
  exists a1 a a2,
    getActions (S (S (length (xs ++ sp :: ys))))
      (newScannerWith R T (x0 :: xs ++ sp :: ys))
    = Some (a1 ++ a :: a2, S (length (xs ++ sp :: ys)))
    /\ getActions (S (S (length (xs ++ ys))))
         (newScannerWith R T (x0 :: xs ++ ys))
       = Some (a1 ++ a2, S (length (xs ++ ys)))
    /\ length a1 = S (length xs)
    /\ (a = BreakProhibited \/ a = BreakDirect).
Proof.
  intros Hsp.
  unfold getActions. rewrite !getActions_loop_fresh, !map_app. cbn [map].
  rewrite Hsp. cbn [later_class].
  set (cx := map (fun r => later_class (R r)) xs).
  set (cy := map (fun r => later_class (R r)) ys).
  set (p0 := sot_class (R x0)).
  rewrite (scan_app T p0 cx (ClassSP :: cy)), (scan_app T p0 cx cy).
  cbn [fst scan].
  set (p := snd (scan T p0 cx)).
  destruct (transition_SP T p) as [Hp Ha].
  destruct (transition T p ClassSP) as [a p'] eqn:Etr.
  cbn [fst snd] in Hp, Ha. subst p'.
  destruct (scan T p cy) as [ay q] eqn:Ey. cbn [fst].
  exists (BreakProhibited :: fst (scan T p0 cx)), a, (ay ++ [BreakMandatory]).
  repeat split.
  - now rewrite <- app_assoc.
  - now rewrite <- app_assoc.
  - simpl. f_equal. unfold cx. now rewrite scan_length, length_map.
  - exact Ha.
Qed.

Lemma space_deletion_witness :
  exists a1 a a2,
    getActions 6 (exampleScanner [0x61; 0x62; 0x20; 0x63; 0x64])
    = Some (a1 ++ a :: a2, 5%nat)
    /\ getActions 5 (exampleScanner [0x61; 0x62; 0x63; 0x64])
       = Some (a1 ++ a2, 4%nat)
    /\ length a1 = 2%nat
    /\ (a = BreakProhibited \/ a = BreakDirect).
Proof.
  apply (space_deletion (classResolver exampleClass exampleMn exampleMc)
           pairTable 0x61 0x20 [0x62] [0x63; 0x64]).
  reflexivity.
Defined.

(** ** After a mandatory break class *)

Lemma transition_BK (T : PairTable) (cls : BreakClass) :
  transition T ClassBK cls = (BreakDirect, ClassBK).
Proof. reflexivity. Qed.

(** X4. BK is absorbing.  Once the class before is BK, every later call
    that reads a rune reports [BreakDirect] and leaves BK as the class
    before, whatever the rune: the scanner never resumes after the first
    hard line break. *)
Theorem BK_is_absorbing (R : ClassResolver) (T : PairTable) (r : list rune)
    (n k : nat) :
  prevClass (after n (newScannerWith R T r)) = ClassBK ->
  (n + k < length r)%nat ->
  r_action (nth_call (n + k) (newScannerWith R T r)) = BreakDirect
  /\ prevClass (after (S (n + k)) (newScannerWith R T r)) = ClassBK.
Proof.
  intros Hbk Hk.
  assert (Hn : n <> 0%nat) by (intros ->; discriminate Hbk).
  assert (Hall : forall j, (n + j <= length r)%nat ->
            prevClass (after (n + j) (newScannerWith R T r)) = ClassBK).
  { induction j as [| j IH]; intros Hj; [now rewrite Nat.add_0_r |].
    rewrite Nat.add_succ_r, after_S.
    destruct (after_reading R T r (n + j)) as (Hp & He & Hr & _); [lia |].
    rewrite Next_transition by (rewrite ?Hp, ?Hr; auto; lia).
    cbn [snd prevClass set_prevClass]. rewrite IH by lia.
    now rewrite transition_BK. }
  split.
  - unfold nth_call.
    destruct (after_reading R T r (n + k)) as (Hp & He & Hr & _); [lia |].
    rewrite Next_transition by (rewrite ?Hp, ?Hr; auto; lia).
    cbn [fst r_action]. rewrite Hall by lia. now rewrite transition_BK.
  - rewrite <- Nat.add_succ_r. apply Hall. lia.
Qed.

Lemma BK_is_absorbing_witness :
  r_action (nth_call (2 + 1) (exampleScanner [0x61; 0x0A; 0x62; 0x63]))
  = BreakDirect
  /\ prevClass (after (S (2 + 1)) (exampleScanner [0x61; 0x0A; 0x62; 0x63]))
     = ClassBK.
Proof.
  apply (BK_is_absorbing (classResolver exampleClass exampleMn exampleMc)
           pairTable [0x61; 0x0A; 0x62; 0x63] 2 1);
    [reflexivity | simpl; lia].
Defined.

(** ** Mandatory breaks *)

Lemma Action_entry (T : PairTable) (before after : BreakClass) :
  Action T before after = BreakProhibited
  \/ exists row, In row T /\ In (Action T before after) row.
Proof.
  unfold Action.
  destruct (BreakClass_int before <? len T) eqn:Hb; [| now left].
  destruct (BreakClass_int after <? len (index [] T (BreakClass_int before)))
    eqn:Ha; [| now left].
  right. simpl. exists (index [] T (BreakClass_int before)).
  pose proof (BreakClass_int_range before).
  pose proof (BreakClass_int_range after).
  apply Z.ltb_lt in Hb, Ha. unfold index, len in *.
  split; apply nth_In; lia.
Qed.

Lemma no_mandatory_entry_Action (T : PairTable) (before after : BreakClass) :
  no_mandatory_entry T = true -> Action T before after <> BreakMandatory.
Proof.
  intros HT E.
  destruct (Action_entry T before after) as [H | (row & Hrow & Hin)];
    [congruence |].
  unfold no_mandatory_entry in HT.
  rewrite forallb_forall in HT. specialize (HT row Hrow).
  rewrite forallb_forall in HT. specialize (HT _ Hin).
  rewrite E in HT. discriminate.
Qed.

Lemma transition_not_mandatory (T : PairTable) (prev cls : BreakClass) :
  no_mandatory_entry T = true ->
  fst (transition T prev cls) <> BreakMandatory.
Proof.
  intros HT. unfold transition.
  destruct (negb (negb (class_eqb prev ClassBK) && _)); [discriminate |].
  pose proof (no_mandatory_entry_Action T prev cls HT) as HA.
  destruct cls; try discriminate;
    unfold resolve; destruct (Action T prev _); cbn [fst];
    try discriminate; try congruence;
    destruct (class_eqb prev ClassSP); discriminate.
Qed.

(** X5. With a pair table that has no [BreakMandatory] entry, as the
    default table, [BreakMandatory] is reported at the end of the input
    and nowhere else: call number [n] reports it exactly when the runes
    are all read. *)
Theorem Mandatory_only_at_end (R : ClassResolver) (T : PairTable)
    (r : list rune) (n : nat) :
  no_mandatory_entry T = true ->
  (r_action (nth_call n (newScannerWith R T r)) = BreakMandatory <->
   (length r <= n)%nat).
Proof.
  intros HT. unfold nth_call.
  destruct (after_state R T r n) as (Hr & Hp & Hnone & Heof).
  set (s := after n (newScannerWith R T r)) in *.
  destruct (Nat.lt_trichotomy n (length r)) as [Hlt | [Heq | Hgt]].
  - split; [| lia]. intros E. exfalso. revert E.
    assert (Hp' : pos s = n) by lia.
    assert (He : err s = None) by (apply Hnone; lia).
    destruct n as [| n].
    + destruct r as [| r0 rest]; [simpl in Hlt; lia |].
      unfold s. simpl after. rewrite Next_first. discriminate.
    + destruct (after_reading R T r (S n)) as (_ & _ & _ & _ & HTs); [lia |].
      fold s in HTs.
      rewrite Next_transition by (rewrite ?Hp', ?Hr; auto; lia).
      rewrite HTs. apply transition_not_mandatory, HT.
  - rewrite (Next_exhausted s) by (try apply Hnone; rewrite ?Hp, ?Hr; lia).
    split; [lia | reflexivity].
  - rewrite (Next_frozen_state s io_EOF) by (apply Heof; lia).
    split; [lia | reflexivity].
Qed.

Lemma Mandatory_only_at_end_witness :
  r_action (nth_call 2 (exampleScanner [0x61; 0x62])) = BreakMandatory <->
  (length [0x61; 0x62] <= 2)%nat.
Proof.
  apply (Mandatory_only_at_end
           (classResolver exampleClass exampleMn exampleMc) pairTable
           [0x61; 0x62] 2).
  reflexivity.
Defined.

(** ** The default scanner and the pair table *)

Ltac paired_cases :=
  unfold read_ok, prev_ok, paired, pairTableSize; simpl;
  first [ left; lia
        | right; left; reflexivity
        | right; right; left; reflexivity
        | right; right; right; left; reflexivity
        | right; right; right; right; reflexivity
        | right; right; reflexivity ].

Lemma classResolver_read_ok (Class : rune -> BreakClass)
    (isMn isMc : rune -> bool) (r : rune) :
  read_ok (later_class (classResolver Class isMn isMc r))
  /\ prev_ok (sot_class (classResolver Class isMn isMc r)).
Proof.
  unfold classResolver.
  destruct (Class r); try destruct (isMn r || isMc r);
    split; paired_cases.
Qed.

Lemma transition_prev_ok (T : PairTable) (prev cls : BreakClass) :
  prev_ok prev -> read_ok cls -> prev_ok (snd (transition T prev cls)).
Proof.
  intros Hprev Hcls. unfold transition.
  destruct (negb (negb (class_eqb prev ClassBK) && _)); [exact Hprev |].
  destruct cls; cbn [snd]; try exact Hprev; try paired_cases;
    try (destruct (resolve prev _) as [a [|]]; cbn [snd];
         [paired_cases | exact Hprev]);
    exfalso; revert Hcls; unfold read_ok, paired, pairTableSize; simpl;
    intros [H | [H | [H | [H | H]]]]; try discriminate; lia.
Qed.

(** What a call of [Next] can do to the class before. *)
Lemma Next_prev_cases (s : Scanner) :
  prevClass (snd (Next s)) = prevClass s
  \/ prevClass (snd (Next s))
     = sot_class (Resolver s (nth (pos s) (runes s) 0))
  \/ prevClass (snd (Next s))
     = snd (transition (Table s) (prevClass s)
              (later_class (Resolver s (nth (pos s) (runes s) 0)))).
Proof.
  destruct (err s) as [e |] eqn:He.
  { left. now rewrite (Next_frozen_state s e He). }
  destruct (Nat.le_gt_cases (length (runes s)) (pos s)) as [Hp | Hp].
  { left. now rewrite (Next_exhausted s He Hp). }
  destruct (Nat.eq_dec (pos s) 0) as [H0 | H0].
  - right. left. unfold Next, nextClass. rewrite He, H0.
    rewrite H0 in Hp. apply Nat.leb_gt in Hp. rewrite Hp. simpl.
    now destruct (Resolver s (nth 0 (runes s) 0)).
  - right. right. now rewrite (Next_transition s H0 He Hp).
Qed.

Lemma default_prev_ok (Class : rune -> BreakClass) (isMn isMc : rune -> bool)
    (r : list rune) (n : nat) :
  prev_ok (prevClass (after n (NewScanner Class isMn isMc r))).
Proof.
  induction n as [| n IH]; [simpl; paired_cases |].
  rewrite after_S.
  set (s := after n (NewScanner Class isMn isMc r)) in *.
  assert (HR : Resolver s = classResolver Class isMn isMc).
  { unfold s. clear. induction n as [| n IH]; [reflexivity |].
    rewrite after_S. now rewrite (proj1 (Next_frame _)). }
  destruct (Next_prev_cases s) as [E | [E | E]]; rewrite E, ?HR.
  - exact IH.
  - apply classResolver_read_ok.
  - apply transition_prev_ok; [exact IH | apply classResolver_read_ok].
Qed.

(** X6. The default scanner keeps to the pair table.  With the default
    resolver, for any [Class] tables and any input, the class before is
    always a paired class, BK or CR; and whenever call number [n] gets as
    far as the pair table (the class before being neither BK nor CR, and
    the class read none of BK, LF, CR and SP), both classes are paired:
    the answer of [Action] for an index outside of the table is never
    used. *)
Theorem default_lookups_paired (Class : rune -> BreakClass)
    (isMn isMc : rune -> bool) (r : list rune) (n : nat) :
  (paired (prevClass (after n (NewScanner Class isMn isMc r)))
   \/ prevClass (after n (NewScanner Class isMn isMc r)) = ClassBK
   \/ prevClass (after n (NewScanner Class isMn isMc r)) = ClassCR)
  /\ (prevClass (after n (NewScanner Class isMn isMc r)) <> ClassBK ->
      prevClass (after n (NewScanner Class isMn isMc r)) <> ClassCR ->
      forall rn cls,
        cls = later_class (classResolver Class isMn isMc rn) ->
        cls <> ClassBK -> cls <> ClassLF -> cls <> ClassCR ->
        cls <> ClassSP ->
        paired (prevClass (after n (NewScanner Class isMn isMc r)))
        /\ paired cls).
Proof.
  pose proof (default_prev_ok Class isMn isMc r n) as Hprev.
  split; [exact Hprev |].
  intros Hbk Hcr rn cls -> Nbk Nlf Ncr Nsp.
  destruct (classResolver_read_ok Class isMn isMc rn) as [Hread _].
  split.
  - destruct Hprev as [H | [H | H]]; [exact H | congruence | congruence].
  - destruct Hread as [H | [H | [H | [H | H]]]]; [exact H | congruence ..].
Qed.

(** ** The test helper [equalIntSlice] *)

Lemma equalIntSlice_loop_spec (a : list Z) :
  forall (k : nat) (b : list Z),
    (k + length a <= length b)%nat ->
    (equalIntSlice_loop a k b = true <->
     firstn (length a) (skipn k b) = a).
Proof.
  induction a as [| v a IH]; intros k b Hk; [simpl; tauto |].
  simpl in Hk. cbn [equalIntSlice_loop length].
  rewrite (@skipn_nth Z 0 b k) by lia. cbn [firstn].
  destruct (Z.eqb_spec (nth k b 0) v) as [E | N]; cbn [negb].
  - rewrite IH by lia. rewrite E. split; [intros ->; reflexivity |].
    intros H. now injection H.
  - split; [discriminate |]. intros H. injection H as H _. contradiction.
Qed.

(** X7. [equalIntSlice] decides equality: it answers true exactly when
    the two slices hold the same numbers in the same order. *)
Theorem equalIntSlice_spec (a b : list Z) :
  equalIntSlice a b = true <-> a = b.
Proof.
  unfold equalIntSlice, len.
  destruct (Z.eqb_spec (Z.of_nat (length a)) (Z.of_nat (length b)))
    as [E | N]; cbn [negb].
  - apply Nat2Z.inj in E.
    rewrite equalIntSlice_loop_spec by (simpl; lia).
    cbn [skipn]. rewrite E, firstn_all. split; congruence.
  - split; [discriminate |]. intros ->. contradiction.
Qed.

(** * linebreak/maketables.go *)

Module MaketablesFacts.

Import Maketables.

Lemma update_last {A : Type} (s : list A) (y x : A) :
  update (s ++ [y]) (length s) x = s ++ [x].
Proof. induction s as [| z s IH]; [reflexivity |]. simpl. now rewrite IH. Qed.

(** One round of the loop is one [fold_rev] on the slice read backwards;
    the count [j] is the length of the slice throughout. *)
Lemma foldAdjacent_body_rev (acc : list Range32) (ri : codePoint) :
  foldAdjacent_body (rev acc, length acc) ri
  = (rev (fold_rev acc ri), length (fold_rev acc ri)).
Proof.
  destruct acc as [| last front]; [reflexivity |].
  unfold foldAdjacent_body, fold_rev.
  cbn [rev length]. rewrite Nat.sub_succ, Nat.sub_0_r.
  replace (nth (length front) (rev front ++ [last]) zeroRange32) with last
    by (rewrite app_nth2, length_rev, Nat.sub_diag by (rewrite length_rev; lia);
        reflexivity).
  cbn [Nat.ltb Nat.leb andb].
  destruct (lo ri =? uint32 (Hi last + 1)).
  - rewrite <- (length_rev front) at 1. rewrite update_last. reflexivity.
  - rewrite firstn_all2
      by (rewrite !length_app, length_rev; simpl; lia).
    replace (S (length front)) with (length (rev front ++ [last]))
      by (rewrite length_app, length_rev; simpl; lia).
    rewrite update_last. cbn [rev length].
    rewrite length_app, length_rev. simpl. f_equal. lia.
Qed.

Lemma foldAdjacent_fold_rev (r : list codePoint) :
  foldAdjacent r = rev (fold_left fold_rev r []).
Proof.
  unfold foldAdjacent.
  change ([], 0%nat) with (rev (@nil Range32), length (@nil Range32)).
  generalize (@nil Range32) as acc.
  induction r as [| ri r IH]; intros acc; [reflexivity |].
  cbn [fold_left]. rewrite foldAdjacent_body_rev. apply IH.
Qed.

(** *** The code points covered *)

Lemma fold_rev_covers (acc : list Range32) (ri : codePoint) (c : Z) :
  Forall range_ok acc -> well_formed ri ->
  Forall range_ok (fold_rev acc ri)
  /\ (in_ranges (fold_rev acc ri) c <->
      in_ranges acc c \/ lo ri <= c <= hi ri).
Proof.
  intros Hacc (Hlo & Hle & Hhi). unfold fold_rev.
  destruct acc as [| last front].
  - split; [repeat constructor; simpl; lia |].
    unfold in_ranges. split.
    + intros (g & [<- | []] & Hc). now right.
    + intros [(g & [] & _) | Hc]. eexists. split; [now left | exact Hc].
  - inversion Hacc as [| ? ? (Hl0 & Hl1 & Hl2) Hfront]; subst.
    unfold uint32. rewrite Z.mod_small by lia.
    destruct (Z.eqb_spec (lo ri) (Hi last + 1)) as [E | N].
    + split; [constructor; [unfold range_ok; simpl; lia | exact Hfront] |].
      unfold in_ranges. split.
      * intros (g & [<- | Hin] & Hc); simpl in Hc.
        -- destruct (Z.le_gt_cases c (Hi last)).
           ++ left. exists last. split; [now left | lia].
           ++ right. lia.
        -- left. exists g. split; [now right | exact Hc].
      * intros [(g & [<- | Hin] & Hc) | Hc].
        -- eexists. split; [now left | simpl; lia].
        -- exists g. split; [now right | exact Hc].
        -- eexists. split; [now left | simpl; lia].
    + split; [constructor; [unfold range_ok; simpl; lia | exact Hacc] |].
      unfold in_ranges. split.
      * intros (g & [<- | Hin] & Hc); [now right |].
        left. exists g. split; assumption.
      * intros [(g & Hin & Hc) | Hc].
        -- exists g. split; [now right | exact Hc].
        -- eexists. split; [now left | exact Hc].
Qed.

Lemma fold_left_fold_rev_covers (r : list codePoint) :
  forall (acc : list Range32) (c : Z),
    Forall range_ok acc -> Forall well_formed r ->
    (in_ranges (fold_left fold_rev r acc) c <->
     in_ranges acc c \/ in_codePoints r c).
Proof.
  induction r as [| ri r IH]; intros acc c Hacc Hr.
  - simpl. split; [now left |]. intros [H | (p & [] & _)]. exact H.
  - inversion Hr as [| ? ? Hri Hr']; subst. cbn [fold_left].
    destruct (fold_rev_covers acc ri c Hacc Hri) as [Hok Hcov].
    rewrite (IH _ c Hok Hr'), Hcov. unfold in_codePoints. split.
    + intros [[H | H] | (p & Hin & Hc)]; [now left | right | right].
      * exists ri. split; [now left | exact H].
      * exists p. split; [now right | exact Hc].
    + intros [H | (p & [<- | Hin] & Hc)]; [now left; left | now left; right |].
      right. exists p. split; assumption.
Qed.

(** X8. Folding keeps the code points.  For entries that are non-empty
    ranges ending before the last [uint32] value, a code point lies in a
    range of [foldAdjacent(r)] exactly when it lies in an entry of [r]. *)
Theorem foldAdjacent_covers (r : list codePoint) (c : Z) :
  Forall well_formed r ->
  (in_ranges (foldAdjacent r) c <-> in_codePoints r c).
Proof.
  intros Hr. rewrite foldAdjacent_fold_rev.
  assert (E : in_ranges (rev (fold_left fold_rev r [])) c
              <-> in_ranges (fold_left fold_rev r []) c).
  { unfold in_ranges. split; intros (g & Hin & Hc); exists g;
      (split; [| exact Hc]); [now apply in_rev | now apply in_rev in Hin]. }
  rewrite E, (fold_left_fold_rev_covers r [] c (Forall_nil _) Hr).
  split; [| now right]. intros [(g & [] & _) | H]. exact H.
Qed.

Lemma foldAdjacent_covers_witness :
  in_ranges (foldAdjacent [mkCodePoint 0x41 0x5A "AL"; mkCodePoint 0x5B 0x5B "OP";
                           mkCodePoint 0x61 0x7A "AL"]) 0x5B
  <-> in_codePoints [mkCodePoint 0x41 0x5A "AL"; mkCodePoint 0x5B 0x5B "OP";
                     mkCodePoint 0x61 0x7A "AL"] 0x5B.
Proof.
  apply (foldAdjacent_covers
           [mkCodePoint 0x41 0x5A "AL"; mkCodePoint 0x5B 0x5B "OP";
            mkCodePoint 0x61 0x7A "AL"] 0x5B).
  repeat constructor; simpl; lia.
Defined.

(** *** The shape of the result *)

Lemma fold_rev_folded (acc : list Range32) (ri : codePoint) :
  folded_rev acc -> folded_rev (fold_rev acc ri).
Proof.
  intros H. unfold fold_rev. destruct acc as [| last front]; [exact I |].
  destruct (Z.eqb_spec (lo ri) (uint32 (Hi last + 1))) as [E | N].
  - destruct front as [| a front]; [exact I |]. exact H.
  - split; [exact N | exact H].
Qed.

Lemma fold_left_fold_rev_folded (r : list codePoint) :
  forall acc, folded_rev acc -> folded_rev (fold_left fold_rev r acc).
Proof.
  induction r as [| ri r IH]; intros acc H; [exact H |].
  cbn [fold_left]. apply IH, fold_rev_folded, H.
Qed.

Lemma folded_rev_nth (acc : list Range32) :
  folded_rev acc ->
  forall k, (S k < length acc)%nat ->
    Lo (nth k acc zeroRange32)
    <> uint32 (Hi (nth (S k) acc zeroRange32) + 1).
Proof.
  induction acc as [| b acc IH]; intros H k Hk; [simpl in Hk; lia |].
  destruct acc as [| a acc]; [simpl in Hk; lia |].
  destruct H as [Hba H]. destruct k as [| k]; [exact Hba |].
  apply (IH H k). simpl in *. lia.
Qed.

Lemma fold_rev_shape (acc : list Range32) (ri : codePoint) :
  Forall (fun g => Stride g = 1) acc ->
  Forall (fun g => Stride g = 1) (fold_rev acc ri)
  /\ (length acc <= length (fold_rev acc ri) <= S (length acc))%nat
  /\ fold_rev acc ri <> [].
Proof.
  intros H. unfold fold_rev. destruct acc as [| last front].
  - repeat split; try (simpl; lia); [now repeat constructor | discriminate].
  - inversion H as [| ? ? Hl Hf]; subst.
    destruct (lo ri =? uint32 (Hi last + 1)).
    + repeat split; try (simpl; lia); [now constructor | discriminate].
    + repeat split; try (simpl; lia); [now constructor | discriminate].
Qed.

Lemma fold_left_fold_rev_shape (r : list codePoint) :
  forall acc,
    Forall (fun g => Stride g = 1) acc ->
    Forall (fun g => Stride g = 1) (fold_left fold_rev r acc)
    /\ (length acc <= length (fold_left fold_rev r acc)
        <= length acc + length r)%nat
    /\ (r <> [] -> fold_left fold_rev r acc <> []).
Proof.
  induction r as [| ri r IH]; intros acc H.
  - simpl. repeat split; auto; lia.
  - cbn [fold_left length].
    destruct (fold_rev_shape acc ri H) as (Hs & Hlen & Hne).
    destruct (IH _ Hs) as (Hs' & Hlen' & Hne').
    repeat split; try lia; [exact Hs' |].
    intros _. destruct r as [| rj r]; [exact Hne | apply Hne'; discriminate].
Qed.

(** X9. The result of [foldAdjacent] is folded: no range of it starts
    right after the end of the range before it (in [uint32] arithmetic),
    every stride is 1, there are at most as many ranges as entries, and
    at least one if there is an entry. *)
Theorem foldAdjacent_folded (r : list codePoint) :
  (forall i, (S i < length (foldAdjacent r))%nat ->
     Lo (nth (S i) (foldAdjacent r) zeroRange32)
     <> uint32 (Hi (nth i (foldAdjacent r) zeroRange32) + 1))
  /\ Forall (fun g => Stride g = 1) (foldAdjacent r)
  /\ (length (foldAdjacent r) <= length r)%nat
  /\ (r <> [] -> foldAdjacent r <> []).
Proof.
  rewrite foldAdjacent_fold_rev.
  set (acc := fold_left fold_rev r []).
  destruct (fold_left_fold_rev_shape r [] (Forall_nil _))
    as (Hs & Hlen & Hne). fold acc in Hs, Hlen, Hne.
  split; [| split; [| split]].
  - intros i Hlt. rewrite length_rev in Hlt.
    rewrite !rev_nth by lia.
    replace (length acc - S i)%nat with (S (length acc - S (S i)))%nat by lia.
    apply folded_rev_nth; [| lia].
    apply fold_left_fold_rev_folded. exact I.
  - apply Forall_rev, Hs.
  - rewrite length_rev. simpl in Hlen. lia.
  - intros Hr E. apply (Hne Hr).
    apply (f_equal (@rev Range32)) in E. now rewrite rev_involutive in E.
Qed.

(** *** The Latin-1 offset *)

Lemma findLatinOffset_loop_spec (fuel : nat) :
  forall (ranges : list Range32) (i : nat),
    (i <= length ranges)%nat -> (length ranges - i <= fuel)%nat ->
    (forall k, (k < i)%nat -> Hi (nth k ranges zeroRange32) <= MaxLatin1) ->
    let n := findLatinOffset_loop fuel ranges i in
    (n <= length ranges)%nat
    /\ (forall k, (k < n)%nat -> Hi (nth k ranges zeroRange32) <= MaxLatin1)
    /\ ((n < length ranges)%nat ->
        MaxLatin1 < Hi (nth n ranges zeroRange32)).
Proof.
  induction fuel as [| fuel IH]; intros ranges i Hin Hfuel Hbefore.
  - simpl. repeat split; [exact Hin | exact Hbefore | lia].
  - cbn [findLatinOffset_loop].
    destruct (Nat.ltb_spec i (length ranges)) as [Hlt | Hge]; cbn [andb].
    + destruct (Z.leb_spec (Hi (nth i ranges zeroRange32)) MaxLatin1)
        as [Hle | Hgt].
      * apply IH; [lia | lia |].
        intros k Hk. destruct (Nat.eq_dec k i) as [-> | Hne];
          [exact Hle | apply Hbefore; lia].
      * repeat split; [exact Hin | exact Hbefore | intros _; exact Hgt].
    + repeat split; [exact Hin | exact Hbefore | lia].
Qed.

(** X10. [findLatinOffset] returns the length of the longest prefix of
    ranges that end at or before U+00FF: every range before the index
    returned ends there, and the range at that index, if there is one,
    does not. *)
Theorem findLatinOffset_spec (ranges : list Range32) :
  (findLatinOffset ranges <= length ranges)%nat
  /\ (forall k, (k < findLatinOffset ranges)%nat ->
        Hi (nth k ranges zeroRange32) <= MaxLatin1)
  /\ ((findLatinOffset ranges < length ranges)%nat ->
      MaxLatin1 < Hi (nth (findLatinOffset ranges) ranges zeroRange32)).
Proof.
  unfold findLatinOffset.
  apply (findLatinOffset_loop_spec (length ranges) ranges 0); try lia.
Qed.

Lemma filter_none {A : Type} (f : A -> bool) (l : list A) :
  (forall x, In x l -> f x = false) -> filter f l = [].
Proof.
  induction l as [| x l IH]; intros H; [reflexivity |].
  simpl. rewrite (H x) by now left. apply IH. intros y Hy. apply H. now right.
Qed.

(** X11. For ranges in the order of their ends, as the tables have them,
    [findLatinOffset] counts the ranges that end at or before U+00FF. *)
Theorem findLatinOffset_count (ranges : list Range32) :
  (forall i j, (i <= j < length ranges)%nat ->
     Hi (nth i ranges zeroRange32) <= Hi (nth j ranges zeroRange32)) ->
  findLatinOffset ranges
  = length (filter (fun g => Hi g <=? MaxLatin1) ranges).
Proof.
  intros Hsorted.
  destruct (findLatinOffset_loop_spec (length ranges) ranges 0)
    as (Hn & Hbefore & Hat); [lia | lia | intros k Hk; lia |].
  fold (findLatinOffset ranges) in Hn, Hbefore, Hat.
  set (n := findLatinOffset ranges) in *.
  rewrite <- (firstn_skipn n ranges) at 1.
  rewrite filter_app, length_app.
  rewrite forallb_filter_id, filter_none.
  - rewrite length_firstn. simpl. lia.
  - intros x Hx.
    destruct (In_nth _ _ zeroRange32 Hx) as (k & Hk & <-).
    rewrite length_skipn in Hk. rewrite nth_skipn.
    apply Z.leb_gt.
    apply Z.lt_le_trans with (Hi (nth n ranges zeroRange32));
      [apply Hat; lia | apply Hsorted; lia].
  - apply forallb_forall. intros x Hx.
    destruct (In_nth _ _ zeroRange32 Hx) as (k & Hk & <-).
    rewrite length_firstn in Hk. rewrite nth_firstn.
    destruct (Nat.ltb_spec k n) as [Hkn | Hkn]; [| lia].
    apply Z.leb_le, Hbefore, Hkn.
Qed.

Lemma findLatinOffset_count_witness :
  findLatinOffset [mkRange32 0x41 0x5A 1; mkRange32 0xC0 0xD6 1;
                   mkRange32 0x100 0x17F 1]
  = length (filter (fun g => Hi g <=? MaxLatin1)
              [mkRange32 0x41 0x5A 1; mkRange32 0xC0 0xD6 1;
               mkRange32 0x100 0x17F 1]).
Proof.
  apply (findLatinOffset_count
           [mkRange32 0x41 0x5A 1; mkRange32 0xC0 0xD6 1;
            mkRange32 0x100 0x17F 1]).
  intros i j Hij. simpl in Hij.
  destruct i as [| [| [| i]]]; destruct j as [| [| [| j]]];
    simpl; lia.
Defined.

End MaketablesFacts.

(** * gettext: the catalog *)

Module GettextFacts.

Import Gettext.

#[local] Abbreviation byte := Byte.byte.

Lemma string_eqb_eq (a b : gostring) : string_eqb a b = true <-> a = b.
Proof.
  unfold string_eqb. destruct (list_eq_dec Byte.byte_eq_dec a b);
    split; congruence.
Qed.

Lemma string_eqb_refl (a : gostring) : string_eqb a a = true.
Proof. now apply string_eqb_eq. Qed.

Lemma string_eqb_neq (a b : gostring) : a <> b -> string_eqb a b = false.
Proof.
  intros N. destruct (string_eqb a b) eqn:E; [| reflexivity].
  apply string_eqb_eq in E. contradiction.
Qed.

Lemma map_get_set_same (m : msgmap) (k : gostring) (v : Message) :
  map_get (map_set m k v) k = Some v.
Proof. simpl. now rewrite string_eqb_refl. Qed.

Lemma map_get_set_other (m : msgmap) (k k' : gostring) (v : Message) :
  k <> k' -> map_get (map_set m k v) k' = map_get m k'.
Proof. intros N. simpl. now rewrite (string_eqb_neq k k' N). Qed.

(** *** Keys *)

Lemma app_sep_inj {A : Type} (x : A) (a c b d : list A) :
  a ++ x :: b = c ++ x :: d -> ~ In x b -> ~ In x d -> a = c /\ b = d.
Proof.
  revert c. induction a as [| y a IH]; intros [| z c] E Hb Hd; simpl in E.
  - injection E as E. now split.
  - injection E as _ E. exfalso. apply Hb. rewrite E.
    apply in_or_app. right. now left.
  - injection E as _ E. exfalso. apply Hd. rewrite <- E.
    apply in_or_app. right. now left.
  - injection E as -> E. destruct (IH c E Hb Hd) as [-> ->]. now split.
Qed.

(** X12. Keys tell messages apart.  Two messages whose ids hold no EOT
    byte (U+0004) get the same key only if they have the same context,
    nil or not, and the same id. *)
Theorem key_injective (ctxt1 id1 ctxt2 id2 : slice) (k : gostring) :
  key ctxt1 id1 = (k, None) -> key ctxt2 id2 = (k, None) ->
  ~ In Byte.x04 (contents id1) -> ~ In Byte.x04 (contents id2) ->
  ctxt1 = ctxt2 /\ id1 = id2.
Proof.
  unfold key. intros E1 E2 H1 H2.
  destruct id1 as [i1 |]; [| discriminate].
  destruct id2 as [i2 |]; [| discriminate].
  simpl in H1, H2.
  destruct ctxt1 as [c1 |], ctxt2 as [c2 |];
    injection E1 as E1; injection E2 as E2; subst k.
  - simpl in E2. symmetry in E2.
    destruct (app_sep_inj _ _ _ _ _ E2 H1 H2) as [-> ->]. now split.
  - exfalso. apply H2. rewrite E2. apply in_or_app. right. now left.
  - exfalso. apply H1. rewrite <- E2. apply in_or_app. right. now left.
  - now subst.
Qed.

Lemma key_injective_witness :
  Some (lit "menu") = Some (lit "menu") /\ Some (lit "Open") = Some (lit "Open").
Proof.
  apply (key_injective (Some (lit "menu")) (Some (lit "Open"))
           (Some (lit "menu")) (Some (lit "Open"))
           (lit "menu" ++ [Byte.x04] ++ lit "Open"));
    [reflexivity | reflexivity | |];
    simpl; intros H; repeat (destruct H as [H | H]; [discriminate |]);
    exact H.
Defined.

(** *** Adding and looking up *)

Section CatalogFacts.

Variable ReadMIMEHeader : list byte -> MIMEHeader * option error.
Variable arg : Type.
Variable Sprintf : gostring -> list arg -> gostring.


(** What a successful [setMessage] does to the catalog. *)
Lemma setMessage_ok (c c' : Catalog) (msg : Message) :
  Gettext.setMessage ReadMIMEHeader c msg = (None, c') ->
  exists k,
    key (Ctxt msg) (Id msg) = (k, None)
    /\ map_get (msgs c) k = None
    /\ msgs c' = map_set (msgs c) k msg
    /\ keys c' = keys c ++ [k].
Proof.
  unfold Gettext.setMessage.
  destruct (key (Ctxt msg) (Id msg)) as [k [e |]] eqn:Ek; [discriminate |].
  destruct (map_get (msgs c) k) eqn:Eg; [discriminate |].
  destruct (len k =? 0); [destruct (Header c); [discriminate |] |];
    intros E; injection E as <-; exists k; auto.
Qed.

(** X13. A message added is the one looked up.  After a [setMessage] that
    reports no error, [Singular] without arguments gives for the key of
    the message its [Str], or the key itself when [Str] is nil; before,
    it gave the key itself; and for every other key, with any arguments,
    it gives what it gave before. *)
Theorem setMessage_Singular (c c' : Catalog) (msg : Message) :
  Gettext.setMessage ReadMIMEHeader c msg = (None, c') ->
  exists k,
    key (Ctxt msg) (Id msg) = (k, None)
    /\ Gettext.Singular arg Sprintf c' k []
       = match Str msg with Some text => text | None => k end
    /\ (forall args, Gettext.Singular arg Sprintf c k args = k)
    /\ (forall k' args, k' <> k ->
          Gettext.Singular arg Sprintf c' k' args
          = Gettext.Singular arg Sprintf c k' args).
Proof.
  intros E. destruct (setMessage_ok c c' msg E) as (k & Ek & Hnone & Hm & _).
  exists k. unfold Gettext.Singular. rewrite Hm, Hnone, map_get_set_same.
  repeat split; auto.
  intros k' args N. now rewrite map_get_set_other by congruence.
Qed.

(** X14. The first message of a key stays.  Once a message is added, a
    [setMessage] of any message with the same context and id is refused
    with an error and leaves the catalog as it is. *)
Theorem setMessage_again (c c' : Catalog) (msg msg' : Message) :
  Gettext.setMessage ReadMIMEHeader c msg = (None, c') ->
  Ctxt msg' = Ctxt msg -> Id msg' = Id msg ->
  exists k,
    key (Ctxt msg) (Id msg) = (k, None)
    /\ Gettext.setMessage ReadMIMEHeader c' msg'
       = (Some (fmt_Errorf "Message key already exists: %q." [k]), c').
Proof.
  intros E Hc Hi. destruct (setMessage_ok c c' msg E) as (k & Ek & _ & Hm & _).
  exists k. split; [exact Ek |].
  unfold Gettext.setMessage. rewrite Hc, Hi, Ek, Hm, map_get_set_same.
  reflexivity.
Qed.

End CatalogFacts.

Lemma setMessage_Singular_witness :
  exists k,
    key None (Some (lit "mullusk")) = (k, None)
    /\ Gettext.Singular unit (fun text _ => text)
         (snd (Gettext.setMessage (fun _ => ([], Some io_EOF)) NewCatalog
                 (mkMessage None (Some (lit "mullusk")) None
                    (Some (lit "bacon")) [] None)))
         k []
       = lit "bacon"
    /\ (forall args,
          Gettext.Singular unit (fun text _ => text) NewCatalog k args = k)
    /\ (forall k' args, k' <> k ->
          Gettext.Singular unit (fun text _ => text)
            (snd (Gettext.setMessage (fun _ => ([], Some io_EOF)) NewCatalog
                    (mkMessage None (Some (lit "mullusk")) None
                       (Some (lit "bacon")) [] None)))
            k' args
          = Gettext.Singular unit (fun text _ => text) NewCatalog k' args).
Proof.
  apply (setMessage_Singular (fun _ => ([], Some io_EOF)) unit
           (fun text _ => text) NewCatalog _
           (mkMessage None (Some (lit "mullusk")) None (Some (lit "bacon"))
              [] None)).
  reflexivity.
Defined.

Lemma setMessage_again_witness :
  exists k,
    key None (Some (lit "mullusk")) = (k, None)
    /\ Gettext.setMessage (fun _ => ([], Some io_EOF))
         (snd (Gettext.setMessage (fun _ => ([], Some io_EOF)) NewCatalog
                 (mkMessage None (Some (lit "mullusk")) None
                    (Some (lit "bacon")) [] None)))
         (mkMessage None (Some (lit "mullusk")) None (Some (lit "spam")) []
            None)
       = (Some (fmt_Errorf "Message key already exists: %q." [k]),
          snd (Gettext.setMessage (fun _ => ([], Some io_EOF)) NewCatalog
                 (mkMessage None (Some (lit "mullusk")) None
                    (Some (lit "bacon")) [] None))).
Proof.
  apply (setMessage_again (fun _ => ([], Some io_EOF)) NewCatalog _
           (mkMessage None (Some (lit "mullusk")) None (Some (lit "bacon"))
              [] None)
           (mkMessage None (Some (lit "mullusk")) None (Some (lit "spam"))
              [] None));
    reflexivity.
Defined.

(** * gettext: msgid and msgstr *)

Lemma HasPrefix_byte (s : list byte) (c : byte) :
  HasPrefix s [c] = match s with
                    | [] => false
                    | x :: _ => Byte.eqb x c
                    end.
Proof.
  destruct s as [| x s]; [reflexivity |]. simpl.
  destruct s; apply andb_true_r.
Qed.

(** [bytes.Index] for a separator of one byte: -1 when the byte is not
    there, the length of what comes before its first instance
    otherwise. *)
Lemma Index_from_byte (c : byte) (s : list byte) :
  forall i, 0 <= i ->
    (Index_from i s [c] = -1 /\ ~ In c s)
    \/ (exists pre post,
          s = pre ++ c :: post /\ ~ In c pre
          /\ Index_from i s [c] = i + len pre).
Proof.
  induction s as [| x s IH]; intros i Hi.
  - left. split; [reflexivity | intros []].
  - cbn [Index_from]. rewrite HasPrefix_byte.
    destruct (Byte.eqb x c) eqn:E.
    + right. apply Byte.byte_dec_bl in E. subst x.
      exists [], s. repeat split; [intros [] | unfold len; simpl; lia].
    + assert (N : x <> c)
        by (intros ->; rewrite Byte.byte_dec_lb in E by reflexivity;
            discriminate).
      destruct (IH (i + 1)) as [[Hm Hn] | (pre & post & -> & Hpre & Hm)];
        [lia | |].
      * left. split; [exact Hm |]. intros [H | H]; [contradiction | auto].
      * right. exists (x :: pre), post. repeat split.
        -- intros [H | H]; [contradiction | auto].
        -- rewrite Hm. unfold len. simpl length. lia.
Qed.

Lemma Index_byte (c : byte) (s : list byte) :
  (Index s [c] = -1 /\ ~ In c s)
  \/ (exists pre post,
        s = pre ++ c :: post /\ ~ In c pre /\ Index s [c] = len pre).
Proof.
  destruct (Index_from_byte c s 0) as [H | (pre & post & H1 & H2 & H3)];
    [lia | now left |].
  right. exists pre, post. repeat split; auto.
Qed.

Lemma firstn_len_app {A : Type} (pre post : list A) :
  firstn (Z.to_nat (len pre)) (pre ++ post) = pre.
Proof.
  unfold len. rewrite Nat2Z.id.
  rewrite firstn_app, Nat.sub_diag, firstn_all. simpl. apply app_nil_r.
Qed.

Lemma skipn_len_app {A : Type} (pre : list A) (x : A) (post : list A) :
  skipn (Z.to_nat (len pre + 1)) (pre ++ x :: post) = post.
Proof.
  unfold len. replace (Z.to_nat (Z.of_nat (length pre) + 1))
    with (length pre + 1)%nat by lia.
  rewrite skipn_app.
  rewrite skipn_all2 by lia.
  replace (length pre + 1 - length pre)%nat with 1%nat by lia.
  reflexivity.
Qed.

Lemma Split_loop_nonempty (fuel : nat) (s sep : list byte) :
  Split_loop fuel s sep <> [].
Proof.
  destruct fuel; simpl; [discriminate |].
  destruct (Index s sep <? 0); discriminate.
Qed.

Lemma Join_cons (x : list byte) (rest : list (list byte)) (sep : list byte) :
  rest <> [] -> Join (x :: rest) sep = x ++ sep ++ Join rest sep.
Proof. destruct rest; [contradiction | reflexivity]. Qed.

(** [bytes.Join] undoes [bytes.Split], for a separator of one byte. *)
Lemma Join_Split_loop (c : byte) (fuel : nat) :
  forall s, Join (Split_loop fuel s [c]) [c] = s.
Proof.
  induction fuel as [| fuel IH]; intros s; [reflexivity |].
  cbn [Split_loop].
  destruct (Index_byte c s) as [[Hm _] | (pre & post & -> & _ & Hm)];
    rewrite Hm.
  - reflexivity.
  - replace (len pre <? 0) with false
      by (symmetry; apply Z.ltb_ge; unfold len; lia).
    rewrite Join_cons by apply Split_loop_nonempty.
    rewrite firstn_len_app.
    replace (Z.to_nat (len pre) + length [c])%nat
      with (Z.to_nat (len pre + 1)) by (unfold len; simpl; lia).
    rewrite skipn_len_app, IH. reflexivity.
Qed.

(** X15. What is read is what would be written.  For any msgid and msgstr
    bytes of a MO file, the message [Next] makes of them is one for
    which [writeAll] writes those same bytes back. *)
Theorem decodeMessage_bytes (id str : list byte) :
  msgidBytes (decodeMessage id str) = id
  /\ msgstrBytes (decodeMessage id str) = str.
Proof.
  unfold decodeMessage, msgidBytes, msgstrBytes, eotBytes, nulBytes.
  destruct (Index_byte Byte.x04 id)
    as [[Hm _] | (ctxt & rest & -> & _ & Hm)]; rewrite Hm.
  - rewrite Z.eqb_refl. cbn [negb].
    destruct (Index_byte Byte.x00 id)
      as [[Hn _] | (i & plural & -> & _ & Hn)]; rewrite Hn.
    + rewrite Z.eqb_refl. now cbn.
    + replace (len i =? -1) with false
        by (symmetry; apply Z.eqb_neq; unfold len; lia).
      cbn [negb Ctxt Id IdPlural Str StrPlural contents].
      rewrite firstn_len_app, skipn_len_app.
      split; [reflexivity | apply Join_Split_loop].
  - replace (len ctxt =? -1) with false
      by (symmetry; apply Z.eqb_neq; unfold len; lia).
    cbn [negb]. rewrite firstn_len_app, skipn_len_app.
    destruct (Index_byte Byte.x00 rest)
      as [[Hn _] | (i & plural & -> & _ & Hn)]; rewrite Hn.
    + rewrite Z.eqb_refl. now cbn.
    + replace (len i =? -1) with false
        by (symmetry; apply Z.eqb_neq; unfold len; lia).
      cbn [negb Ctxt Id IdPlural Str StrPlural contents].
      rewrite firstn_len_app, skipn_len_app.
      split; [now rewrite <- app_assoc | apply Join_Split_loop].
Qed.

(** X16. The messages read are well formed.  The message [Next] makes of
    a msgid and a msgstr has an id without NUL byte; a context only if
    the msgid holds an EOT byte, and then one without EOT byte; and
    either no plural id, the msgstr as its [Str] and no plural strings,
    or a plural id, a nil [Str] and plural strings that joined by NUL
    give the msgstr. *)
Theorem decodeMessage_shape (id str : list byte) :
  (exists i, Id (decodeMessage id str) = Some i /\ ~ In Byte.x00 i)
  /\ (forall c, Ctxt (decodeMessage id str) = Some c -> ~ In Byte.x04 c)
  /\ (Ctxt (decodeMessage id str) = None <-> ~ In Byte.x04 id)
  /\ ((IdPlural (decodeMessage id str) = None
       /\ Str (decodeMessage id str) = Some str
       /\ StrPlural (decodeMessage id str) = [])
      \/ (exists p, IdPlural (decodeMessage id str) = Some p
                    /\ Str (decodeMessage id str) = None
                    /\ Join (StrPlural (decodeMessage id str)) nulBytes
                       = str)).
Proof.
  unfold decodeMessage, eotBytes, nulBytes.
  destruct (Index_byte Byte.x04 id)
    as [[Hm Hno] | (ctxt & rest & -> & Hctxt & Hm)]; rewrite Hm.
  - rewrite Z.eqb_refl. cbn [negb].
    destruct (Index_byte Byte.x00 id)
      as [[Hn Hnul] | (i & plural & -> & Hi & Hn)]; rewrite Hn.
    + rewrite Z.eqb_refl. cbn.
      repeat split; try tauto; try discriminate; eauto.
    + replace (len i =? -1) with false
        by (symmetry; apply Z.eqb_neq; unfold len; lia).
      cbn [negb Ctxt Id IdPlural Str StrPlural].
      rewrite firstn_len_app, skipn_len_app.
      repeat split; try tauto; try discriminate; eauto.
      right. eexists. repeat split. apply Join_Split_loop.
  - replace (len ctxt =? -1) with false
      by (symmetry; apply Z.eqb_neq; unfold len; lia).
    cbn [negb]. rewrite firstn_len_app, skipn_len_app.
    assert (Hin : In Byte.x04 (ctxt ++ Byte.x04 :: rest))
      by (apply in_or_app; right; now left).
    destruct (Index_byte Byte.x00 rest)
      as [[Hn Hnul] | (i & plural & -> & Hi & Hn)]; rewrite Hn.
    + rewrite Z.eqb_refl. cbn.
      repeat split; try tauto; try discriminate; eauto.
      intros c E. injection E as <-. exact Hctxt.
    + replace (len i =? -1) with false
        by (symmetry; apply Z.eqb_neq; unfold len; lia).
      cbn [negb Ctxt Id IdPlural Str StrPlural].
      rewrite firstn_len_app, skipn_len_app.
      repeat split; try tauto; try discriminate; eauto.
      * intros c E. injection E as <-. exact Hctxt.
      * right. eexists. repeat split. apply Join_Split_loop.
Qed.

(** * gettext: the MO reader *)

Section ReaderFacts.

Context {RS : Type} `{ReadSeeker RS}.

Lemma seek_frame (r : moReader RS) (off : Z) :
  order (snd (seek r off)) = order r
  /\ header (snd (seek r off)) = header r
  /\ r_pos (snd (seek r off)) = r_pos r
  /\ r_err (snd (seek r off)) = r_err r.
Proof.
  unfold seek. destruct (Seek (reader r) _ 1) as [[n [e |]] rs]; simpl; auto.
Qed.

Lemma readMessage_frame (r r' : moReader RS) (off : Z) (b : slice)
    (e : option error) :
  readMessage r off = Returns (b, e, r') ->
  order r' = order r /\ header r' = header r /\ r_pos r' = r_pos r
  /\ r_err r' = r_err r /\ (e = None -> b <> None).
Proof.
  unfold readMessage.
  destruct (seek_frame r off) as (Ho & Hh & Hp & He).
  destruct (seek r off) as [[e1 |] r1]; simpl in Ho, Hh, Hp, He.
  { intros E. injection E as <- <- <-. repeat split; auto; discriminate. }
  destruct (readBytes (reader r1) 8) as [[b1 [e2 |]] rs2].
  { intros E. injection E as <- <- <-. simpl. repeat split; auto; discriminate. }
  cbn [order]. destruct (order r1) as [o |] eqn:Eo; [| discriminate].
  match goal with
  | |- context [seek ?r2 ?o2] =>
    destruct (seek_frame r2 o2) as (Ho3 & Hh3 & Hp3 & He3);
      destruct (seek r2 o2) as [[e3 |] r3]
  end; simpl in Ho3, Hh3, Hp3, He3.
  { intros E. injection E as <- <- <-.
    repeat split; try congruence; discriminate. }
  destruct (readBytes (reader r3) _) as [[b4 [e4 |]] rs4].
  { intros E. injection E as <- <- <-. simpl.
    repeat split; try congruence; discriminate. }
  intros E. injection E as <- <- <-. simpl.
  repeat split; try congruence; discriminate.
Qed.

Lemma readHeader_frame (r : moReader RS) :
  header (snd (readHeader r)) = header r
  /\ r_pos (snd (readHeader r)) = r_pos r
  /\ r_err (snd (readHeader r)) = r_err r.
Proof.
  unfold readHeader.
  destruct (seek_frame r 0) as (_ & Hh & Hp & He).
  destruct (seek r 0) as [[e1 |] r1]; simpl in Hh, Hp, He; [simpl; auto |].
  destruct (readBytes (reader r1) 4) as [[b1 [e2 |]] rs2]; [simpl; auto |].
  destruct (Uint32 LittleEndian b1 =? bigEndian);
    [| destruct (Uint32 LittleEndian b1 =? littleEndian); [| simpl; auto]];
    cbn [reader order offset header r_pos r_err];
    (destruct (readBytes rs2 4) as [[b3 [e3 |]] rs3]; [simpl; auto |]);
    match goal with
    | |- context [if ?c then _ else _] => destruct c; [simpl; auto |]
    end;
    cbn [reader order offset header r_pos r_err];
    (destruct (readBytes rs3 20) as [[b4 [e4 |]] rs4]; simpl; auto).
Qed.

Lemma init_header (r : moReader RS) :
  header (init r) <> None
  /\ r_pos (init r) = r_pos r
  /\ (header r <> None -> init r = r).
Proof.
  unfold init. destruct (header r) as [h |] eqn:Eh.
  - repeat split; congruence.
  - destruct (readHeader_frame r) as (_ & Hp & _).
    destruct (readHeader r) as [[h [e |]] r1]; simpl in *;
      repeat split; try discriminate; try congruence.
Qed.

(** X17. The reader is frozen by its first error.  Once [Next] has
    reported an error, whatever the stream does, it comes without a
    message, and every later call reports the same error and leaves the
    reader, the stream included, as it is. *)
Theorem moReader_Next_sticky (r r' : moReader RS) (m : option Message)
    (e : error) :
  moReader_Next r = Returns (m, Some e, r') ->
  m = None /\ moReader_Next r' = Returns (None, Some e, r').
Proof.
  unfold moReader_Next at 1.
  destruct (init_header r) as (Hh & _ & _).
  set (r0 := init r) in *.
  assert (Hfrozen : forall r1 : moReader RS,
            header r1 <> None -> r_err r1 = Some e ->
            moReader_Next r1 = Returns (None, Some e, r1)).
  { intros r1 Hh1 He1. unfold moReader_Next.
    rewrite (proj2 (proj2 (init_header r1)) Hh1), He1. reflexivity. }
  destruct (r_err r0) as [e0 |] eqn:Ee.
  { intros E. injection E as <- <- <-. split; [reflexivity |].
    now apply Hfrozen. }
  destruct (MsgCount (header_of r0) <=? r_pos r0).
  { intros E. injection E as <- <- <-. split; [reflexivity |].
    now apply Hfrozen. }
  destruct (readMessage r0 _) as [[[id e1] r1] |] eqn:E1; [| discriminate].
  destruct (readMessage_frame _ _ _ _ _ E1) as (_ & Hh1 & _).
  cbn [bind]. destruct e1 as [e1 |].
  { intros E. injection E as <- <- <-. split; [reflexivity |].
    apply Hfrozen; [simpl; congruence | reflexivity]. }
  destruct (readMessage r1 _) as [[[str e2] r2] |] eqn:E2; [| discriminate].
  destruct (readMessage_frame _ _ _ _ _ E2) as (_ & Hh2 & _).
  cbn [bind]. destruct e2 as [e2 |]; [| discriminate].
  intros E. injection E as <- <- <-. split; [reflexivity |].
  apply Hfrozen; [simpl; congruence | reflexivity].
Qed.

(** A message [Next] returns is made by [decodeMessage]. *)
Lemma moReader_Next_message (r r' : moReader RS) (m : Message) :
  moReader_Next r = Returns (Some m, None, r') ->
  (exists id str, m = decodeMessage id str)
  /\ header r' = header (init r)
  /\ r_err r' = None
  /\ r_pos (init r) < MsgCount (header_of (init r))
  /\ r_pos r' = uint32 (r_pos (init r) + 1).
Proof.
  unfold moReader_Next.
  set (r0 := init r) in *.
  destruct (r_err r0) as [e0 |] eqn:Ee; [discriminate |].
  destruct (Z.leb_spec (MsgCount (header_of r0)) (r_pos r0)) as [Hle | Hlt];
    [discriminate |].
  destruct (readMessage r0 _) as [[[id e1] r1] |] eqn:E1; [| discriminate].
  destruct (readMessage_frame _ _ _ _ _ E1) as (_ & Hh1 & Hp1 & He1 & _).
  cbn [bind]. destruct e1 as [e1 |]; [discriminate |].
  destruct (readMessage r1 _) as [[[str e2] r2] |] eqn:E2; [| discriminate].
  destruct (readMessage_frame _ _ _ _ _ E2) as (_ & Hh2 & Hp2 & He2 & _).
  cbn [bind]. destruct e2 as [e2 |]; [discriminate |].
  intros E. injection E as <- <-. simpl.
  repeat split; eauto; congruence.
Qed.

Lemma moReader_Next_some (r r' : moReader RS) (m : option Message) :
  moReader_Next r = Returns (m, None, r') -> exists msg, m = Some msg.
Proof.
  unfold moReader_Next.
  destruct (r_err (init r)) as [e0 |]; [discriminate |].
  destruct (MsgCount (header_of (init r)) <=? r_pos (init r));
    [discriminate |].
  destruct (readMessage (init r) _) as [[[id e1] r1] |]; [| discriminate].
  cbn [bind]. destruct e1 as [e1 |]; [discriminate |].
  destruct (readMessage r1 _) as [[[str e2] r2] |]; [| discriminate].
  cbn [bind]. destruct e2 as [e2 |]; [discriminate |].
  intros E. injection E as <- _. eauto.
Qed.

Lemma byte_value_range (b : byte) : 0 <= byte_value b <= 255.
Proof. unfold byte_value. pose proof (Byte.to_N_bounded b). lia. Qed.

Lemma lor_le_add (a b : Z) : 0 <= a -> 0 <= b -> 0 <= Z.lor a b <= a + b.
Proof.
  intros Ha Hb. split; [now apply Z.lor_nonneg |].
  pose proof (Zbitwise.Z.add_lor_land a b).
  assert (0 <= Z.land a b) by (apply Z.land_nonneg; now left). lia.
Qed.

Lemma Uint32_range (o : ByteOrder) (b : list byte) :
  0 <= Uint32 o b < 2 ^ 32.
Proof.
  unfold Uint32.
  pose proof (byte_value_range (nth 0 b Byte.x00)) as H0.
  pose proof (byte_value_range (nth 1 b Byte.x00)) as H1.
  pose proof (byte_value_range (nth 2 b Byte.x00)) as H2.
  pose proof (byte_value_range (nth 3 b Byte.x00)) as H3.
  set (b0 := byte_value (nth 0 b Byte.x00)) in *.
  set (b1 := byte_value (nth 1 b Byte.x00)) in *.
  set (b2 := byte_value (nth 2 b Byte.x00)) in *.
  set (b3 := byte_value (nth 3 b Byte.x00)) in *.
  destruct o; rewrite !Z.shiftl_mul_pow2 by lia;
    change (2 ^ 8) with 256; change (2 ^ 16) with 65536;
    change (2 ^ 24) with 16777216; change (2 ^ 32) with 4294967296.
  - pose proof (lor_le_add b0 (b1 * 256)).
    pose proof (lor_le_add (Z.lor b0 (b1 * 256)) (b2 * 65536)).
    pose proof (lor_le_add (Z.lor (Z.lor b0 (b1 * 256)) (b2 * 65536))
                  (b3 * 16777216)).
    lia.
  - pose proof (lor_le_add b3 (b2 * 256)).
    pose proof (lor_le_add (Z.lor b3 (b2 * 256)) (b1 * 65536)).
    pose proof (lor_le_add (Z.lor (Z.lor b3 (b2 * 256)) (b1 * 65536))
                  (b0 * 16777216)).
    lia.
Qed.

Lemma readHeader_MsgCount (r : moReader RS) :
  0 <= MsgCount (fst (fst (readHeader r))) < 2 ^ 32.
Proof.
  assert (Hz : 0 <= MsgCount zeroHeader < 2 ^ 32) by (simpl; lia).
  unfold readHeader.
  destruct (seek r 0) as [[e1 |] r1]; [exact Hz |].
  destruct (readBytes (reader r1) 4) as [[b1 [e2 |]] rs2]; [exact Hz |].
  destruct (Uint32 LittleEndian b1 =? bigEndian);
    [| destruct (Uint32 LittleEndian b1 =? littleEndian); [| exact Hz]];
    cbn [reader order offset header r_pos r_err];
    (destruct (readBytes rs2 4) as [[b3 [e3 |]] rs3]; [exact Hz |]);
    match goal with
    | |- context [if ?c then _ else _] => destruct c; [exact Hz |]
    end;
    cbn [reader order offset header r_pos r_err];
    (destruct (readBytes rs3 20) as [[b4 [e4 |]] rs4]; [exact Hz |]);
    cbn [fst MsgCount]; apply Uint32_range.
Qed.

Lemma ReadMo_init (rs : RS) :
  exists h,
    header (init (ReadMo rs)) = Some h
    /\ 0 <= MsgCount h < 2 ^ 32
    /\ r_pos (init (ReadMo rs)) = 0
    /\ fst (moReader_Size (ReadMo rs)) = MsgCount h.
Proof.
  unfold moReader_Size, header_of, init. cbn [header ReadMo].
  pose proof (readHeader_MsgCount (ReadMo rs)) as Hc.
  destruct (readHeader_frame (ReadMo rs)) as (_ & Hp & _).
  destruct (readHeader (ReadMo rs)) as [[h [e |]] r1];
    cbn [fst snd header r_pos] in *.
  - exists zeroHeader. repeat split; auto; simpl; lia.
  - exists h. repeat split; auto; lia.
Qed.

Lemma collect_moReader (h : moHeader) (n : nat) :
  forall (r r' : moReader RS) (ms : list (option Message)) (k : Z),
    header (init r) = Some h -> 0 <= MsgCount h < 2 ^ 32 ->
    r_pos (init r) = k -> 0 <= k <= MsgCount h ->
    collect n r = Returns (ms, None, r') ->
    k + Z.of_nat n <= MsgCount h
    /\ length ms = n
    /\ Forall (fun m => m <> None) ms
    /\ header (init r') = Some h
    /\ r_pos (init r') = k + Z.of_nat n.
Proof.
  induction n as [| n IH]; intros r r' ms k Hh Hc Hp Hk E.
  - injection E as <- <-. simpl. repeat split; auto; lia.
  - cbn [collect Next moReader_Iterator] in E.
    destruct (moReader_Next r) as [[[m e] r1] |] eqn:E1; [| discriminate].
    cbn [bind] in E. destruct e as [e |]; [discriminate |].
    destruct (moReader_Next_some _ _ _ E1) as (msg & ->).
    destruct (moReader_Next_message _ _ _ E1) as (_ & Hh1 & He1 & Hlt & Hp1).
    rewrite Hp in Hlt, Hp1. unfold header_of in Hlt. rewrite Hh in Hlt.
    unfold uint32 in Hp1. rewrite Z.mod_small in Hp1 by lia.
    assert (Hi1 : init r1 = r1)
      by (apply init_header; rewrite Hh1, Hh; discriminate).
    destruct (collect n r1) as [[[rest e2] r2] |] eqn:E2; [| discriminate].
    cbn [bind] in E. injection E as Hms He2 Hr. subst ms e2 r2.
    destruct (IH r1 r' rest (k + 1)) as (Hle & Hlen & Hall & Hh2 & Hp2);
      rewrite ?Hi1; try congruence; try lia.
    repeat split; try lia; auto.
    + simpl. now rewrite Hlen.
    + constructor; [discriminate | exact Hall].
Qed.

(** X18. A reader gives no more messages than it announces.  On a fresh
    reader, [n] calls of [Next] that all come without an error give [n]
    messages, none of them nil, and [n] is at most [Size()]; when [n] is
    [Size()], the next call reports an error and no message. *)
Theorem moReader_count (rs : RS) (n : nat) (ms : list (option Message))
    (r' : moReader RS) :
  collect n (ReadMo rs) = Returns (ms, None, r') ->
  Z.of_nat n <= fst (moReader_Size (ReadMo rs))
  /\ length ms = n
  /\ Forall (fun m => m <> None) ms
  /\ (Z.of_nat n = fst (moReader_Size (ReadMo rs)) ->
      exists e r'', moReader_Next r' = Returns (None, Some e, r'')).
Proof.
  intros E. destruct (ReadMo_init rs) as (h & Hh & Hc & Hp & ->).
  destruct (collect_moReader h n _ _ _ 0 Hh Hc Hp ltac:(lia) E)
    as (Hle & Hlen & Hall & Hh' & Hp').
  repeat split; auto; try lia.
  intros Hn. unfold moReader_Next.
  destruct (r_err (init r')) as [e |] eqn:Ee; [eauto |].
  unfold header_of. rewrite Hh', Hp'.
  replace (MsgCount h <=? 0 + Z.of_nat n) with true
    by (symmetry; apply Z.leb_le; lia).
  eauto.
Qed.

End ReaderFacts.

Lemma moReader_Next_sticky_witness :
  (None : option Message) = None
  /\ moReader_Next
       (mkReader (mkMem [] 0) None 0 (Some zeroHeader) 0 (Some io_EOF))
     = Returns (None, Some io_EOF,
                mkReader (mkMem [] 0) None 0 (Some zeroHeader) 0
                  (Some io_EOF)).
Proof.
  apply (moReader_Next_sticky (ReadMo (mkMem [] 0))
           (mkReader (mkMem [] 0) None 0 (Some zeroHeader) 0 (Some io_EOF))
           None io_EOF).
  reflexivity.
Defined.

Lemma moReader_count_witness :
  Z.of_nat 3 <= fst (moReader_Size (ReadMo (mkMem exampleMo 0)))
  /\ length (match collect 3 (ReadMo (mkMem exampleMo 0)) with
             | Returns (ms, _, _) => ms
             | Panics => []
             end) = 3%nat
  /\ Forall (fun m => m <> None)
       (match collect 3 (ReadMo (mkMem exampleMo 0)) with
        | Returns (ms, _, _) => ms
        | Panics => []
        end)
  /\ (Z.of_nat 3 = fst (moReader_Size (ReadMo (mkMem exampleMo 0))) ->
      exists e r'',
        moReader_Next (match collect 3 (ReadMo (mkMem exampleMo 0)) with
                       | Returns (_, _, r) => r
                       | Panics => ReadMo (mkMem exampleMo 0)
                       end)
        = Returns (None, Some e, r'')).
Proof.
  apply (moReader_count (mkMem exampleMo 0) 3).
  vm_compute. reflexivity.
Defined.

(** * gettext: the catalog as a whole *)

Section CatalogInvariant.

Variable ReadMIMEHeader : list byte -> MIMEHeader * option error.

Lemma setMessage_consistent (c : Catalog) (msg : Message) :
  consistent c ->
  consistent (snd (Gettext.setMessage ReadMIMEHeader c msg))
  /\ (length (keys (snd (Gettext.setMessage ReadMIMEHeader c msg)))
      <= S (length (keys c)))%nat
  /\ (forall k, In k (keys c) ->
        map_get (msgs (snd (Gettext.setMessage ReadMIMEHeader c msg))) k
        = map_get (msgs c) k).
Proof.
  intros [Hnd Hkeys].
  destruct (Gettext.setMessage ReadMIMEHeader c msg) as [[e |] c'] eqn:E.
  - assert (c' = c) as ->.
    { revert E. unfold Gettext.setMessage.
      destruct (key (Ctxt msg) (Id msg)) as [k [e0 |]];
        [intros E; now injection E |].
      destruct (map_get (msgs c) k); [intros E; now injection E |].
      destruct (len k =? 0); [destruct (Header c) |];
        intros E; try discriminate; now injection E. }
    simpl. split; [exact (conj Hnd Hkeys) | split; [lia | reflexivity]].
  - destruct (setMessage_ok ReadMIMEHeader c c' msg E)
      as (k & _ & Hnone & Hm & Hk).
    assert (Hnew : ~ In k (keys c)) by (intros Hin; now apply Hkeys in Hin).
    unfold consistent. simpl. rewrite Hm, Hk.
    split; [split; [| intros k0; split] | split].
    + apply NoDup_app; [exact Hnd | repeat constructor; intros [] |].
      intros x Hx [<- | []]. contradiction.
    + intros Hin. apply in_app_or in Hin.
      destruct (list_eq_dec Byte.byte_eq_dec k k0) as [<- | N].
      * rewrite map_get_set_same. discriminate.
      * rewrite map_get_set_other by exact N.
        destruct Hin as [Hin | [<- | []]]; [now apply Hkeys | contradiction].
    + intros Hget. apply in_or_app.
      destruct (list_eq_dec Byte.byte_eq_dec k k0) as [<- | N].
      * right. now left.
      * rewrite map_get_set_other in Hget by exact N.
        left. now apply Hkeys.
    + rewrite length_app. simpl. lia.
    + intros k0 Hin. apply map_get_set_other. intros <-. contradiction.
Qed.

Lemma Catalog_ReadMo_loop_consistent {I : Type} `{Iterator I} (n : nat) :
  forall (it it' : I) (c c' : Catalog) (e : option error),
    consistent c ->
    Catalog_ReadMo_loop ReadMIMEHeader n it c = Returns (e, c', it') ->
    consistent c'
    /\ (length (keys c') <= length (keys c) + n)%nat
    /\ (forall k, In k (keys c) ->
          In k (keys c') /\ map_get (msgs c') k = map_get (msgs c) k).
Proof.
  induction n as [| n IH]; intros it it' c c' e Hc E.
  - injection E as _ <- _. split; [exact Hc | split; [lia | auto]].
  - cbn [Catalog_ReadMo_loop] in E.
    destruct (Next it) as [[[m e1] it1] |]; [| discriminate].
    cbn [bind] in E. destruct e1 as [e1 |].
    { injection E as _ <- _. split; [exact Hc | split; [lia | auto]]. }
    destruct m as [m |]; [| discriminate].
    destruct (setMessage_consistent c m Hc) as (Hc1 & Hlen1 & Hkeep1).
    destruct (Gettext.setMessage ReadMIMEHeader c m) as [e2 c1] eqn:Es.
    cbn [snd] in *.
    destruct (IH _ _ _ _ _ Hc1 E) as (Hc' & Hlen' & Hkeep').
    split; [exact Hc' | split; [lia |]].
    intros k Hin.
    assert (Hin1 : In k (keys c1)).
    { destruct Hc as [_ Hk]. destruct Hc1 as [_ Hk1].
      apply Hk1. rewrite Hkeep1 by assumption. now apply Hk. }
    split; [now apply Hkeep' |].
    rewrite (proj2 (Hkeep' k Hin1)). now apply Hkeep1.
Qed.

(** X19. Reading a MO file keeps the catalog in order and adds to it
    only.  Whatever the stream holds and however the reading ends, after
    [Catalog.ReadMo] on a catalog whose keys are those of its messages,
    each once, the keys are again those of the messages, each once; and
    every message the catalog had is still there, under its key,
    unchanged. *)
Theorem Catalog_ReadMo_consistent {RS : Type} `{ReadSeeker RS}
    (c c' : Catalog) (rs : RS) (e : option error) (r' : moReader RS) :
  consistent c ->
  Catalog_ReadMo ReadMIMEHeader c rs = Returns (e, c', r') ->
  consistent c'
  /\ (forall k, In k (keys c) ->
        In k (keys c') /\ map_get (msgs c') k = map_get (msgs c) k).
Proof.
  intros Hc E. unfold Catalog_ReadMo in E.
  destruct (Size (ReadMo rs)) as [size it].
  destruct (Catalog_ReadMo_loop_consistent _ _ _ _ _ _ Hc E)
    as (Hc' & _ & Hkeep).
  split; assumption.
Qed.

End CatalogInvariant.

Lemma NewCatalog_consistent : consistent NewCatalog.
Proof.
  split; [constructor |]. intros k. simpl. split; [intros [] | congruence].
Qed.

Lemma Catalog_ReadMo_consistent_witness :
  consistent
    (match Catalog_ReadMo exampleReadMIMEHeader NewCatalog
             (mkMem exampleMo 0) with
     | Returns (_, c, _) => c
     | Panics => NewCatalog
     end)
  /\ (forall k, In k (keys NewCatalog) ->
        In k (keys (match Catalog_ReadMo exampleReadMIMEHeader NewCatalog
                            (mkMem exampleMo 0) with
                    | Returns (_, c, _) => c
                    | Panics => NewCatalog
                    end))
        /\ map_get
             (msgs (match Catalog_ReadMo exampleReadMIMEHeader NewCatalog
                            (mkMem exampleMo 0) with
                    | Returns (_, c, _) => c
                    | Panics => NewCatalog
                    end)) k
           = map_get (msgs NewCatalog) k).
Proof.
  apply (Catalog_ReadMo_consistent exampleReadMIMEHeader NewCatalog _
           (mkMem exampleMo 0) None
           (match Catalog_ReadMo exampleReadMIMEHeader NewCatalog
                    (mkMem exampleMo 0) with
            | Returns (_, _, r) => r
            | Panics => ReadMo (mkMem exampleMo 0)
            end));
    [exact NewCatalog_consistent | vm_compute; reflexivity].
Defined.

(** *** Iterating over a catalog *)

Lemma collect_catalogIterator (M : msgmap) (h : option MIMEHeader)
    (K : list gostring) (suffix : list gostring) :
  forall (prefix : list gostring) (i : catalogIterator),
    K = prefix ++ suffix -> NoDup K ->
    keys (ctg i) = K -> Header (ctg i) = h -> pos i = len prefix ->
    (forall k, In k suffix -> map_get (msgs (ctg i)) k = map_get M k) ->
    (forall k, In k suffix -> map_get M k <> None) ->
    exists i',
      collect (length suffix) i
      = Returns (map (yielded M h) suffix, None, i')
      /\ keys (ctg i') = K /\ pos i' = len K.
Proof.
  induction suffix as [| k rest IH]; intros prefix i HK Hnd Hkeys Hh Hpos Hm Hin.
  - exists i. rewrite app_nil_r in HK. subst K. simpl. auto.
  - assert (Hk : nth (Z.to_nat (pos i)) (keys (ctg i)) [] = k).
    { rewrite Hkeys, HK, Hpos. unfold len. rewrite Nat2Z.id.
      rewrite app_nth2, Nat.sub_diag by lia. reflexivity. }
    assert (Hlt : (pos i <? len (keys (ctg i))) = true).
    { apply Z.ltb_lt. rewrite Hkeys, HK, Hpos. unfold len.
      rewrite length_app. simpl. lia. }
    destruct (map_get M k) as [m |] eqn:Em;
      [| exfalso; apply (Hin k); [now left | exact Em]].
    assert (Hrest : forall k', In k' rest -> k <> k').
    { intros k' Hk' <-. rewrite HK in Hnd.
      apply NoDup_remove_2 in Hnd. apply Hnd, in_or_app. now right. }
    cbn [collect Next catalogIterator_Iterator length map].
    unfold catalogIterator_Next. rewrite Hlt, Hk.
    rewrite (Hm k) by now left. unfold yielded at 1. rewrite Em.
    destruct (len k =? 0) eqn:E0; cbn [bind].
    + match goal with
      | |- context [collect _ ?i1] =>
        destruct (IH (prefix ++ [k]) i1) as (i' & Ec & Hk' & Hp')
      end; cbn [ctg keys Header msgs pos]; auto.
      * now rewrite <- app_assoc.
      * rewrite Hpos. unfold len. rewrite length_app. simpl. lia.
      * intros k' Hk'. rewrite map_get_set_other by now apply Hrest.
        apply Hm. now right.
      * intros k' Hk'. apply Hin. now right.
      * rewrite Ec. cbn [bind]. rewrite Hh. eauto.
    + match goal with
      | |- context [collect _ ?i1] =>
        destruct (IH (prefix ++ [k]) i1) as (i' & Ec & Hk' & Hp')
      end; cbn [ctg keys Header msgs pos]; auto.
      * now rewrite <- app_assoc.
      * rewrite Hpos. unfold len. rewrite length_app. simpl. lia.
      * intros k' Hk'. apply Hm. now right.
      * intros k' Hk'. apply Hin. now right.
      * rewrite Ec. cbn [bind]. eauto.
Qed.

(** X20. The iterator of a catalog gives every message once, in the order
    of the keys.  For a catalog whose keys are those of its messages,
    each once, [Size()] calls of [Next] on [Iter()] come without an error
    and give, for each key in increasing order, the message stored under
    it (with the header written to its [Str] for the empty key); the call
    after them reports [io.EOF] and changes nothing. *)
Theorem Iter_enumerates (c : Catalog) :
  consistent c ->
  catalogIterator_Size (Iter c) = len (keys c)
  /\ Permutation.Permutation (keys c) (sort_Strings (keys c))
  /\ Sorted.Sorted (fun a b => string_leb a b = true)
       (sort_Strings (keys c))
  /\ Forall (fun m => m <> None)
       (map (yielded (msgs c) (Header c)) (sort_Strings (keys c)))
  /\ exists i',
       collect (length (keys c)) (Iter c)
       = Returns (map (yielded (msgs c) (Header c)) (sort_Strings (keys c)),
                  None, i')
       /\ catalogIterator_Next i' = Returns (None, Some io_EOF, i').
Proof.
  intros [Hnd Hkeys].
  pose proof (StringSort.Permuted_sort (keys c)) as Hperm.
  fold (sort_Strings (keys c)) in Hperm.
  assert (Hlen : length (sort_Strings (keys c)) = length (keys c))
    by (symmetry; now apply Permutation.Permutation_length).
  assert (Hin : forall k, In k (sort_Strings (keys c)) ->
                  map_get (msgs c) k <> None).
  { intros k Hk. apply Hkeys.
    apply (Permutation.Permutation_in k (Permutation.Permutation_sym Hperm)).
    exact Hk. }
  split; [| split; [| split; [| split]]].
  - unfold catalogIterator_Size, Iter, len. simpl. now rewrite Hlen.
  - exact Hperm.
  - apply StringSort.Sorted_sort.
  - apply Forall_forall. intros m Hm. apply in_map_iff in Hm.
    destruct Hm as (k & <- & Hk). unfold yielded.
    destruct (map_get (msgs c) k) eqn:E; [discriminate |].
    now apply Hin in Hk.
  - destruct (collect_catalogIterator (msgs c) (Header c)
                (sort_Strings (keys c)) (sort_Strings (keys c)) [] (Iter c))
      as (i' & Ec & Hk' & Hp'); auto.
    + now apply (Permutation.Permutation_NoDup Hperm).
    + exists i'. rewrite <- Hlen. split; [exact Ec |].
      unfold catalogIterator_Next. rewrite Hk', Hp', Z.ltb_irrefl.
      reflexivity.
Qed.

Lemma exampleCatalog_consistent : consistent exampleCatalog.
Proof.
  unfold exampleCatalog, exampleMessages. cbn [fold_left].
  repeat (apply setMessage_consistent). exact NewCatalog_consistent.
Qed.

Lemma Iter_enumerates_witness :
  catalogIterator_Size (Iter exampleCatalog) = len (keys exampleCatalog)
  /\ Permutation.Permutation (keys exampleCatalog)
       (sort_Strings (keys exampleCatalog))
  /\ Sorted.Sorted (fun a b => string_leb a b = true)
       (sort_Strings (keys exampleCatalog))
  /\ Forall (fun m => m <> None)
       (map (yielded (msgs exampleCatalog) (Header exampleCatalog))
          (sort_Strings (keys exampleCatalog)))
  /\ exists i',
       collect (length (keys exampleCatalog)) (Iter exampleCatalog)
       = Returns (map (yielded (msgs exampleCatalog)
                         (Header exampleCatalog))
                    (sort_Strings (keys exampleCatalog)),
                  None, i')
       /\ catalogIterator_Next i' = Returns (None, Some io_EOF, i').
Proof.
  apply (Iter_enumerates exampleCatalog).
  exact exampleCatalog_consistent.
Defined.

End GettextFacts.

(** * gettext: writing a MO file and reading it back *)

Module MoFileFacts.

Import Gettext.

#[local] Abbreviation byte := Byte.byte.

(** *** Bytes in a file *)

Lemma length_put (d : list byte) (off : Z) (b : list byte) :
  length (put d off b)
  = Nat.max (length d) (Z.to_nat off + length b).
Proof.
  unfold put. rewrite !length_app, length_firstn, length_skipn, length_app,
    repeat_length. lia.
Qed.

Lemma nth_put (d : list byte) (off : Z) (b : list byte) (i : nat) :
  nth i (put d off b) Byte.x00
  = if (Z.to_nat off <=? i)%nat && (i <? Z.to_nat off + length b)%nat
    then nth (i - Z.to_nat off) b Byte.x00
    else nth i d Byte.x00.
Proof.
  unfold put. set (o := Z.to_nat off).
  assert (Hpre : length (firstn o (d ++ repeat Byte.x00 (o - length d))) = o)
    by (rewrite length_firstn, length_app, repeat_length; lia).
  destruct (Nat.leb_spec o i) as [Hoi | Hio]; cbn [andb].
  - rewrite app_nth2 by lia. rewrite Hpre.
    destruct (Nat.ltb_spec i (o + length b)) as [Hib | Hbi].
    + now rewrite app_nth1 by lia.
    + rewrite app_nth2 by lia. rewrite nth_skipn. f_equal. lia.
  - rewrite app_nth1 by lia. rewrite nth_firstn.
    replace (i <? o)%nat with true by (symmetry; apply Nat.ltb_lt; lia).
    destruct (Nat.lt_ge_cases i (length d)) as [Hid | Hdi].
    + now rewrite app_nth1 by lia.
    + rewrite app_nth2 by lia. rewrite nth_repeat.
      now rewrite nth_overflow by lia.
Qed.

Lemma holds_put_same (d : list byte) (off : Z) (b : list byte) :
  0 <= off -> holds (put d off b) off b.
Proof.
  intros Hoff. unfold holds, len. rewrite length_put.
  split; [exact Hoff | split; [lia |]].
  intros j Hj. rewrite nth_put.
  replace (Z.to_nat off <=? Z.to_nat off + j)%nat with true
    by (symmetry; apply Nat.leb_le; lia).
  replace (Z.to_nat off + j <? Z.to_nat off + length b)%nat with true
    by (symmetry; apply Nat.ltb_lt; lia).
  cbn [andb]. f_equal. lia.
Qed.

(** Writing elsewhere leaves what the data holds. *)
Lemma holds_put_other (d : list byte) (off : Z) (b : list byte) (o : Z)
    (x : list byte) :
  holds d o x -> 0 <= off ->
  o + len x <= off \/ off + len b <= o ->
  holds (put d off b) o x.
Proof.
  intros (Ho & Hlen & Hnth) Hoff Hdis. unfold holds, len in *.
  rewrite length_put. split; [exact Ho | split; [lia |]].
  intros j Hj. rewrite nth_put, <- (Hnth j Hj).
  destruct (Nat.leb_spec (Z.to_nat off) (Z.to_nat o + j));
    destruct (Nat.ltb_spec (Z.to_nat o + j) (Z.to_nat off + length b));
    cbn [andb]; try reflexivity.
  exfalso. lia.
Qed.

Lemma holds_app (d : list byte) (o : Z) (a b : list byte) :
  holds d o (a ++ b) <-> holds d o a /\ holds d (o + len a) b.
Proof.
  unfold holds, len. rewrite length_app. split.
  - intros (Ho & Hlen & Hnth). repeat split; try lia.
    + intros j Hj. rewrite (Hnth j) by lia. now rewrite app_nth1 by lia.
    + intros j Hj.
      replace (Z.to_nat (o + Z.of_nat (length a)) + j)%nat
        with (Z.to_nat o + (length a + j))%nat by lia.
      rewrite (Hnth (length a + j)%nat) by lia.
      rewrite app_nth2 by lia. f_equal. lia.
  - intros ((Ho & Hlen & Hnth) & (Ho' & Hlen' & Hnth')).
    repeat split; try lia.
    intros j Hj. destruct (Nat.lt_ge_cases j (length a)) as [Hja | Haj].
    + rewrite app_nth1 by lia. now apply Hnth.
    + rewrite app_nth2 by lia. rewrite <- (Hnth' (j - length a)%nat) by lia.
      f_equal. lia.
Qed.

(** What the data holds is what is read there. *)
Lemma holds_read (d : list byte) (o : Z) (x : list byte) :
  holds d o x ->
  firstn (length x) (skipn (Z.to_nat o) d) = x.
Proof.
  intros (Ho & Hlen & Hnth). unfold len in Hlen.
  apply (nth_ext _ _ Byte.x00 Byte.x00).
  - rewrite length_firstn, length_skipn. lia.
  - intros j Hj. rewrite length_firstn, length_skipn in Hj.
    rewrite nth_firstn.
    replace (j <? length x)%nat with true by (symmetry; apply Nat.ltb_lt; lia).
    rewrite nth_skipn. apply Hnth. lia.
Qed.

(** *** Little endian numbers *)

Lemma byte_value_byte_of (z : Z) : byte_value (byte_of z) = z mod 256.
Proof.
  unfold byte_value, byte_of.
  pose proof (Z.mod_pos_bound z 256 ltac:(lia)) as Hm.
  pose proof (Byte.to_of_N_option_map (Z.to_N (z mod 256))) as H.
  replace (N.leb (Z.to_N (z mod 256)) 255) with true in H
    by (symmetry; apply N.leb_le; lia).
  destruct (Byte.of_N (Z.to_N (z mod 256))) as [b |]; [| discriminate].
  simpl in H. injection H as ->. lia.
Qed.

Lemma land_shiftl_small (a c n : Z) :
  0 <= a < 2 ^ n -> 0 <= n -> Z.land a (Z.shiftl c n) = 0.
Proof.
  intros Ha Hn. apply Z.bits_inj'. intros i Hi.
  rewrite Z.land_spec, Z.bits_0.
  destruct (Z.lt_ge_cases i n) as [Hin | Hni].
  - rewrite Z.shiftl_spec_low by lia. apply andb_false_r.
  - rewrite <- (Z.mod_small a (2 ^ n)) by lia.
    rewrite Z.mod_pow2_bits_high by lia. reflexivity.
Qed.

Lemma lor_shiftl_add (a c n : Z) :
  0 <= a < 2 ^ n -> 0 <= n -> Z.lor a (Z.shiftl c n) = a + c * 2 ^ n.
Proof.
  intros Ha Hn.
  pose proof (Zbitwise.Z.add_lor_land a (Z.shiftl c n)) as H.
  rewrite (land_shiftl_small a c n Ha Hn) in H.
  rewrite <- (Z.shiftl_mul_pow2 c n) by lia. lia.
Qed.

Lemma Uint32_PutUint32 (v : Z) :
  0 <= v < 2 ^ 32 -> Uint32 LittleEndian (PutUint32 LittleEndian v) = v.
Proof.
  intros Hv. unfold Uint32, PutUint32. cbn [nth].
  rewrite !byte_value_byte_of, !Z.shiftr_div_pow2 by lia.
  change (2 ^ 8) with 256. change (2 ^ 16) with 65536.
  change (2 ^ 24) with 16777216. change (2 ^ 32) with 4294967296 in Hv.
  rewrite (lor_shiftl_add (v mod 256) _ 8)
    by (change (2 ^ 8) with 256; pose proof (Z.mod_pos_bound v 256); lia).
  change (2 ^ 8) with 256.
  rewrite (lor_shiftl_add _ _ 16);
    [| change (2 ^ 16) with 65536;
       pose proof (Z.mod_pos_bound v 256);
       pose proof (Z.mod_pos_bound (v / 256) 256); lia | lia].
  change (2 ^ 16) with 65536.
  rewrite (lor_shiftl_add _ _ 24);
    [| change (2 ^ 24) with 16777216;
       pose proof (Z.mod_pos_bound v 256);
       pose proof (Z.mod_pos_bound (v / 256) 256);
       pose proof (Z.mod_pos_bound (v / 65536) 256); lia | lia].
  change (2 ^ 24) with 16777216.
  Z.div_mod_to_equations. lia.
Qed.

Lemma length_PutUint32 (o : ByteOrder) (v : Z) : length (PutUint32 o v) = 4%nat.
Proof. now destruct o. Qed.

Lemma int64_small (z : Z) : - 2 ^ 63 <= z < 2 ^ 63 -> int64 z = z.
Proof. intros Hz. unfold int64. rewrite Z.mod_small by lia. lia. Qed.

Lemma uint32_small (z : Z) : 0 <= z < 2 ^ 32 -> uint32 z = z.
Proof. intros Hz. unfold uint32. now rewrite Z.mod_small. Qed.

(** *** The writer on a file in memory *)

Section WriterOnFile.

Context {I : Type} `{Iterator I}.

Lemma w_seek_mem (w : moWriter memFile I) (off : Z) :
  synced w -> 0 <= off < 2 ^ 33 ->
  w_seek w off = (None, mkWriter (mkMem (data (writer w)) off) (iter w) off).
Proof.
  intros [Hc Ho] Hoff. unfold w_seek. cbn [wSeek memFile_WriteSeeker].
  rewrite int64_small by lia. unfold mem_Seek.
  change (1 =? 0) with false. change (1 =? 1) with true. cbv iota.
  rewrite Hc. replace (w_offset w + (off - w_offset w)) with off by lia.
  replace (off <? 0) with false by (symmetry; apply Z.ltb_ge; lia).
  reflexivity.
Qed.

Lemma writeHeader_mem (w : moWriter memFile I) (h : moHeader) :
  synced w ->
  writeHeader w h
  = (None,
     mkWriter
       (mkMem
          (put (put (put (data (writer w)) 0
                       (PutUint32 LittleEndian littleEndian))
                  4 (PutUint16 LittleEndian 0 ++ PutUint16 LittleEndian 0))
             8 (headerBytes h))
          28)
       (iter w) 28).
Proof.
  intros Hs. unfold writeHeader.
  rewrite (w_seek_mem w 0 Hs) by lia.
  unfold writeBytes, add_offset.
  cbn [Write memFile_WriteSeeker mem_Write writer iter w_offset data cursor].
  rewrite int64_small by lia. reflexivity.
Qed.

Lemma writeMessage_mem (w : moWriter memFile I) (t o : Z) (b : list byte) :
  synced w -> 0 <= t < 2 ^ 32 -> 0 <= o -> o + len b + 1 < 2 ^ 32 ->
  writeMessage w t o b
  = (None,
     mkWriter
       (mkMem
          (put (put (data (writer w)) t
                  (positionBytes (mkPosition (len b) o)))
             o (b ++ nulBytes))
          (o + len b + 1))
       (iter w) (o + len b + 1)).
Proof.
  intros Hs Ht Ho Hb. unfold writeMessage.
  assert (Hlen : 0 <= len b) by (unfold len; lia).
  rewrite (w_seek_mem w t Hs) by lia.
  unfold writeBytes at 1.
  cbn [Write memFile_WriteSeeker mem_Write writer iter w_offset data cursor].
  rewrite uint32_small by lia.
  unfold add_offset at 1. cbn [writer iter w_offset].
  assert (Hp : len (positionBytes (mkPosition (len b) o)) = 8)
    by reflexivity.
  rewrite int64_small by lia.
  rewrite w_seek_mem;
    [| split; cbn [writer cursor w_offset]; [rewrite Hp; lia | lia] | lia].
  unfold writeBytes, add_offset.
  cbn [Write memFile_WriteSeeker mem_Write writer iter w_offset data cursor].
  assert (Hn : len (b ++ nulBytes) = len b + 1)
    by (unfold len; rewrite length_app; simpl; lia).
  rewrite Hn, int64_small by lia.
  now replace (o + (len b + 1)) with (o + len b + 1) by lia.
Qed.

Lemma collect_cons (n : nat) (it it_end : I) (m : Message)
    (rest : list (option Message)) :
  collect (S n) it = Returns (Some m :: rest, None, it_end) ->
  exists it1,
    Next it = Returns (Some m, None, it1)
    /\ collect n it1 = Returns (rest, None, it_end).
Proof.
  cbn [collect].
  destruct (Next it) as [[[msg e] it1] |]; [| discriminate].
  cbn [bind]. destruct e as [e |]; [discriminate |].
  destruct (collect n it1) as [[[rest' e'] it2] |] eqn:Hc; [| discriminate].
  cbn [bind]. intros E. injection E as -> -> -> ->.
  exists it1. split; [reflexivity | exact Hc].
Qed.

Lemma len_nonneg {A : Type} (l : list A) : 0 <= len l.
Proof. unfold len. lia. Qed.

Lemma strings_size_nonneg (ms : list Message) : 0 <= strings_size ms.
Proof.
  induction ms as [| m ms IH]; simpl; [lia |].
  pose proof (len_nonneg (msgidBytes m)).
  pose proof (len_nonneg (msgstrBytes m)). lia.
Qed.

Lemma len_positionBytes (p : moPosition) : len (positionBytes p) = 8.
Proof. reflexivity. Qed.

Lemma len_snoc_nul (b : list byte) : len (b ++ nulBytes) = len b + 1.
Proof. unfold len. rewrite length_app. simpl. lia. Qed.

(** The loop of [writeAll] on a file in memory: it lays the messages
    out, and leaves the settled regions as they are. *)
Lemma writeAll_loop_mem (n : Z) (ms : list Message) :
  forall (w : moWriter memFile I) (i off : Z) (it_end : I),
    collect (length ms) (iter w) = Returns (map Some ms, None, it_end) ->
    synced w -> 0 <= i -> i + len ms = n -> n * 16 + 28 <= off ->
    off + strings_size ms < 2 ^ 32 ->
    exists w',
      writeAll_loop (length ms) w (mkHeader n 28 (n * 8 + 28) 0 0) i off
      = Returns (None, w')
      /\ iter w' = it_end
      /\ laid_out (data (writer w')) n i off ms
      /\ forall o x,
           holds (data (writer w)) o x -> settled n i off o (len x) ->
           holds (data (writer w')) o x.
Proof.
  induction ms as [| m ms IH]; intros w i off it_end Hcol Hs Hi Hn Hoff Hfit.
  - injection Hcol as <-. exists w. simpl. auto.
  - cbn [length map] in Hcol.
    destruct (collect_cons _ _ _ _ _ Hcol) as (it1 & HNext & Hrest).
    pose proof (strings_size_nonneg ms) as Hsz.
    pose proof (len_nonneg (msgidBytes m)) as Hid.
    pose proof (len_nonneg (msgstrBytes m)) as Hstr.
    pose proof (len_nonneg ms) as Hms.
    assert (Hlen : len (m :: ms) = len ms + 1)
      by (unfold len; simpl length; lia).
    cbn [strings_size] in Hfit.
    cbn [writeAll_loop length]. rewrite HNext. cbn [bind].
    cbn [IdTableOffset StrTableOffset writer w_offset].
    rewrite (uint32_small (28 + i * 8)) by lia.
    set (id := msgidBytes m) in *. set (str := msgstrBytes m) in *.
    rewrite writeMessage_mem; [| exact Hs | lia | lia | lia].
    rewrite (uint32_small (len id + 1)) by lia.
    rewrite (uint32_small (off + (len id + 1))) by lia.
    rewrite (uint32_small (n * 8 + 28 + i * 8)) by lia.
    rewrite writeMessage_mem;
      [| split; cbn [writer cursor w_offset]; lia | lia | lia | lia].
    rewrite (uint32_small (len str + 1)) by lia.
    rewrite (uint32_small (off + (len id + 1) + (len str + 1))) by lia.
    rewrite (uint32_small (i + 1)) by lia.
    cbn [writer iter data].
    set (d := data (writer w)).
    set (d1 := put d (28 + i * 8)
                 (positionBytes (mkPosition (len id) off))).
    set (d2 := put d1 off (id ++ nulBytes)).
    set (d3 := put d2 (n * 8 + 28 + i * 8)
                 (positionBytes (mkPosition (len str) (off + (len id + 1))))).
    set (d4 := put d3 (off + (len id + 1)) (str ++ nulBytes)).
    match goal with
    | |- context [writeAll_loop _ ?w4 _ _ ?off4] =>
      destruct (IH w4 (i + 1) off4 it_end) as (w' & Hloop & Hit & Hlaid & Hkeep)
    end; cbn [iter writer cursor w_offset data];
      try lia; try exact Hrest; [split; cbn; lia |].
    exists w'. split; [exact Hloop | split; [exact Hit |]].
    (* The four writes of this round do not touch one another. *)
    assert (Hfour : forall o x,
              holds d o x -> settled n i off o (len x) -> holds d4 o x).
    { intros o x Hh Hset. unfold settled in Hset.
      pose proof (len_positionBytes (mkPosition (len id) off)).
      pose proof (len_positionBytes
                    (mkPosition (len str) (off + (len id + 1)))).
      pose proof (len_snoc_nul id). pose proof (len_snoc_nul str).
      destruct Hh as (Ho & Hh). pose proof (conj Ho Hh) as Hh'.
      apply holds_put_other; [| lia | lia].
      apply holds_put_other; [| lia | lia].
      apply holds_put_other; [| lia | lia].
      apply holds_put_other; [exact Hh' | lia | lia]. }
    assert (H1 : holds d4 (28 + i * 8)
                   (positionBytes (mkPosition (len id) off))).
    { pose proof (len_positionBytes (mkPosition (len id) off)).
      pose proof (len_positionBytes
                    (mkPosition (len str) (off + (len id + 1)))).
      pose proof (len_snoc_nul id). pose proof (len_snoc_nul str).
      apply holds_put_other; [| lia | lia].
      apply holds_put_other; [| lia | lia].
      apply holds_put_other; [| lia | lia].
      apply holds_put_same. lia. }
    assert (H2 : holds d4 off (id ++ nulBytes)).
    { pose proof (len_positionBytes
                    (mkPosition (len str) (off + (len id + 1)))).
      pose proof (len_snoc_nul id). pose proof (len_snoc_nul str).
      apply holds_put_other; [| lia | lia].
      apply holds_put_other; [| lia | lia].
      apply holds_put_same. lia. }
    assert (H3 : holds d4 (n * 8 + 28 + i * 8)
                   (positionBytes
                      (mkPosition (len str) (off + (len id + 1))))).
    { pose proof (len_positionBytes
                    (mkPosition (len str) (off + (len id + 1)))).
      pose proof (len_snoc_nul str).
      apply holds_put_other; [| lia | lia].
      apply holds_put_same. lia. }
    assert (H4 : holds d4 (off + (len id + 1)) (str ++ nulBytes))
      by (apply holds_put_same; lia).
    split.
    + cbn [laid_out]. fold id. fold str.
      replace (off + len id + 1) with (off + (len id + 1)) by lia.
      replace (off + (len id + 1) + len str + 1)
        with (off + (len id + 1) + (len str + 1)) by lia.
      pose proof (len_positionBytes (mkPosition (len id) off)).
      pose proof (len_positionBytes
                    (mkPosition (len str) (off + (len id + 1)))).
      pose proof (len_snoc_nul id). pose proof (len_snoc_nul str).
      apply holds_app in H2. apply holds_app in H4.
      destruct H2 as (H2 & _). destruct H4 as (H4 & _).
      split; [| split; [| split; [| split; [| exact Hlaid]]]];
        (apply Hkeep; [assumption | unfold settled; lia]).
    + intros o x Hh Hset. apply Hkeep; [now apply Hfour |].
      unfold settled in *. lia.
Qed.

Lemma len_fileHeader (h : moHeader) : len (fileHeader h) = 28.
Proof. reflexivity. Qed.

(** [WriteMo] on an empty file in memory: the header, then the messages
    laid out. *)
Lemma WriteMo_mem (it it1 it_end : I) (ms : list Message) :
  Size it = (len ms, it1) ->
  collect (length ms) it1 = Returns (map Some ms, None, it_end) ->
  len ms * 16 + 28 + strings_size ms < 2 ^ 32 ->
  exists w,
    WriteMo (mkMem [] 0) it = Returns (None, w)
    /\ holds (data (writer w)) 0
         (fileHeader (mkHeader (len ms) 28 (len ms * 8 + 28) 0 0))
    /\ laid_out (data (writer w)) (len ms) 0 (len ms * 16 + 28) ms.
Proof.
  intros Hsize Hcol Hfit.
  pose proof (strings_size_nonneg ms) as Hsz.
  pose proof (len_nonneg ms) as Hms.
  unfold WriteMo, writeAll. cbn [iter writer w_offset]. rewrite Hsize.
  rewrite (uint32_small (len ms)) by lia.
  rewrite (uint32_small (len ms * 8 + 28)) by lia.
  rewrite (uint32_small (len ms * 16 + 28)) by lia.
  rewrite writeHeader_mem by (split; cbn [writer cursor w_offset]; lia).
  cbn [writer data iter].
  replace (Z.to_nat (len ms)) with (length ms) by (unfold len; lia).
  set (h := mkHeader (len ms) 28 (len ms * 8 + 28) 0 0).
  set (a := PutUint32 LittleEndian littleEndian).
  set (b := PutUint16 LittleEndian 0 ++ PutUint16 LittleEndian 0).
  match goal with
  | |- context [writeAll_loop _ ?w0 _ _ _] =>
    destruct (writeAll_loop_mem (len ms) ms w0 0 (len ms * 16 + 28) it_end)
      as (w' & Hloop & _ & Hlaid & Hkeep)
  end; cbn [iter writer cursor w_offset data]; try lia; try exact Hcol;
    [split; cbn [writer cursor w_offset]; lia |].
  exists w'. split; [exact Hloop | split; [| exact Hlaid]].
  apply Hkeep; [| unfold settled; rewrite len_fileHeader; lia].
  cbn [writer data]. unfold fileHeader. fold a. fold b.
  assert (Ha : len a = 4) by reflexivity.
  assert (Hb : len b = 4) by reflexivity.
  assert (Hh : len (headerBytes h) = 20) by reflexivity.
  apply holds_app. split.
  - apply holds_put_other; [| lia | lia].
    apply holds_put_other; [| lia | lia].
    apply holds_put_same. lia.
  - rewrite Ha. apply holds_app. split.
    + apply holds_put_other; [| lia | lia]. apply holds_put_same. lia.
    + rewrite Hb. apply holds_put_same. lia.
Qed.

End WriterOnFile.

(** *** The reader on a file in memory *)

Lemma seek_mem (r : moReader memFile) (off : Z) :
  synced_r r -> 0 <= off < 2 ^ 33 ->
  seek r off
  = (None, mkReader (mkMem (data (reader r)) off) (order r) off (header r)
             (r_pos r) (r_err r)).
Proof.
  intros [Hc Ho] Hoff. unfold seek. cbn [Seek memFile_ReadSeeker].
  rewrite int64_small by lia. unfold mem_Seek.
  change (1 =? 0) with false. change (1 =? 1) with true. cbv iota.
  rewrite Hc. replace (offset r + (off - offset r)) with off by lia.
  replace (off <? 0) with false by (symmetry; apply Z.ltb_ge; lia).
  reflexivity.
Qed.

Lemma readBytes_mem (d : list byte) (c : Z) (x : list byte) :
  holds d c x ->
  readBytes (mkMem d c) (len x) = (x, None, mkMem d (c + len x)).
Proof.
  intros Hx. pose proof (holds_read _ _ _ Hx) as Hread.
  destruct Hx as (Hc & Hlen & _). unfold readBytes.
  destruct (Z.eqb_spec (len x) 0) as [E | E].
  - rewrite E, Z.add_0_r. destruct x; [reflexivity |].
    unfold len in E. simpl length in E. lia.
  - cbn [ReadFull memFile_ReadSeeker]. unfold mem_ReadFull.
    cbn [data cursor]. pose proof (len_nonneg x).
    replace (len d - c <=? 0) with false by (symmetry; apply Z.leb_gt; lia).
    replace (len d - c <? len x) with false
      by (symmetry; apply Z.ltb_ge; lia).
    replace (Z.to_nat (len x)) with (length x) by (unfold len; lia).
    now rewrite Hread.
Qed.

Lemma readMessage_mem (r : moReader memFile) (t o : Z) (x : list byte) :
  synced_r r -> order r = Some LittleEndian ->
  holds (data (reader r)) t (positionBytes (mkPosition (len x) o)) ->
  holds (data (reader r)) o x ->
  t < 2 ^ 32 -> o + len x < 2 ^ 32 ->
  readMessage r t
  = Returns (Some x, None,
             mkReader (mkMem (data (reader r)) (o + len x)) (order r)
               (o + len x) (header r) (r_pos r) (r_err r)).
Proof.
  intros Hs Hord Hpos Hx Ht Hfit.
  pose proof (len_nonneg x) as Hlen.
  assert (Ht0 : 0 <= t) by apply Hpos.
  assert (Ho0 : 0 <= o) by apply Hx.
  unfold readMessage. rewrite (seek_mem r t Hs) by lia.
  cbn [reader order offset header r_pos r_err].
  change 8 with (len (positionBytes (mkPosition (len x) o))) at 1.
  rewrite (readBytes_mem _ _ _ Hpos). rewrite Hord.
  cbn [reader order offset header r_pos r_err].
  change (firstn 4 (positionBytes (mkPosition (len x) o)))
    with (PutUint32 LittleEndian (len x)).
  change (skipn 4 (positionBytes (mkPosition (len x) o)))
    with (PutUint32 LittleEndian o).
  rewrite !Uint32_PutUint32 by lia. cbn [p_Size p_Offset].
  rewrite int64_small by lia.
  rewrite seek_mem;
    [| split; cbn [reader cursor offset];
       [change (len (positionBytes (mkPosition (len x) o))) with 8; lia
       | lia]
     | lia].
  cbn [reader order offset header r_pos r_err data].
  rewrite (readBytes_mem _ _ _ Hx).
  rewrite int64_small by lia. reflexivity.
Qed.

Lemma readHeader_mem (r : moReader memFile) (h : moHeader) :
  synced_r r ->
  holds (data (reader r)) 0 (fileHeader h) ->
  0 <= MsgCount h < 2 ^ 32 -> 0 <= IdTableOffset h < 2 ^ 32 ->
  0 <= StrTableOffset h < 2 ^ 32 -> 0 <= HashSize h < 2 ^ 32 ->
  0 <= HashOffset h < 2 ^ 32 ->
  readHeader r
  = (h, None,
     mkReader (mkMem (data (reader r)) 28) (Some LittleEndian) 28 (header r)
       (r_pos r) (r_err r)).
Proof.
  intros Hs Hh H1 H2 H3 H4 H5. unfold fileHeader in Hh.
  apply holds_app in Hh. destruct Hh as (Ha & Hh).
  apply holds_app in Hh. destruct Hh as (Hb & Hh).
  change (0 + len (PutUint32 LittleEndian littleEndian)) with 4 in Hb, Hh.
  change (4 + len (PutUint16 LittleEndian 0 ++ PutUint16 LittleEndian 0))
    with 8 in Hh.
  unfold readHeader. rewrite (seek_mem r 0 Hs) by lia.
  cbn [reader order offset header r_pos r_err].
  change 4 with (len (PutUint32 LittleEndian littleEndian)) at 1.
  rewrite (readBytes_mem _ _ _ Ha).
  change (Uint32 LittleEndian (PutUint32 LittleEndian littleEndian)
          =? bigEndian) with false.
  change (Uint32 LittleEndian (PutUint32 LittleEndian littleEndian)
          =? littleEndian) with true.
  cbv iota. cbn [reader order offset header r_pos r_err].
  change (0 + len (PutUint32 LittleEndian littleEndian)) with 4.
  change 4 with (len (PutUint16 LittleEndian 0 ++ PutUint16 LittleEndian 0))
    at 2.
  rewrite (readBytes_mem _ _ _ Hb).
  cbn [reader order offset header r_pos r_err].
  change (4 + len (PutUint16 LittleEndian 0 ++ PutUint16 LittleEndian 0))
    with 8.
  change (Uint16 LittleEndian
            (firstn 2 (PutUint16 LittleEndian 0 ++ PutUint16 LittleEndian 0)))
    with 0.
  cbn [Major]. change (negb (0 =? 0) && negb (0 =? 1)) with false. cbv iota.
  change 20 with (len (headerBytes h)).
  rewrite (readBytes_mem _ _ _ Hh).
  cbn [reader order offset header r_pos r_err].
  change (8 + len (headerBytes h)) with 28.
  change (firstn 4 (headerBytes h))
    with (PutUint32 LittleEndian (MsgCount h)).
  change (firstn 4 (skipn 4 (headerBytes h)))
    with (PutUint32 LittleEndian (IdTableOffset h)).
  change (firstn 4 (skipn 8 (headerBytes h)))
    with (PutUint32 LittleEndian (StrTableOffset h)).
  change (firstn 4 (skipn 12 (headerBytes h)))
    with (PutUint32 LittleEndian (HashSize h)).
  change (firstn 4 (skipn 16 (headerBytes h)))
    with (PutUint32 LittleEndian (HashOffset h)).
  rewrite !Uint32_PutUint32 by lia.
  rewrite int64_small by lia. now destruct h.
Qed.


(** A call of [Next] on a file that holds the next message. *)
Lemma moReader_Next_mem (r : moReader memFile) (n i off : Z) (m : Message)
    (ms : list Message) :
  synced_r r -> order r = Some LittleEndian ->
  header r = Some (mkHeader n 28 (n * 8 + 28) 0 0) ->
  r_err r = None -> r_pos r = i -> 0 <= i -> i < n ->
  laid_out (data (reader r)) n i off (m :: ms) ->
  n * 16 + 28 <= off -> off + strings_size (m :: ms) < 2 ^ 32 ->
  moReader_Next r
  = Returns (Some (decodeMessage (msgidBytes m) (msgstrBytes m)), None,
             mkReader
               (mkMem (data (reader r))
                  (off + len (msgidBytes m) + 1 + len (msgstrBytes m)))
               (order r)
               (off + len (msgidBytes m) + 1 + len (msgstrBytes m))
               (header r) (i + 1) None).
Proof.
  intros Hs Hord Hhdr Herr Hpos Hi Hin Hlaid Hoff Hfit.
  cbn [laid_out strings_size] in Hlaid, Hfit.
  destruct Hlaid as (H1 & H2 & H3 & H4 & _).
  pose proof (strings_size_nonneg ms) as Hsz.
  pose proof (len_nonneg (msgidBytes m)) as Hid.
  pose proof (len_nonneg (msgstrBytes m)) as Hstr.
  unfold moReader_Next, init. rewrite Hhdr, Herr.
  unfold header_of. rewrite Hhdr. cbn [MsgCount IdTableOffset StrTableOffset].
  rewrite Hpos.
  replace (n <=? i) with false by (symmetry; apply Z.leb_gt; lia).
  rewrite (uint32_small (28 + i * 8)) by lia.
  rewrite (readMessage_mem r _ _ _ Hs Hord H1 H2) by lia.
  cbn [bind reader order offset header r_pos r_err data].
  rewrite Hhdr. cbn [MsgCount IdTableOffset StrTableOffset]. rewrite Hpos.
  rewrite (uint32_small (n * 8 + 28 + i * 8)) by lia.
  rewrite (readMessage_mem _ (n * 8 + 28 + i * 8)
             (off + len (msgidBytes m) + 1) (msgstrBytes m));
    cbn [reader order offset header r_pos r_err data cursor];
    [| split; cbn [reader order offset cursor]; lia
     | exact Hord | exact H3 | exact H4 | lia | lia].
  cbn [bind contents reader order offset header r_pos r_err].
  rewrite (uint32_small (i + 1)) by lia. rewrite ?Herr, ?Hpos. reflexivity.
Qed.

(** Reading on until the last message of the file. *)
Lemma collect_mem (n : Z) (ms : list Message) :
  forall (r : moReader memFile) (i off : Z),
    synced_r r -> order r = Some LittleEndian ->
    header r = Some (mkHeader n 28 (n * 8 + 28) 0 0) ->
    r_err r = None -> r_pos r = i -> 0 <= i -> i + len ms = n ->
    laid_out (data (reader r)) n i off ms ->
    n * 16 + 28 <= off -> off + strings_size ms < 2 ^ 32 ->
    exists r',
      collect (length ms) r
      = Returns
          (map (fun m => Some (decodeMessage (msgidBytes m) (msgstrBytes m)))
             ms, None, r').
Proof.
  induction ms as [| m ms IH];
    intros r i off Hs Hord Hhdr Herr Hpos Hi Hn Hlaid Hoff Hfit.
  - exists r. reflexivity.
  - pose proof (strings_size_nonneg ms) as Hsz.
    pose proof (len_nonneg (msgidBytes m)) as Hid.
    pose proof (len_nonneg (msgstrBytes m)) as Hstr.
    pose proof (len_nonneg ms) as Hms.
    assert (Hlen : len (m :: ms) = len ms + 1)
      by (unfold len; simpl length; lia).
    cbn [length collect map]. cbn [Next moReader_Iterator].
    rewrite (moReader_Next_mem r n i off m ms) by (assumption || lia).
    cbn [bind].
    cbn [laid_out strings_size] in Hlaid, Hfit.
    destruct Hlaid as (_ & _ & _ & _ & Hlaid).
    match goal with
    | |- context [collect _ ?r1] =>
      destruct (IH r1 (i + 1)
                  (off + len (msgidBytes m) + 1 + len (msgstrBytes m) + 1))
        as (r' & Hcol)
    end; cbn [reader order offset header r_pos r_err data cursor];
      try assumption; try lia; try reflexivity;
      [split; cbn [reader offset cursor]; lia |].
    rewrite Hcol. cbn [bind]. exists r'. reflexivity.
Qed.



End MoFileFacts.
